(** * A RIP-style distance-vector routing daemon

    Shallow embedding of the two router implementations of the repository:

    - [src/COSC364/ai_router.py]: the packet codec [RIPPacket] and the
      tuple-based [Router] (modules [RIPPacket] and [AiRouter] below);
    - [src/COSC364/Reverse Engineer/Commentary/1Server.py]: the [Router]
      working on [RoutingTableEntry] objects (module [Server] below).

    Conventions.  Python integers are [Z]; lengths and loop indices are
    [nat].  A byte string is a [list Z] whose elements are meant to lie in
    [0, 256) (predicate [is_bytes]).  A call that can raise [struct.error]
    returns an [option], [None] standing for the exception.  Dictionaries
    are [gmap]s; Python iterates them in insertion order, the model in the
    order of [map_to_list], and no statement below depends on that order.
    [time.time()] is read once per call and passed as an integer [now];
    floating-point rounding of clock values is not modelled. *)

From stdpp Require Import gmap list sorting.
From Stdlib Require Import ZArith Lia.

Local Open Scope Z_scope.

#[local] Set Warnings "-clear-no-such-hyp".

(** ** struct.pack / struct.unpack, network byte order *)

Module Struct.

Definition is_bytes (data : list Z) : Prop := Forall (λ b, 0 <= b < 256) data.

(** ['B']: one unsigned byte. *)
Definition pack_B (x : Z) : option (list Z) :=
  if bool_decide (0 <= x < 256) then Some [x] else None.

(** ['!H']: unsigned 16-bit, big-endian. *)
Definition pack_H (x : Z) : option (list Z) :=
  if bool_decide (0 <= x < 65536) then Some [x / 256; x mod 256] else None.

(** ['!I']: unsigned 32-bit, big-endian. *)
Definition pack_I (x : Z) : option (list Z) :=
  if bool_decide (0 <= x < 4294967296)
  then Some [x / 16777216; (x / 65536) mod 256; (x / 256) mod 256; x mod 256]
  else None.

Definition int_of_2 (b0 b1 : Z) : Z := b0 * 256 + b1.

Definition int_of_4 (b0 b1 b2 b3 : Z) : Z :=
  b0 * 16777216 + b1 * 65536 + b2 * 256 + b3.

(** [struct.unpack('!BBH', buf)]: raises unless [buf] has exactly 4 bytes. *)
Definition unpack_BBH (buf : list Z) : option (Z * Z * Z) :=
  match buf with
  | [c; v; h; l] => Some (c, v, int_of_2 h l)
  | _ => None
  end.

(** [struct.unpack('!12xII', buf)]: raises unless [buf] has exactly 20
    bytes; the 12 pad bytes are skipped whatever they hold. *)
Definition unpack_12xII (buf : list Z) : option (Z * Z) :=
  match buf with
  | [_; _; _; _; _; _; _; _; _; _; _; _; d0; d1; d2; d3; m0; m1; m2; m3] =>
      Some (int_of_4 d0 d1 d2 d3, int_of_4 m0 m1 m2 m3)
  | _ => None
  end.

(** [data[start:stop]] for [0 <= start <= stop]. *)
Definition slice (data : list Z) (start stop : nat) : list Z :=
  take (stop - start) (drop start data).

End Struct.

(** ** class RIPPacket (ai_router.py) *)

Module RIPPacket.
Import Struct.

Definition HEADER_SIZE : nat := 4.
Definition RTE_SIZE : nat := 20.
Definition COMMAND_REQUEST : Z := 1.
Definition COMMAND_RESPONSE : Z := 2.
Definition VERSION : Z := 2.
Definition INFINITY : Z := 16.

(** [struct.pack('!BBH', command, version, router_id)] *)
Definition create_header (router_id command version : Z) : option (list Z) :=
  c ← pack_B command;
  v ← pack_B version;
  r ← pack_H router_id;
  Some (c ++ v ++ r).

(** [struct.pack('!12xII', dest_id, metric)] *)
Definition create_rte (dest_id metric : Z) : option (list Z) :=
  d ← pack_I dest_id;
  m ← pack_I metric;
  Some (replicate 12 0 ++ d ++ m).

(** The loop [for dest_id, metric in routes: packet += create_rte(...)]. *)
Fixpoint append_rtes (packet : list Z) (routes : list (Z * Z)) : option (list Z) :=
  match routes with
  | [] => Some packet
  | (dest_id, metric) :: routes' =>
      rte ← create_rte dest_id metric;
      append_rtes (packet ++ rte) routes'
  end.

Definition create_response (router_id : Z) (routes : list (Z * Z)) : option (list Z) :=
  packet ← create_header router_id COMMAND_RESPONSE VERSION;
  append_rtes packet routes.

(** What [parse] returns: [None] ([Rejected]) or the tuple
    [(command, version, router_id, routes)]. *)
Inductive parsed : Type :=
  | Rejected
  | Packet (command version router_id : Z) (routes : list (Z * Z)).

(** The loop [for i in range(rte_count)], [routes] being the list built so
    far. *)
Fixpoint parse_rtes (data : list Z) (range : list nat) (routes : list (Z * Z))
  : option (list (Z * Z)) :=
  match range with
  | [] => Some routes
  | i :: range' =>
      let start := (HEADER_SIZE + i * RTE_SIZE)%nat in
      let stop := (start + RTE_SIZE)%nat in
      '(dest_id, metric) ← unpack_12xII (slice data start stop);
      parse_rtes data range'
        (if bool_decide (0 <= metric <= INFINITY)
         then routes ++ [(dest_id, metric)] else routes)
  end.

Definition parse (data : list Z) : option parsed :=
  if bool_decide (length data < HEADER_SIZE)%nat then Some Rejected else
  '(command, version, router_id) ← unpack_BBH (take HEADER_SIZE data);
  if bool_decide (version ≠ VERSION) then Some Rejected else
  let rte_count := ((length data - HEADER_SIZE) / RTE_SIZE)%nat in
  routes ← parse_rtes data (seq 0 rte_count) [];
  Some (Packet command version router_id routes).

(** An entry the codec is meant for: the destination fits the 32-bit field
    of a record and the metric lies in [0, INFINITY]. *)
Definition wire_route (r : Z * Z) : Prop :=
  0 <= r.1 < 4294967296 ∧ 0 <= r.2 <= INFINITY.

(** Record [i] of the loop of [parse] lies within the buffer. *)
Definition in_buffer (data : list Z) (i : nat) : Prop :=
  (HEADER_SIZE + i * RTE_SIZE + RTE_SIZE ≤ length data)%nat.

(** Entries [struct.pack] accepts: both fields fit 32 bits. *)
Definition packable (r : Z * Z) : Prop :=
  0 <= r.1 < 4294967296 ∧ 0 <= r.2 < 4294967296.

End RIPPacket.

Import Struct RIPPacket.

(** ** class Router (ai_router.py) *)

Module AiRouter.

(** A route's [timestamp]: a clock value, or [float('inf')] (own route). *)
Inductive stamp : Type :=
  | At (t : Z)
  | Inf.

(** [now - timestamp > limit]; [now - inf] is [-inf], below every limit. *)
Definition elapsed_gt (now : Z) (ts : stamp) (limit : Z) : bool :=
  match ts with
  | At t => bool_decide (now - t > limit)
  | Inf => false
  end.

(** The tuple [(next_hop_id, metric, timestamp, garbage_collection)]. *)
Record route : Type := Route {
  next_hop_id : Z;
  metric : Z;
  timestamp : stamp;
  garbage : bool
}.

(** The fields of [Router] the routing engine reads; [outputs] holds the
    tuples [(port, metric, router_id)]. *)
Record router : Type := Router {
  router_id : Z;
  outputs : list (Z * Z * Z);
  routes : gmap Z route;
  route_timeout : Z;
  garbage_collection_timeout : Z
}.

Definition set_routes (self : router) (tbl : gmap Z route) : router :=
  Router (router_id self) (outputs self) tbl
    (route_timeout self) (garbage_collection_timeout self).

(** What [parse_config] accepts for [outputs]: metric 1..15, id 1..64000. *)
Definition valid_outputs (outs : list (Z * Z * Z)) : Prop :=
  Forall (λ '(_, m, n), 1 <= m <= 15 ∧ 1 <= n <= 64000) outs.

(** [Router.__init__] once [parse_config] has set the id, outputs and timers. *)
Definition init (id : Z) (outs : list (Z * Z * Z)) (rt gt now : Z) : router :=
  let direct :=
    foldl (λ tbl '(_, m, neighbor_id),
             <[neighbor_id := Route neighbor_id m (At now) false]> tbl) ∅ outs in
  Router id outs (<[id := Route id 0 Inf false]> direct) rt gt.

(** The search loop at the head of [process_update]: first output whose
    router id is the sender's. *)
Definition find_neighbor (outs : list (Z * Z * Z)) (sender : Z) : option (Z * Z * Z) :=
  List.find (λ '(_, _, n_id), bool_decide (n_id = sender)) outs.

(** One iteration of [for dest_id, metric in routes] in [process_update];
    the state is the table and [table_modified]. *)
Definition process_route (self_id sender base_metric now : Z)
    (st : gmap Z route * bool) (adv : Z * Z) : gmap Z route * bool :=
  let '(tbl, table_modified) := st in
  let '(dest_id, adv_metric) := adv in
  if bool_decide (dest_id = self_id) then st else
  let new_metric := Z.min (base_metric + adv_metric) INFINITY in
  match tbl !! dest_id with
  | Some (Route current_next_hop current_metric _ g) =>
      if bool_decide (current_next_hop = sender) then
        if bool_decide (new_metric ≠ current_metric) then
          if bool_decide (new_metric >= INFINITY) && bool_decide (current_metric < INFINITY)
          then (<[dest_id := Route sender INFINITY (At now) true]> tbl, true)
          else (<[dest_id := Route sender new_metric (At now) g]> tbl, true)
        else (<[dest_id := Route sender current_metric (At now) g]> tbl, table_modified)
      else if bool_decide (new_metric < current_metric) then
        (<[dest_id := Route sender new_metric (At now) false]> tbl, true)
      else st
  | None =>
      if bool_decide (new_metric < INFINITY)
      then (<[dest_id := Route sender new_metric (At now) false]> tbl, true)
      else st
  end.

(** [process_update(router_id, routes)]: the returned flag and the router
    with its table updated. *)
Definition process_update (self : router) (sender : Z) (advertised : list (Z * Z))
    (now : Z) : bool * router :=
  match find_neighbor (outputs self) sender with
  | None => (false, self)
  | Some (_, base_metric, _) =>
      let '(tbl, table_modified) :=
        foldl (process_route (router_id self) sender base_metric now)
              (routes self, false) advertised in
      (table_modified, set_routes self tbl)
  end.

(** One iteration of [for dest_id in list(self.routes.keys())] in
    [check_timeouts].  The key comes from the snapshot of the keys and only
    its own iteration can delete it, so the lookup cannot miss. *)
Definition check_route (self : router) (now : Z)
    (st : gmap Z route * bool) (dest_id : Z) : gmap Z route * bool :=
  let '(tbl, table_modified) := st in
  if bool_decide (dest_id = router_id self) then st else
  match tbl !! dest_id with
  | Some (Route next_hop _ ts g) =>
      if g then
        if elapsed_gt now ts (garbage_collection_timeout self)
        then (delete dest_id tbl, true)
        else st
      else
        if elapsed_gt now ts (route_timeout self)
        then (<[dest_id := Route next_hop INFINITY (At now) true]> tbl, true)
        else st
  | None => st
  end.

Definition check_timeouts (self : router) (now : Z) : bool * router :=
  let '(tbl, table_modified) :=
    foldl (check_route self now) (routes self, false) (map_to_list (routes self)).*1 in
  (table_modified, set_routes self tbl).

(** The inner loop of [send_updates]: what is advertised to one neighbour. *)
Definition routes_to_send (tbl : gmap Z route) (neighbor_id : Z) : list (Z * Z) :=
  (λ '(dest_id, Route next_hop m _ _),
     if bool_decide (next_hop = neighbor_id) then (dest_id, INFINITY) else (dest_id, m))
  <$> map_to_list tbl.

(** [send_updates]: the datagrams handed to [sendto], as pairs
    [(out_port, packet)], one per output; [None] when [create_response]
    raises. *)
Definition send_updates (self : router) : option (list (Z * list Z)) :=
  mapM (λ '(out_port, _, neighbor_id),
          packet ← create_response (router_id self)
                     (routes_to_send (routes self) neighbor_id);
          Some (out_port, packet))
       (outputs self).

(** Size of the receive buffer in [run]: [sock.recvfrom(2048)] keeps at
    most this many bytes of a datagram. *)
Definition RECV_BUFSIZE : nat := 2048.

(** The body of [for sock in readable] in [run], for one received datagram:
    only a parsed packet whose command is RESPONSE reaches [process_update];
    an exception is caught and leaves the table as it is. *)
Definition handle_datagram (self : router) (data : list Z) (now : Z) : bool * router :=
  match parse data with
  | Some (Packet command _ sender advertised) =>
      if bool_decide (command = COMMAND_RESPONSE)
      then process_update self sender advertised now
      else (false, self)
  | _ => (false, self)
  end.

(** *** Views of the two loops, one destination at a time *)

(** What one advertisement does to the slot of its destination: the route
    written there and whether [table_modified] is set, or [None] when
    nothing is written. *)
Definition update_slot (sender base_metric now : Z) (cur : option route) (adv_metric : Z)
  : option (route * bool) :=
  let new_metric := Z.min (base_metric + adv_metric) INFINITY in
  match cur with
  | Some (Route current_next_hop current_metric _ g) =>
      if bool_decide (current_next_hop = sender) then
        if bool_decide (new_metric ≠ current_metric) then
          if bool_decide (new_metric >= INFINITY) && bool_decide (current_metric < INFINITY)
          then Some (Route sender INFINITY (At now) true, true)
          else Some (Route sender new_metric (At now) g, true)
        else Some (Route sender current_metric (At now) g, false)
      else if bool_decide (new_metric < current_metric)
           then Some (Route sender new_metric (At now) false, true)
           else None
  | None =>
      if bool_decide (new_metric < INFINITY)
      then Some (Route sender new_metric (At now) false, true)
      else None
  end.

(** What a sweep does to a route other than the router's own: [None] when
    the route is deleted. *)
Definition expire (self : router) (now : Z) (r : route) : option route :=
  if garbage r then
    if elapsed_gt now (timestamp r) (garbage_collection_timeout self) then None else Some r
  else
    if elapsed_gt now (timestamp r) (route_timeout self)
    then Some (Route (next_hop_id r) INFINITY (At now) true)
    else Some r.

(** *** Runs of the routing engine *)

Inductive event : Type :=
  | Update (sender : Z) (advertised : list (Z * Z)) (now : Z)
  | Sweep (now : Z).

Definition step (self : router) (ev : event) : router :=
  match ev with
  | Update sender advertised now => (process_update self sender advertised now).2
  | Sweep now => (check_timeouts self now).2
  end.

Definition run (self : router) (evs : list event) : router := foldl step self evs.

(** Advertised metrics as the wire format carries them: unsigned. *)
Definition unsigned_metrics (ev : event) : Prop :=
  match ev with
  | Update _ advertised _ => Forall (λ adv, 0 <= adv.2) advertised
  | Sweep _ => True
  end.

(** Link costs of the configuration; [parse_config] accepts 1..15 only. *)
Definition link_costs_ok (outs : list (Z * Z * Z)) : Prop :=
  Forall (λ out, 0 <= out.1.2 <= INFINITY) outs.

(** Two routes that differ in their timestamp at most. *)
Definition same_route (r1 r2 : route) : Prop :=
  next_hop_id r1 = next_hop_id r2 ∧ metric r1 = metric r2 ∧ garbage r1 = garbage r2.

Definition same_routes (t1 t2 : gmap Z route) : Prop :=
  ∀ d, option_Forall2 same_route (t1 !! d) (t2 !! d).

(** The metric a route with next hop [next_hop] and stored metric [m] is
    to be advertised with to neighbour [neighbor_id]. *)
Definition poisoned (neighbor_id next_hop m : Z) : Z :=
  if bool_decide (next_hop = neighbor_id) then INFINITY else m.

(** A slot on which the advertisement [adv_metric] of [sender] has
    nothing left to change: it holds the sender's route at the candidate
    metric, or another route the candidate does not beat, or it is empty
    and the candidate is unreachable. *)
Definition settled (sender base_metric : Z) (cur : option route) (adv_metric : Z) : Prop :=
  let new_metric := Z.min (base_metric + adv_metric) INFINITY in
  match cur with
  | Some c =>
      if bool_decide (next_hop_id c = sender) then metric c = new_metric
      else ¬ new_metric < metric c
  | None => ¬ new_metric < INFINITY
  end.

(** *** The table as [get_routing_table] lists it *)

(** A row [(dest_id, next_hop_id, metric, age, garbage)]. *)
Definition row : Type := Z * Z * Z * Z * bool.

Definition row_dest (x : row) : Z := x.1.1.1.1.

(** The order of [sorted(table, key=lambda x: x[0])]. *)
Definition row_le (x y : row) : Prop := row_dest x <= row_dest y.

#[global] Instance row_le_dec : RelDecision row_le.
Proof. intros x y. unfold row_le. apply _. Defined.

(** [int(now - timestamp)].  For the infinite timestamp [now - timestamp]
    is [-inf], and [int] of an infinite float raises [OverflowError].  On
    the whole-number clock of this development [int] is the identity; the
    truncation of a fractional difference is not modelled, so only whether
    an age exists is used below, never its value. *)
Definition age (now : Z) (ts : stamp) : option Z :=
  match ts with
  | At t => Some (now - t)
  | Inf => None
  end.

(** [get_routing_table]: [None] when the loop raises.  The keys of a
    dictionary are distinct, so the sort has one possible result. *)
Definition get_routing_table (self : router) (now : Z) : option (list row) :=
  table ← mapM (λ '(dest_id, Route next_hop m ts g),
                  a ← age now ts; Some (dest_id, next_hop, m, a, g))
               (map_to_list (routes self));
  Some (merge_sort row_le table).

(** The ids of the configured neighbours. *)
Definition neighbor_ids (self : router) : list Z := (outputs self).*2.

(** What [create_response] can encode and [parse] lets through. *)
Definition wire_table (tbl : gmap Z route) : Prop :=
  map_Forall (λ d r, 0 <= d < 4294967296 ∧ 0 <= metric r <= INFINITY) tbl.

(** A route whose next hop is the router itself or a configured output. *)
Definition known_next_hop (id : Z) (outs : list (Z * Z * Z)) (r : route) : Prop :=
  next_hop_id r = id ∨ next_hop_id r ∈ outs.*2.

(** A route within bounds that is unreachable only if condemned. *)
Definition live_is_finite (r : route) : Prop :=
  metric r <= INFINITY ∧ (garbage r = false → metric r < INFINITY).

End AiRouter.

(** ** class Router (1Server.py) *)

Module Server.

Definition INFINITY : Z := 16.

Module Entry.

(** Modelled from the spec: the class [RoutingTableEntry] of
    [forwarding_table.py] is not among the sources.  Its fields are the Route
    Entry of the data model, under the names [1Server.py] reads and writes:
    [timeout] is the time of the last refresh, [garbage_time] the time the
    garbage timer was started. *)
Record t : Type := Make {
  dst_id : Z;
  next_hop : Z;
  metric : Z;
  changed_flag : bool;
  garbage_flag : bool;
  timeout : Z;
  garbage_time : Z
}.

Definition set_metric (e : t) (m : Z) : t :=
  Make (dst_id e) (next_hop e) m (changed_flag e) (garbage_flag e) (timeout e) (garbage_time e).

Definition set_changed_flag (e : t) (b : bool) : t :=
  Make (dst_id e) (next_hop e) (metric e) b (garbage_flag e) (timeout e) (garbage_time e).

Definition set_garbage_flag (e : t) (b : bool) : t :=
  Make (dst_id e) (next_hop e) (metric e) (changed_flag e) b (timeout e) (garbage_time e).

(** Modelled from the spec: [init_timeout()] refreshes the timestamp. *)
Definition init_timeout (e : t) (now : Z) : t :=
  Make (dst_id e) (next_hop e) (metric e) (changed_flag e) (garbage_flag e) now (garbage_time e).

(** Modelled from the spec: [init_garbage()] starts the garbage timer. *)
Definition init_garbage (e : t) (now : Z) : t :=
  Make (dst_id e) (next_hop e) (metric e) (changed_flag e) (garbage_flag e) (timeout e) now.

(** Modelled from the spec: [RoutingTableEntry(dst_id, next_hop, metric)]
    makes an entry that is neither changed nor condemned; the spec gives its
    clock fields no meaning before a refresh, they are 0 here. *)
Definition new (dst nh m : Z) : t := Make dst nh m false false 0 0.

End Entry.

(** Modelled from the spec: the neighbour objects of [self.outputs], with
    the three attributes [1Server.py] reads. *)
Record OutputInterface : Type := Output {
  peer_id : Z;
  link_cost : Z;
  peer_port_no : Z
}.

Record router : Type := Router {
  id : Z;
  outputs : list OutputInterface;
  timer_value : Z;
  routing_table : gmap Z Entry.t;
  triggered_update_call : bool
}.

(** [self.timeout_time = timer_value * 6], [self.garbage_time = timer_value * 4] *)
Definition timeout_time (self : router) : Z := timer_value self * 6.
Definition garbage_time (self : router) : Z := timer_value self * 4.

Definition set_table (self : router) (tbl : gmap Z Entry.t) (trig : bool) : router :=
  Router (id self) (outputs self) (timer_value self) tbl trig.

(** [Router.__init__]: the table starts empty. *)
Definition init (router_id : Z) (outs : list OutputInterface) (tv : Z) : router :=
  Router router_id outs tv ∅ false.

(** The loop [for output in self.outputs] of [resolve_update]: every output
    whose peer is the source adds its link cost, capped at INFINITY; with no
    such output the metric stays as advertised. *)
Definition add_link_cost (outs : list OutputInterface) (src_id m : Z) : Z :=
  foldl (λ m output,
           if bool_decide (peer_id output = src_id)
           then Z.min (m + link_cost output) INFINITY else m) m outs.

(** [entry.changed_flag = True; entry.init_timeout()] *)
Definition mark_changed (entry : Entry.t) (now : Z) : Entry.t :=
  Entry.init_timeout (Entry.set_changed_flag entry true) now.

(** One iteration of [for entry in table_entries] in [resolve_update]; the
    state is the table and [triggered_update_call]. *)
Definition resolve_entry (self : router) (src_id now : Z)
    (st : gmap Z Entry.t * bool) (entry : Entry.t) : gmap Z Entry.t * bool :=
  let '(tbl, trig) := st in
  if bool_decide (Entry.dst_id entry ≠ id self) then
    let entry := Entry.set_metric entry (add_link_cost (outputs self) src_id (Entry.metric entry)) in
    let dst := Entry.dst_id entry in
    match tbl !! dst with
    | None =>
        if bool_decide (Entry.metric entry ≠ INFINITY)
        then (<[dst := mark_changed entry now]> tbl, trig)
        else st
    | Some cur =>
        if Entry.garbage_flag cur && bool_decide (Entry.metric entry < INFINITY) then
          (<[dst := mark_changed entry now]> tbl, trig)
        else if bool_decide (Entry.metric entry = Entry.metric cur) then
          if bool_decide (Entry.next_hop entry = Entry.next_hop cur) then
            (<[dst := Entry.init_timeout cur now]> tbl, trig)
          else if bool_decide (now >= Entry.timeout cur + timeout_time self / 2) then
            (<[dst := mark_changed entry now]> tbl, trig)
          else st
        else if (bool_decide (Entry.next_hop cur = src_id)
                 && bool_decide (Entry.metric entry ≠ Entry.metric cur))
                || bool_decide (Entry.metric entry < Entry.metric cur) then
          let entry := mark_changed entry now in
          if bool_decide (Entry.metric entry = INFINITY)
          then (<[dst := Entry.init_garbage (Entry.set_garbage_flag entry true) now]> tbl, true)
          else (<[dst := entry]> tbl, trig)
        else st
    end
  else st.

(** [resolve_update(data)] from the result [(src_id, table_entries)] of
    [decode_packet(data)]; [decode_packet] ([packets.py]) is not among the
    sources. *)
Definition resolve_update (self : router) (src_id : Z) (table_entries : list Entry.t)
    (now : Z) : router :=
  let '(tbl, trig) :=
    foldl (resolve_entry self src_id now)
          (routing_table self, triggered_update_call self) table_entries in
  set_table self tbl trig.

(** The split-horizon loop shared by [triggered_update] and
    [periodic_update]: the list [entries_sh_pr] built for one output. *)
Definition entries_sh_pr (table_entries : list Entry.t) (output : OutputInterface)
  : list Entry.t :=
  (λ entry,
     if bool_decide (Entry.next_hop entry = peer_id output)
     then Entry.new (Entry.dst_id entry) (Entry.next_hop entry) INFINITY
     else entry) <$> table_entries.

(** [periodic_update]: for each output the port and the entries handed to
    [encode_packet] (not among the sources), and the router with every
    [changed_flag] and [triggered_update_call] cleared. *)
Definition periodic_update (self : router) : list (Z * list Entry.t) * router :=
  let table_entries :=
    Entry.new (id self) (id self) 0 :: (map_to_list (routing_table self)).*2 in
  let sent := (λ output, (peer_port_no output, entries_sh_pr table_entries output))
              <$> outputs self in
  (sent,
   set_table self
     ((λ e, if Entry.changed_flag e then Entry.set_changed_flag e false else e)
      <$> routing_table self) false).

(** [triggered_update]: the changed entries are collected and their flag is
    cleared on the stored objects themselves, so the collected entries
    carry the cleared flag; nothing is sent when none had changed. *)
Definition triggered_update (self : router) : list (Z * list Entry.t) * router :=
  let table_entries :=
    (λ e, Entry.set_changed_flag e false)
    <$> filter (λ e, Entry.changed_flag e = true) (map_to_list (routing_table self)).*2 in
  let sent :=
    if bool_decide (0 < length table_entries)%nat
    then (λ output, (peer_port_no output, entries_sh_pr table_entries output))
         <$> outputs self
    else [] in
  (sent,
   set_table self
     ((λ e, if Entry.changed_flag e then Entry.set_changed_flag e false else e)
      <$> routing_table self) false).

(** One iteration of [for entry in self.routing_table.values()] in
    [check_timeout].  The stored entry is reached through
    [self.routing_table[entry.dst_id]]; entries are only ever stored under
    their own [dst_id] ([wf_table] below), so this lookup cannot miss. *)
Definition check_timeout_entry (self : router) (now : Z)
    (st : gmap Z Entry.t * bool) (entry : Entry.t) : gmap Z Entry.t * bool :=
  let '(tbl, trig) := st in
  match tbl !! Entry.dst_id entry with
  | Some cur =>
      if bool_decide (Entry.garbage_flag cur = false) then
        if bool_decide (now >= Entry.timeout cur + timeout_time self) then
          let cur := Entry.init_garbage cur now in
          let cur := Entry.set_garbage_flag cur true in
          let cur := Entry.set_metric cur INFINITY in
          let cur := Entry.set_changed_flag cur true in
          (<[Entry.dst_id entry := cur]> tbl, true)
        else st
      else st
  | None => st
  end.

Definition check_timeout (self : router) (now : Z) : router :=
  let '(tbl, trig) :=
    foldl (check_timeout_entry self now)
          (routing_table self, triggered_update_call self)
          (map_to_list (routing_table self)).*2 in
  set_table self tbl trig.

(** The test of [check_garbage] on one entry of the iteration. *)
Definition garbage_expired (self : router) (now : Z) (entry : Entry.t) : bool :=
  match routing_table self !! Entry.dst_id entry with
  | Some cur =>
      Entry.garbage_flag cur
      && bool_decide (now >= Entry.garbage_time cur + garbage_time self)
  | None => false
  end.

(** [check_garbage]: first the list of ids to remove, then the removals. *)
Definition remove_list (self : router) (now : Z) : list Z :=
  Entry.dst_id <$>
    filter (λ entry, garbage_expired self now entry = true)
           (map_to_list (routing_table self)).*2.

Definition check_garbage (self : router) (now : Z) : router :=
  set_table self
    (foldl (λ tbl remove_id, delete remove_id tbl) (routing_table self) (remove_list self now))
    (triggered_update_call self).

(** Entries sit under their own destination id. *)
Definition wf_table (tbl : gmap Z Entry.t) : Prop :=
  map_Forall (λ k e, Entry.dst_id e = k) tbl.

(** *** Views of the loops, one destination at a time *)

(** What one decoded entry, its link cost already added, does to the slot
    of its destination: the entry written there and whether
    [triggered_update_call] is set, or [None] when nothing is written. *)
Definition resolve_slot (self : router) (src_id now : Z) (cur : option Entry.t)
    (entry : Entry.t) : option (Entry.t * bool) :=
  match cur with
  | None =>
      if bool_decide (Entry.metric entry ≠ INFINITY)
      then Some (mark_changed entry now, false) else None
  | Some cur =>
      if Entry.garbage_flag cur && bool_decide (Entry.metric entry < INFINITY) then
        Some (mark_changed entry now, false)
      else if bool_decide (Entry.metric entry = Entry.metric cur) then
        if bool_decide (Entry.next_hop entry = Entry.next_hop cur) then
          Some (Entry.init_timeout cur now, false)
        else if bool_decide (now >= Entry.timeout cur + timeout_time self / 2) then
          Some (mark_changed entry now, false)
        else None
      else if (bool_decide (Entry.next_hop cur = src_id)
               && bool_decide (Entry.metric entry ≠ Entry.metric cur))
              || bool_decide (Entry.metric entry < Entry.metric cur) then
        if bool_decide (Entry.metric entry = INFINITY)
        then Some (Entry.init_garbage
                     (Entry.set_garbage_flag (mark_changed entry now) true) now, true)
        else Some (mark_changed entry now, false)
      else None
  end.

(** What [check_timeout] does to a stored entry. *)
Definition condemn (self : router) (now : Z) (cur : Entry.t) : Entry.t :=
  if bool_decide (Entry.garbage_flag cur = false)
     && bool_decide (now >= Entry.timeout cur + timeout_time self)
  then Entry.set_changed_flag
         (Entry.set_metric (Entry.set_garbage_flag (Entry.init_garbage cur now) true) INFINITY)
         true
  else cur.

(** *** Runs of the routing engine *)

Inductive event : Type :=
  | Resolve (src_id : Z) (table_entries : list Entry.t) (now : Z)
  | CheckTimeout (now : Z)
  | CheckGarbage (now : Z)
  | Periodic
  | Triggered.

Definition step (self : router) (ev : event) : router :=
  match ev with
  | Resolve src_id table_entries now => resolve_update self src_id table_entries now
  | CheckTimeout now => check_timeout self now
  | CheckGarbage now => check_garbage self now
  | Periodic => (periodic_update self).2
  | Triggered => (triggered_update self).2
  end.

Definition run (self : router) (evs : list event) : router := foldl step self evs.

(** Modelled from the spec: [decode_packet] drops the records whose metric
    lies outside [0, INFINITY], so the entries it returns satisfy this. *)
Definition decoded_metrics (ev : event) : Prop :=
  match ev with
  | Resolve _ table_entries _ =>
      Forall (λ e, 0 <= Entry.metric e <= INFINITY) table_entries
  | _ => True
  end.

(** Link costs of the configuration (1..15 in the spec). *)
Definition link_costs_ok (outs : list OutputInterface) : Prop :=
  Forall (λ output, 0 <= link_cost output) outs.

(** The metric an entry is to be advertised with to the peer of [output]. *)
Definition poisoned (output : OutputInterface) (entry : Entry.t) : Z :=
  if bool_decide (Entry.next_hop entry = peer_id output) then INFINITY else Entry.metric entry.

(** The entries a triggered update collects: those marked changed. *)
Definition changed_entries (self : router) : list Entry.t :=
  filter (λ e, Entry.changed_flag e = true) (map_to_list (routing_table self)).*2.

(** The entry as [resolve_update] looks it up: link cost added. *)
Definition with_link_cost (self : router) (src_id : Z) (e : Entry.t) : Entry.t :=
  Entry.set_metric e (add_link_cost (outputs self) src_id (Entry.metric e)).

(** The slot of a destination once [entry] (link cost added) has been
    resolved against it. *)
Definition slot_after (self : router) (src_id now : Z) (cur : option Entry.t)
    (entry : Entry.t) : option Entry.t :=
  match resolve_slot self src_id now cur entry with
  | Some (new, _) => Some new
  | None => cur
  end.

(** Two entries that differ in their [timeout] at most. *)
Definition same_entry (e1 e2 : Entry.t) : Prop :=
  Entry.dst_id e1 = Entry.dst_id e2
  ∧ Entry.next_hop e1 = Entry.next_hop e2
  ∧ Entry.metric e1 = Entry.metric e2
  ∧ Entry.changed_flag e1 = Entry.changed_flag e2
  ∧ Entry.garbage_flag e1 = Entry.garbage_flag e2
  ∧ Entry.garbage_time e1 = Entry.garbage_time e2.

Definition same_entries (t1 t2 : gmap Z Entry.t) : Prop :=
  ∀ d, option_Forall2 same_entry (t1 !! d) (t2 !! d).

(** The test of the route refresh in CASE 3 of [resolve_update], on the
    slot [cur] for [entry] (link cost added) at time [now]: the stored
    route costs what the entry offers, goes through another next hop and
    was last refreshed at least [timeout_time / 2] ago. *)
Definition refresh_due (self : router) (now : Z) (cur : option Entry.t)
    (entry : Entry.t) : bool :=
  match cur with
  | Some c =>
      bool_decide (Entry.metric entry = Entry.metric c)
      && bool_decide (Entry.next_hop entry ≠ Entry.next_hop c)
      && bool_decide (now >= Entry.timeout c + timeout_time self / 2)
  | None => false
  end.

(** A slot on which [entry] (link cost added) has nothing left to change
    at time [now] but the timeout: resolving it writes nothing, or writes
    the stored entry with its timeout refreshed, and raises no trigger. *)
Definition calm (self : router) (src_id now : Z) (cur : option Entry.t)
    (entry : Entry.t) : Prop :=
  match resolve_slot self src_id now cur entry with
  | Some (new, t) => t = false ∧ ∃ c, cur = Some c ∧ same_entry new c
  | None => True
  end.

(** Modelled from the spec: the entries [decode_packet] returns are fresh
    objects, not condemned. *)
Definition unflagged_entries (ev : event) : Prop :=
  match ev with
  | Resolve _ table_entries _ => Forall (λ e, Entry.garbage_flag e = false) table_entries
  | _ => True
  end.

(** A condemned entry is unreachable. *)
Definition condemned_is_unreachable (e : Entry.t) : Prop :=
  Entry.garbage_flag e = true → Entry.metric e = INFINITY.

End Server.

(** * Properties *)

(** ** Sanity checks of the embedding on concrete inputs *)

Example parse_one_route :
  parse [2; 2; 0; 7; 0;0;0;0; 0;0;0;0; 0;0;0;0; 0;0;0;3; 0;0;0;5]
  = Some (Packet 2 2 7 [(3, 5)]).
Proof. reflexivity. Qed.

Example create_response_one_route :
  create_response 7 [(3, 5)]
  = Some [2; 2; 0; 7; 0;0;0;0; 0;0;0;0; 0;0;0;0; 0;0;0;3; 0;0;0;5].
Proof. reflexivity. Qed.

Example ai_new_route :
  let self := AiRouter.init 1 [(5002, 5, 2)] 180 120 0 in
  AiRouter.routes (AiRouter.process_update self 2 [(3, 1)] 7).2 !! 3
  = Some (AiRouter.Route 2 6 (AiRouter.At 7) false).
Proof. vm_compute. reflexivity. Qed.

(** ** The packet codec *)

Section Codec.

Lemma int_of_2_pack (x : Z) :
  0 <= x < 65536 → int_of_2 (x / 256) (x mod 256) = x.
Proof. intros Hx. unfold int_of_2. Z.to_euclidean_division_equations. lia. Qed.

Lemma int_of_4_pack (x : Z) :
  0 <= x < 4294967296 →
  int_of_4 (x / 16777216) ((x / 65536) mod 256) ((x / 256) mod 256) (x mod 256) = x.
Proof. intros Hx. unfold int_of_4. Z.to_euclidean_division_equations. lia. Qed.

Lemma pack_I_inv (x : Z) (buf : list Z) :
  pack_I x = Some buf →
  ∃ b0 b1 b2 b3, buf = [b0; b1; b2; b3] ∧ int_of_4 b0 b1 b2 b3 = x.
Proof.
  unfold pack_I. case_bool_decide as Hx; [|done].
  intros [= <-]. do 4 eexists. split; [done|]. by apply int_of_4_pack.
Qed.

Lemma pack_I_is_bytes (x : Z) (buf : list Z) : pack_I x = Some buf → is_bytes buf.
Proof.
  unfold pack_I, is_bytes. case_bool_decide as Hx; [|done].
  intros [= <-]. repeat constructor; Z.to_euclidean_division_equations; lia.
Qed.

Lemma create_rte_inv (d m : Z) (rte : list Z) :
  create_rte d m = Some rte →
  length rte = RTE_SIZE ∧ unpack_12xII rte = Some (d, m).
Proof.
  unfold create_rte. intros H.
  destruct (pack_I d) as [bd|] eqn:Hd; [|done].
  destruct (pack_I m) as [bm|] eqn:Hm; [|done].
  simpl in H. injection H as <-.
  apply pack_I_inv in Hd as (d0 & d1 & d2 & d3 & -> & Hd).
  apply pack_I_inv in Hm as (m0 & m1 & m2 & m3 & -> & Hm).
  split; [done|]. simpl. by rewrite Hd, Hm.
Qed.

Lemma create_rte_is_Some (d m : Z) :
  0 <= d < 4294967296 → 0 <= m < 4294967296 → is_Some (create_rte d m).
Proof.
  intros Hd Hm. unfold create_rte, pack_I.
  rewrite !bool_decide_eq_true_2 by done. by eexists.
Qed.

Lemma create_header_inv (rid c v : Z) (hdr : list Z) :
  create_header rid c v = Some hdr →
  length hdr = HEADER_SIZE ∧ unpack_BBH hdr = Some (c, v, rid).
Proof.
  unfold create_header, pack_B, pack_H.
  repeat case_bool_decide; try done. simpl.
  intros [= <-]. split; [done|]. simpl. by rewrite int_of_2_pack.
Qed.

(** The loop of [create_response] only ever appends to what it was given. *)
Lemma append_rtes_prefix (routes : list (Z * Z)) (packet : list Z) :
  append_rtes packet routes = (body ← append_rtes [] routes; Some (packet ++ body)).
Proof.
  revert packet. induction routes as [|[d m] routes IH]; intros packet; simpl.
  { by rewrite app_nil_r. }
  destruct (create_rte d m) as [rte|]; [|done]. simpl.
  rewrite IH, (IH rte).
  destruct (append_rtes [] routes) as [body|]; [|done]. simpl.
  by rewrite app_assoc.
Qed.

Lemma slice_after_prefix (pre l : list Z) (a b : nat) :
  slice (pre ++ l) (length pre + a) (length pre + b) = slice l a b.
Proof.
  unfold slice. rewrite drop_app_add.
  by replace (length pre + b - (length pre + a))%nat with (b - a)%nat by lia.
Qed.

Lemma slice_first (rte rest : list Z) :
  slice (rte ++ rest) 0 (length rte) = rte.
Proof. unfold slice. rewrite drop_0, Nat.sub_0_r. apply take_app_length. Qed.

(** Dropping the first record shifts every later record down by one. *)
Lemma parse_rtes_skip_rte (hdr rte body : list Z) (n k : nat) (acc : list (Z * Z)) :
  length hdr = HEADER_SIZE → length rte = RTE_SIZE →
  parse_rtes (hdr ++ rte ++ body) (seq (S k) n) acc
  = parse_rtes (hdr ++ body) (seq k n) acc.
Proof.
  intros Hh Hr. revert k acc. induction n as [|n IH]; intros k acc; [done|].
  cbn [seq parse_rtes].
  replace (slice (hdr ++ rte ++ body) (HEADER_SIZE + S k * RTE_SIZE)
             (HEADER_SIZE + S k * RTE_SIZE + RTE_SIZE))
    with (slice (hdr ++ body) (HEADER_SIZE + k * RTE_SIZE)
             (HEADER_SIZE + k * RTE_SIZE + RTE_SIZE)).
  { destruct (unpack_12xII _) as [[d m]|]; [|done]. simpl. apply IH. }
  rewrite (app_assoc hdr rte body).
  replace (HEADER_SIZE + S k * RTE_SIZE)%nat
    with (length (hdr ++ rte) + k * RTE_SIZE)%nat
    by (rewrite length_app, Hh, Hr; lia).
  replace (length (hdr ++ rte) + k * RTE_SIZE + RTE_SIZE)%nat
    with (length (hdr ++ rte) + (k * RTE_SIZE + RTE_SIZE))%nat by lia.
  rewrite slice_after_prefix.
  rewrite <- Hh, <- Nat.add_assoc. by rewrite slice_after_prefix.
Qed.

Lemma roundtrip_rtes (routes : list (Z * Z)) (hdr : list Z) (acc : list (Z * Z)) :
  length hdr = HEADER_SIZE → Forall wire_route routes →
  ∃ body, append_rtes [] routes = Some body
          ∧ length body = (length routes * RTE_SIZE)%nat
          ∧ parse_rtes (hdr ++ body) (seq 0 (length routes)) acc = Some (acc ++ routes).
Proof.
  intros Hh. revert acc.
  induction routes as [|[d m] routes IH]; intros acc Hok.
  { exists []. simpl. by rewrite app_nil_r. }
  apply Forall_cons in Hok as [[Hd Hm] Hok]. simpl in Hd, Hm.
  destruct (create_rte_is_Some d m) as [rte Hrte]; [done | unfold INFINITY in Hm; lia|].
  destruct (create_rte_inv _ _ _ Hrte) as [Hlen Hun].
  destruct (IH (acc ++ [(d, m)]) Hok) as (body & Hbody & Hblen & Hparse).
  exists (rte ++ body). split; [|split].
  - simpl. rewrite Hrte. simpl. rewrite append_rtes_prefix, Hbody. done.
  - rewrite length_app, Hlen, Hblen. simpl. lia.
  - cbn [length seq parse_rtes].
    replace (slice (hdr ++ rte ++ body) (HEADER_SIZE + 0 * RTE_SIZE)
               (HEADER_SIZE + 0 * RTE_SIZE + RTE_SIZE)) with rte.
    + rewrite Hun. simpl. rewrite bool_decide_eq_true_2 by done.
      rewrite parse_rtes_skip_rte by done. rewrite Hparse.
      by rewrite <- app_assoc.
    + rewrite <- Hh, <- Hlen.
      replace (length hdr + 0 * length rte)%nat with (length hdr + 0)%nat by lia.
      replace (length hdr + 0 + length rte)%nat with (length hdr + length rte)%nat by lia.
      rewrite slice_after_prefix. by rewrite slice_first.
Qed.

End Codec.

Section Parse.

Lemma unpack_12xII_is_Some (buf : list Z) :
  length buf = RTE_SIZE → is_Some (unpack_12xII buf).
Proof.
  unfold RTE_SIZE. intros Hlen.
  do 20 (destruct buf as [|? buf]; [done|]).
  destruct buf; [by eexists | done].
Qed.

Lemma slice_length (data : list Z) (a b : nat) :
  (b ≤ length data)%nat → length (slice data a b) = (b - a)%nat.
Proof. intros Hb. unfold slice. rewrite length_take, length_drop. lia. Qed.

(** A slice is read off the bytes before its end only. *)
Lemma slice_take (data : list Z) (a b n : nat) :
  (a ≤ b)%nat → (b ≤ n)%nat → slice (take n data) a b = slice data a b.
Proof.
  intros Hab Hbn. unfold slice. rewrite !take_drop_commute, take_take.
  by replace ((a + (b - a)) `min` n)%nat with (a + (b - a))%nat by lia.
Qed.

(** No [struct.error] in the loop: every slice it unpacks has 20 bytes. *)
Lemma parse_rtes_is_Some (data : list Z) (range : list nat) (acc : list (Z * Z)) :
  Forall (in_buffer data) range → is_Some (parse_rtes data range acc).
Proof.
  revert acc. induction range as [|i range IH]; intros acc Hr; [by eexists|].
  apply Forall_cons in Hr as [Hi Hr]. cbn [parse_rtes].
  destruct (unpack_12xII_is_Some
              (slice data (HEADER_SIZE + i * RTE_SIZE) (HEADER_SIZE + i * RTE_SIZE + RTE_SIZE)))
    as [[d m] ->].
  { rewrite slice_length by apply Hi. lia. }
  simpl. apply IH, Hr.
Qed.

Lemma range_in_buffer (hdr payload : list Z) :
  length hdr = HEADER_SIZE →
  Forall (in_buffer (hdr ++ payload)) (seq 0 (length payload / RTE_SIZE)).
Proof.
  intros Hh. apply Forall_forall. intros i Hi%elem_of_seq.
  unfold in_buffer. rewrite length_app, Hh.
  pose proof (Nat.Div0.mul_div_le (length payload) RTE_SIZE) as Hle.
  unfold RTE_SIZE in *. lia.
Qed.

(** The loop reads the payload only: the header bytes do not matter. *)
Lemma parse_rtes_header (hdr hdr' payload : list Z) (range : list nat) (acc : list (Z * Z)) :
  length hdr = HEADER_SIZE → length hdr' = HEADER_SIZE →
  parse_rtes (hdr ++ payload) range acc = parse_rtes (hdr' ++ payload) range acc.
Proof.
  intros Hh Hh'. revert acc. induction range as [|i range IH]; intros acc; [done|].
  cbn [parse_rtes].
  rewrite <- Hh at 1 2. rewrite <- Hh' at 1 2.
  rewrite <- !Nat.add_assoc, !slice_after_prefix.
  destruct (unpack_12xII _) as [[d m]|]; [|done]. simpl. apply IH.
Qed.

(** The loop reads nothing past the last complete record. *)
Lemma parse_rtes_take (data : list Z) (n : nat) (range : list nat) (acc : list (Z * Z)) :
  Forall (λ i, HEADER_SIZE + i * RTE_SIZE + RTE_SIZE ≤ n)%nat range →
  parse_rtes (take n data) range acc = parse_rtes data range acc.
Proof.
  revert acc. induction range as [|i range IH]; intros acc Hr; [done|].
  apply Forall_cons in Hr as [Hi Hr]. cbn [parse_rtes].
  rewrite slice_take by lia.
  destruct (unpack_12xII _) as [[d m]|]; [|done]. simpl. by apply IH.
Qed.

(** [parse] on a buffer that has a header. *)
Lemma parse_with_header (c v h l : Z) (payload : list Z) :
  parse (c :: v :: h :: l :: payload)
  = if bool_decide (v ≠ VERSION) then Some Rejected
    else routes ← parse_rtes (c :: v :: h :: l :: payload)
                    (seq 0 (length payload / RTE_SIZE)) [];
         Some (Packet c v (int_of_2 h l) routes).
Proof.
  unfold parse. rewrite bool_decide_eq_false_2 by (simpl; unfold HEADER_SIZE; lia).
  change (take HEADER_SIZE (c :: v :: h :: l :: payload)) with [c; v; h; l].
  change (length (c :: v :: h :: l :: payload) - HEADER_SIZE)%nat
    with (length payload - 0)%nat.
  by rewrite Nat.sub_0_r.
Qed.

Lemma has_header (data : list Z) :
  ¬ (length data < HEADER_SIZE)%nat →
  ∃ c v h l payload, data = c :: v :: h :: l :: payload.
Proof.
  unfold HEADER_SIZE. intros Hlen.
  do 4 (destruct data as [|? data]; [simpl in Hlen; lia|]).
  by do 5 eexists.
Qed.

(** The loop keeps a record only when its metric is in range. *)
Lemma parse_rtes_metrics (data : list Z) (range : list nat) (acc routes : list (Z * Z)) :
  Forall (λ adv, 0 <= adv.2 <= INFINITY) acc →
  parse_rtes data range acc = Some routes →
  Forall (λ adv, 0 <= adv.2 <= INFINITY) routes.
Proof.
  revert acc. induction range as [|i range IH]; intros acc Hacc.
  { by intros [= <-]. }
  cbn [parse_rtes]. destruct (unpack_12xII _) as [[d m]|]; [|done]. simpl.
  apply IH. case_bool_decide; [|done].
  apply Forall_app. split; [done|]. by apply Forall_singleton.
Qed.

Lemma parse_metrics (data : list Z) (command version sender : Z) (routes : list (Z * Z)) :
  parse data = Some (Packet command version sender routes) →
  Forall (λ adv, 0 <= adv.2 <= INFINITY) routes.
Proof.
  unfold parse. case_bool_decide; [done|].
  destruct (unpack_BBH _) as [[[c v] rid]|]; [|done]. simpl.
  case_bool_decide; [done|].
  destruct (parse_rtes _ _ _) as [rs|] eqn:Hrs; [|done]. simpl.
  intros [= _ _ _ <-]. by eapply parse_rtes_metrics.
Qed.

(** [parse] never raises. *)
Lemma parse_is_Some (data : list Z) : is_Some (parse data).
Proof.
  destruct (decide (length data < HEADER_SIZE)%nat) as [Hlt|Hge].
  { unfold parse. rewrite bool_decide_eq_true_2 by done. by eexists. }
  destruct (has_header data Hge) as (c & v & h & l & payload & ->).
  rewrite parse_with_header. case_bool_decide; [by eexists|].
  destruct (parse_rtes_is_Some (c :: v :: h :: l :: payload)
              (seq 0 (length payload / RTE_SIZE)) []) as [routes ->].
  { apply (range_in_buffer [c; v; h; l]). done. }
  by eexists.
Qed.

End Parse.

Section CodecClaims.

(** C1.  Codec round trip: for every sender id that fits the 16-bit header
    field and every list of [(destination_id, metric)] entries whose
    destination fits the 32-bit record field and whose metric lies in
    [0, INFINITY], [create_response] succeeds and [parse] of its packet
    returns command RESPONSE, version 2, the same sender id and exactly the
    same entries in the same order.  ([create_response] always builds one
    packet, so there is nothing to reassemble.) *)
Theorem codec_roundtrip (sender_id : Z) (routes : list (Z * Z)) :
  0 <= sender_id < 65536 →
  Forall wire_route routes →
  ∃ packet, create_response sender_id routes = Some packet
            ∧ parse packet = Some (Packet COMMAND_RESPONSE VERSION sender_id routes).
Proof.
  intros Hid Hroutes.
  set (hdr := [COMMAND_RESPONSE; VERSION; sender_id / 256; sender_id `mod` 256]).
  destruct (roundtrip_rtes routes hdr [] eq_refl Hroutes) as (body & Hbody & Hlen & Hparse).
  exists (hdr ++ body). split.
  - unfold create_response, create_header, pack_B, pack_H.
    rewrite (bool_decide_eq_true_2 (0 <= sender_id < 65536)) by done.
    simpl. by rewrite append_rtes_prefix, Hbody.
  - subst hdr. cbn [app]. rewrite parse_with_header.
    rewrite bool_decide_eq_false_2 by (intros H; by apply H).
    rewrite Hlen, Nat.div_mul by done.
    change (COMMAND_RESPONSE :: VERSION :: sender_id / 256 :: sender_id `mod` 256 :: body)
      with ([COMMAND_RESPONSE; VERSION; sender_id / 256; sender_id `mod` 256] ++ body).
    rewrite Hparse. simpl. by rewrite int_of_2_pack.
Qed.

Lemma codec_roundtrip_witness :
  ∃ packet, create_response 7 [(3, 5); (64000, 16); (3, 0)] = Some packet
            ∧ parse packet
              = Some (Packet COMMAND_RESPONSE VERSION 7 [(3, 5); (64000, 16); (3, 0)]).
Proof.
  apply (codec_roundtrip 7 [(3, 5); (64000, 16); (3, 0)]).
  - lia.
  - repeat constructor; simpl; unfold INFINITY; lia.
Defined.

(** C4, as stated, fails: a version-2 buffer whose payload is 5 bytes long,
    not a multiple of the record size, is parsed, not rejected. *)
Lemma parse_accepts_misaligned_payload :
  let data := [2; 2; 0; 1; 9; 9; 9; 9; 9] in
  ((length data - HEADER_SIZE) `mod` RTE_SIZE)%nat ≠ 0%nat
  ∧ parse data = Some (Packet 2 2 1 []).
Proof. split; [by vm_compute | reflexivity]. Qed.

(** C4, amended.  [parse] never raises; it returns [None] exactly when the
    buffer is shorter than the 4-byte header or its version byte is not 2;
    a payload that is not a whole number of 20-byte records is not
    rejected: the bytes after the last complete record are ignored. *)
Theorem parse_rejects_iff (data : list Z) :
  is_Some (parse data)
  ∧ (parse data = Some Rejected
     ↔ (length data < HEADER_SIZE)%nat ∨ data !! 1%nat ≠ Some VERSION)
  ∧ parse (take (HEADER_SIZE + (length data - HEADER_SIZE) / RTE_SIZE * RTE_SIZE) data)
    = parse data.
Proof.
  split; [apply parse_is_Some|].
  destruct (decide (length data < HEADER_SIZE)%nat) as [Hlt|Hge].
  { split.
    - unfold parse. rewrite bool_decide_eq_true_2 by done. naive_solver.
    - rewrite take_ge; [done|].
      replace (length data - HEADER_SIZE)%nat with 0%nat by lia.
      unfold HEADER_SIZE in *. simpl. lia. }
  destruct (has_header data Hge) as (c & v & h & l & payload & ->).
  split.
  - rewrite parse_with_header.
    change ((c :: v :: h :: l :: payload) !! 1%nat) with (Some v).
    case_bool_decide as Hv.
    + split; [intros _; right; congruence | done].
    + destruct (parse_rtes_is_Some (c :: v :: h :: l :: payload)
                  (seq 0 (length payload / RTE_SIZE)) []) as [routes ->].
      { apply (range_in_buffer [c; v; h; l]). done. }
      simpl. split; [done|]. intros [Hlt | Hne]; [done|].
      exfalso. apply Hne. by rewrite Hv.
  - change (length (c :: v :: h :: l :: payload) - HEADER_SIZE)%nat
      with (length payload - 0)%nat.
    rewrite Nat.sub_0_r.
    change (take (HEADER_SIZE + length payload / RTE_SIZE * RTE_SIZE)
              (c :: v :: h :: l :: payload))
      with (c :: v :: h :: l :: take (length payload / RTE_SIZE * RTE_SIZE) payload).
    rewrite !parse_with_header. case_bool_decide; [done|].
    pose proof (Nat.Div0.mul_div_le (length payload) RTE_SIZE) as Hle.
    rewrite length_take_le by lia. rewrite Nat.div_mul by done.
    change (c :: v :: h :: l :: take (length payload / RTE_SIZE * RTE_SIZE) payload)
      with (take (HEADER_SIZE + length payload / RTE_SIZE * RTE_SIZE)
              (c :: v :: h :: l :: payload)).
    rewrite parse_rtes_take; [done|].
    apply Forall_forall. intros i Hi%elem_of_seq. unfold RTE_SIZE in *. lia.
Qed.

End CodecClaims.

Section OnePacket.

Lemma create_rte_is_bytes (d m : Z) (rte : list Z) :
  create_rte d m = Some rte → is_bytes rte.
Proof.
  unfold create_rte. intros H.
  destruct (pack_I d) as [bd|] eqn:Hd; [|done].
  destruct (pack_I m) as [bm|] eqn:Hm; [|done].
  injection H as <-. unfold is_bytes. simpl.
  do 12 (apply Forall_cons; split; [lia|]).
  apply Forall_app. split; by eapply pack_I_is_bytes.
Qed.

Lemma create_header_is_bytes (rid c v : Z) (hdr : list Z) :
  create_header rid c v = Some hdr → is_bytes hdr.
Proof.
  unfold create_header, pack_B, pack_H, is_bytes.
  repeat case_bool_decide; try done. simpl. intros [= <-].
  repeat constructor; try lia; Z.to_euclidean_division_equations; lia.
Qed.

Lemma append_rtes_is_bytes (routes : list (Z * Z)) (packet out : list Z) :
  is_bytes packet → append_rtes packet routes = Some out → is_bytes out.
Proof.
  revert packet. induction routes as [|[d m] routes IH]; intros packet Hp.
  { by intros [= <-]. }
  cbn [append_rtes]. destruct (create_rte d m) as [rte|] eqn:Hrte; [|done].
  simpl. apply IH. apply Forall_app. split; [done|]. by eapply create_rte_is_bytes.
Qed.

Lemma append_rtes_records (routes : list (Z * Z)) (body : list Z) :
  append_rtes [] routes = Some body →
  length body = (length routes * RTE_SIZE)%nat
  ∧ ∀ (i : nat) d m, routes !! i = Some (d, m) →
      create_rte d m = Some (slice body (i * RTE_SIZE) (i * RTE_SIZE + RTE_SIZE)).
Proof.
  revert body. induction routes as [|[d0 m0] routes IH]; intros body.
  { intros [= <-]. split; [done|]. intros i d m Hi. done. }
  cbn [append_rtes]. destruct (create_rte d0 m0) as [rte|] eqn:Hrte; [|done].
  simpl. rewrite append_rtes_prefix.
  destruct (append_rtes [] routes) as [body'|] eqn:Hbody'; [|done].
  simpl. intros [= <-].
  destruct (IH body' eq_refl) as [Hlen Hrec].
  destruct (create_rte_inv _ _ _ Hrte) as [Hrlen _].
  split.
  { rewrite length_app, Hrlen, Hlen. simpl. lia. }
  intros [|i] d m Hi.
  - injection Hi as -> ->. rewrite Hrte. f_equal.
    rewrite <- Hrlen. symmetry. apply slice_first.
  - simpl in Hi. rewrite (Hrec i d m Hi). f_equal.
    replace (S i * RTE_SIZE)%nat with (length rte + i * RTE_SIZE)%nat by (rewrite Hrlen; lia).
    rewrite <- Nat.add_assoc. by rewrite slice_after_prefix.
Qed.

(** C7, as stated, fails: 103 entries make a packet of 2064 bytes, more
    than the 2048 bytes the receiving side reads from a datagram, and
    [create_response] still returns them as one packet; read back through
    [recvfrom(2048)], the last entry is lost. *)
Lemma create_response_oversize_not_split :
  ∃ packet, create_response 1 (replicate 103 (3, 5)) = Some packet
            ∧ (AiRouter.RECV_BUFSIZE < length packet)%nat
            ∧ parse (take AiRouter.RECV_BUFSIZE packet)
              = Some (Packet COMMAND_RESPONSE VERSION 1 (replicate 102 (3, 5))).
Proof.
  eexists. split; [vm_compute; reflexivity|].
  split; [vm_compute; lia | vm_compute; reflexivity].
Qed.

(** C7, amended.  [create_response] never splits: whatever the number of
    entries, a successful call returns one buffer of bytes,
    [4 + 20 * len(routes)] long, that starts with the one header and
    carries the record of the i-th entry at offset [4 + 20 * i]; so every
    entry appears exactly once, in order, in that single buffer. *)
Theorem create_response_one_packet (sender_id : Z) (routes : list (Z * Z)) (packet : list Z) :
  create_response sender_id routes = Some packet →
  is_bytes packet
  ∧ length packet = (HEADER_SIZE + length routes * RTE_SIZE)%nat
  ∧ create_header sender_id COMMAND_RESPONSE VERSION = Some (take HEADER_SIZE packet)
  ∧ ∀ (i : nat) d m, routes !! i = Some (d, m) →
      create_rte d m
      = Some (slice packet (HEADER_SIZE + i * RTE_SIZE) (HEADER_SIZE + i * RTE_SIZE + RTE_SIZE)).
Proof.
  unfold create_response. intros Hresp.
  destruct (create_header sender_id COMMAND_RESPONSE VERSION) as [hdr|] eqn:Hhdr; [|done].
  simpl in Hresp. split.
  { eapply append_rtes_is_bytes; [|exact Hresp]. by eapply create_header_is_bytes. }
  rewrite append_rtes_prefix in Hresp.
  destruct (append_rtes [] routes) as [body|] eqn:Hbody; [|done].
  simpl in Hresp. injection Hresp as <-.
  destruct (create_header_inv _ _ _ _ Hhdr) as [Hhlen _].
  destruct (append_rtes_records _ _ Hbody) as [Hlen Hrec].
  split; [|split].
  - by rewrite length_app, Hhlen, Hlen.
  - by rewrite <- Hhlen, take_app_length.
  - intros i d m Hi. rewrite (Hrec i d m Hi). f_equal.
    rewrite <- Hhlen, <- Nat.add_assoc. by rewrite slice_after_prefix.
Qed.

Lemma create_response_one_packet_witness :
  let packet := [2; 2; 0; 7; 0;0;0;0; 0;0;0;0; 0;0;0;0; 0;0;0;3; 0;0;0;5] in
  is_bytes packet
  ∧ length packet = (HEADER_SIZE + length [(3, 5)] * RTE_SIZE)%nat
  ∧ create_header 7 COMMAND_RESPONSE VERSION = Some (take HEADER_SIZE packet)
  ∧ ∀ (i : nat) d m, [(3, 5)] !! i = Some (d, m) →
      create_rte d m
      = Some (slice packet (HEADER_SIZE + i * RTE_SIZE) (HEADER_SIZE + i * RTE_SIZE + RTE_SIZE)).
Proof.
  apply (create_response_one_packet 7 [(3, 5)]). reflexivity.
Defined.

End OnePacket.

Section Command.

(** C10.  [parse] does not look at the command byte: a buffer with a header
    and version 2 is parsed whatever its first byte, the command comes back
    as it was received and the routes are those the same buffer yields with
    command RESPONSE.  Only the event loop tests the command: a datagram
    whose command is not RESPONSE leaves the router as it is, a RESPONSE is
    handed to [process_update]. *)
Theorem parse_keeps_any_command (command h l : Z) (payload : list Z) :
  ∃ routes,
    parse (command :: VERSION :: h :: l :: payload)
    = Some (Packet command VERSION (int_of_2 h l) routes)
    ∧ parse (COMMAND_RESPONSE :: VERSION :: h :: l :: payload)
      = Some (Packet COMMAND_RESPONSE VERSION (int_of_2 h l) routes)
    ∧ ∀ self now,
        AiRouter.handle_datagram self (command :: VERSION :: h :: l :: payload) now
        = if bool_decide (command = COMMAND_RESPONSE)
          then AiRouter.process_update self (int_of_2 h l) routes now
          else (false, self).
Proof.
  destruct (parse_rtes_is_Some (command :: VERSION :: h :: l :: payload)
              (seq 0 (length payload / RTE_SIZE)) []) as [routes Hroutes].
  { apply (range_in_buffer [command; VERSION; h; l]). done. }
  assert (parse (command :: VERSION :: h :: l :: payload)
          = Some (Packet command VERSION (int_of_2 h l) routes)) as Hparse.
  { rewrite parse_with_header, bool_decide_eq_false_2 by (intros H; by apply H).
    by rewrite Hroutes. }
  exists routes. split; [done|]. split.
  - rewrite parse_with_header, bool_decide_eq_false_2 by (intros H; by apply H).
    rewrite (parse_rtes_header [COMMAND_RESPONSE; VERSION; h; l]
               [command; VERSION; h; l] payload) by done.
    simpl in Hroutes |- *. by rewrite Hroutes.
  - intros self now. unfold AiRouter.handle_datagram. by rewrite Hparse.
Qed.

End Command.

(** ** The router of ai_router.py *)

Section AiRouterFacts.
Import AiRouter.

Lemma process_route_slot (self_id sender base now : Z) (tbl : gmap Z route) (tm : bool)
    (d m : Z) :
  process_route self_id sender base now (tbl, tm) (d, m)
  = if bool_decide (d = self_id) then (tbl, tm)
    else match update_slot sender base now (tbl !! d) m with
         | Some (r, changed) => (<[d := r]> tbl, tm || changed)
         | None => (tbl, tm)
         end.
Proof.
  unfold process_route, update_slot. case_bool_decide; [done|].
  destruct (tbl !! d) as [[nh cm ts g]|]; repeat case_bool_decide; simpl;
    rewrite ?orb_true_r, ?orb_false_r; done.
Qed.

Lemma find_neighbor_Some (outs : list (Z * Z * Z)) (sender : Z) (out : Z * Z * Z) :
  find_neighbor outs sender = Some out → out ∈ outs ∧ out.2 = sender.
Proof.
  unfold find_neighbor. intros [Hin Hid]%find_some.
  destruct out as [[p m] n]. apply bool_decide_eq_true_1 in Hid.
  split; [by apply list_elem_of_In | done].
Qed.

Lemma find_neighbor_None (outs : list (Z * Z * Z)) (sender : Z) :
  (∀ out, out ∈ outs → out.2 ≠ sender) → find_neighbor outs sender = None.
Proof.
  intros Hno. unfold find_neighbor.
  destruct (List.find _ outs) as [out|] eqn:Hfind; [|done].
  apply (find_neighbor_Some outs sender) in Hfind as [Hin Hid].
  by destruct (Hno out Hin).
Qed.

(** Every step of either loop keeps a property of the stored routes that
    the routes it writes have. *)
Lemma process_route_Forall (P : route → Prop) (self_id sender base now : Z)
    (st : gmap Z route * bool) (adv : Z * Z) :
  (∀ cur r changed,
     (∀ c, cur = Some c → P c) →
     update_slot sender base now cur adv.2 = Some (r, changed) → P r) →
  map_Forall (λ _, P) st.1 →
  map_Forall (λ _, P) (process_route self_id sender base now st adv).1.
Proof.
  destruct st as [tbl tm], adv as [d m]. intros Hslot Htbl.
  rewrite process_route_slot. simpl in Hslot, Htbl. case_bool_decide; [done|].
  destruct (update_slot _ _ _ _ _) as [[r changed]|] eqn:Hupd; [|done].
  simpl. apply map_Forall_insert_2; [|done].
  apply (Hslot (tbl !! d) r changed); [|done].
  intros c Hc. by apply (Htbl d).
Qed.

Lemma update_slot_le (sender base now m : Z) (cur : option route) (r : route) (changed : bool) :
  (∀ c, cur = Some c → metric c <= INFINITY) →
  update_slot sender base now cur m = Some (r, changed) → metric r <= INFINITY.
Proof.
  unfold update_slot, INFINITY. intros Hcur.
  destruct cur as [[nh cm ts g]|].
  - specialize (Hcur _ eq_refl). simpl in Hcur.
    repeat case_bool_decide; simpl; intros [= <- <-]; simpl; lia.
  - case_bool_decide; [|done]. intros [= <- <-]. simpl. lia.
Qed.

Lemma update_slot_bounded (sender base now m : Z) (cur : option route) (r : route)
    (changed : bool) :
  0 <= base → 0 <= m →
  (∀ c, cur = Some c → 0 <= metric c <= INFINITY) →
  update_slot sender base now cur m = Some (r, changed) → 0 <= metric r <= INFINITY.
Proof.
  unfold update_slot, INFINITY. intros Hb Hm Hcur.
  destruct cur as [[nh cm ts g]|].
  - specialize (Hcur _ eq_refl). simpl in Hcur.
    repeat case_bool_decide; simpl; intros [= <- <-]; simpl; lia.
  - case_bool_decide; [|done]. intros [= <- <-]. simpl. lia.
Qed.

Lemma process_update_outputs (self : router) (sender : Z) (advertised : list (Z * Z)) (now : Z) :
  outputs (process_update self sender advertised now).2 = outputs self
  ∧ router_id (process_update self sender advertised now).2 = router_id self.
Proof.
  unfold process_update. destruct (find_neighbor _ _) as [[[p b] n]|]; [|done].
  by destruct (foldl _ _ _).
Qed.

Lemma process_update_Forall (P : route → Prop) (self : router) (sender : Z)
    (advertised : list (Z * Z)) (now : Z) :
  (∀ out cur r changed,
     out ∈ outputs self →
     (∀ c, cur = Some c → P c) →
     Forall (λ adv, update_slot sender out.1.2 now cur adv.2 = Some (r, changed) → P r)
            advertised) →
  map_Forall (λ _, P) (routes self) →
  map_Forall (λ _, P) (routes (process_update self sender advertised now).2).
Proof.
  intros Hslot Htbl. unfold process_update.
  destruct (find_neighbor _ _) as [[[p base] n]|] eqn:Hfind; [|done].
  apply find_neighbor_Some in Hfind as [Hin _].
  assert (∀ st, map_Forall (λ _, P) st.1 →
            map_Forall (λ _, P)
              (foldl (process_route (router_id self) sender base now) st advertised).1) as Hfold.
  { assert (∀ cur r changed, (∀ c, cur = Some c → P c) →
              Forall (λ adv, update_slot sender base now cur adv.2 = Some (r, changed) → P r)
                     advertised) as Hall.
    { intros cur r changed Hcur. apply (Hslot _ cur r changed Hin Hcur). }
    clear Hslot. induction advertised as [|adv advertised IH]; intros st Hst; [done|].
    simpl. apply IH.
    - intros cur r changed Hcur.
      specialize (Hall cur r changed Hcur). by apply Forall_cons in Hall as [_ ?].
    - apply process_route_Forall; [|done].
      intros cur r changed Hcur.
      specialize (Hall cur r changed Hcur). by apply Forall_cons in Hall as [? _]. }
  specialize (Hfold (routes self, false) Htbl).
  by destruct (foldl _ _ _).
Qed.

End AiRouterFacts.

Section AiRouterSweep.
Import AiRouter.

Lemma check_route_lookup (self : router) (now : Z) (tbl : gmap Z route) (tm : bool) (k d : Z) :
  (check_route self now (tbl, tm) k).1 !! d
  = if decide (d = k ∧ k ≠ router_id self) then tbl !! d ≫= expire self now else tbl !! d.
Proof.
  unfold check_route. case_bool_decide as Hself.
  { rewrite decide_False by (by intros [_ ?]). done. }
  destruct (decide (d = k)) as [->|Hne].
  - rewrite decide_True by done.
    destruct (tbl !! k) as [[nh m ts g]|] eqn:Hk; [|done].
    unfold expire. simpl. destruct g; destruct (elapsed_gt _ _ _); simpl;
      by rewrite ?lookup_delete_eq, ?lookup_insert_eq, ?Hk.
  - rewrite decide_False by (by intros [? _]).
    destruct (tbl !! k) as [[nh m ts g]|]; [|done].
    destruct g; destruct (elapsed_gt _ _ _); simpl;
      by rewrite ?lookup_delete_ne, ?lookup_insert_ne.
Qed.

Lemma check_keys_lookup (self : router) (now : Z) (keys : list Z) (tbl : gmap Z route)
    (tm : bool) (d : Z) :
  NoDup keys →
  (foldl (check_route self now) (tbl, tm) keys).1 !! d
  = if decide (d ∈ keys ∧ d ≠ router_id self) then tbl !! d ≫= expire self now else tbl !! d.
Proof.
  revert tbl tm. induction keys as [|k keys IH]; intros tbl tm Hnd.
  { rewrite decide_False; [done|]. intros [[]%not_elem_of_nil _]. }
  apply NoDup_cons in Hnd as [Hk Hnd]. cbn [foldl].
  destruct (check_route self now (tbl, tm) k) as [tbl1 tm1] eqn:Hstep.
  rewrite IH by done.
  assert (tbl1 !! d = if decide (d = k ∧ k ≠ router_id self)
                      then tbl !! d ≫= expire self now else tbl !! d) as Hd.
  { by rewrite <- (check_route_lookup self now tbl tm k d), Hstep. }
  destruct (decide (d = k)) as [->|Hne].
  - rewrite (decide_False (P := k ∈ keys ∧ _)) by naive_solver.
    rewrite Hd. repeat case_decide; try done; set_solver.
  - rewrite decide_False in Hd by naive_solver. rewrite Hd.
    repeat case_decide; try done; set_solver.
Qed.

(** A sweep, seen from one destination. *)
Lemma check_timeouts_lookup (self : router) (now d : Z) :
  routes (check_timeouts self now).2 !! d
  = if decide (d = router_id self) then routes self !! d
    else routes self !! d ≫= expire self now.
Proof.
  unfold check_timeouts.
  pose proof (check_keys_lookup self now (map_to_list (routes self)).*1 (routes self) false d
                (NoDup_fst_map_to_list _)) as Hd.
  destruct (foldl _ _ _) as [tbl tm]. simpl in *. rewrite Hd.
  destruct (decide (d = router_id self)) as [->|Hne].
  { rewrite decide_False by naive_solver. done. }
  case_decide as Hin; [done|].
  destruct (routes self !! d) as [r|] eqn:Hr; [|done].
  destruct Hin. split; [|done].
  apply list_elem_of_fmap. exists (d, r). split; [done|]. by apply elem_of_map_to_list.
Qed.

Lemma check_timeouts_fields (self : router) (now : Z) :
  outputs (check_timeouts self now).2 = outputs self
  ∧ router_id (check_timeouts self now).2 = router_id self
  ∧ route_timeout (check_timeouts self now).2 = route_timeout self
  ∧ garbage_collection_timeout (check_timeouts self now).2 = garbage_collection_timeout self.
Proof. unfold check_timeouts. by destruct (foldl _ _ _). Qed.

Lemma check_timeouts_Forall (P : route → Prop) (self : router) (now : Z) :
  (∀ nh, P (Route nh INFINITY (At now) true)) →
  map_Forall (λ _, P) (routes self) →
  map_Forall (λ _, P) (routes (check_timeouts self now).2).
Proof.
  intros Hinf Htbl d r. rewrite check_timeouts_lookup.
  case_decide; [apply Htbl|].
  destruct (routes self !! d) as [r0|] eqn:Hr0; [|done].
  simpl. unfold expire. specialize (Htbl d r0 Hr0). simpl in Htbl.
  destruct (garbage r0); destruct (elapsed_gt _ _ _); intros [= <-]; done.
Qed.

Lemma init_Forall (P : route → Prop) (id : Z) (outs : list (Z * Z * Z)) (rt gt now : Z) :
  (∀ ts, P (Route id 0 ts false)) →
  Forall (λ out, P (Route out.2 out.1.2 (At now) false)) outs →
  map_Forall (λ _, P) (routes (init id outs rt gt now)).
Proof.
  intros Hself Houts. unfold init. cbn [routes].
  apply map_Forall_insert_2; [apply Hself|].
  assert (∀ tbl : gmap Z route, map_Forall (λ _, P) tbl →
            map_Forall (λ _, P)
              (foldl (λ tbl '(_, m, neighbor_id),
                        <[neighbor_id := Route neighbor_id m (At now) false]> tbl) tbl outs))
    as Hfold; [|apply Hfold, map_Forall_empty].
  induction outs as [|[[p m] n] outs IH]; intros tbl Htbl; [done|].
  apply Forall_cons in Houts as [Hout Houts]. simpl.
  apply IH; [done|]. by apply map_Forall_insert_2.
Qed.

End AiRouterSweep.

Section AiRouterMetrics.
Import AiRouter.

Lemma step_outputs (self : router) (ev : event) : outputs (step self ev) = outputs self.
Proof.
  destruct ev as [sender advertised now|now]; simpl.
  - apply process_update_outputs.
  - apply check_timeouts_fields.
Qed.

Lemma run_outputs (self : router) (evs : list event) : outputs (run self evs) = outputs self.
Proof.
  revert self. induction evs as [|ev evs IH]; intros self; [done|].
  unfold run in *. simpl. by rewrite IH, step_outputs.
Qed.

Lemma step_le (self : router) (ev : event) :
  map_Forall (λ _ r, metric r <= INFINITY) (routes self) →
  map_Forall (λ _ r, metric r <= INFINITY) (routes (step self ev)).
Proof.
  intros Htbl. destruct ev as [sender advertised now|now]; simpl.
  - apply (process_update_Forall (λ r, metric r <= INFINITY)); [|done].
    intros out cur r changed _ Hcur. apply Forall_forall. intros adv _ Hupd.
    by eapply update_slot_le.
  - by apply (check_timeouts_Forall (λ r, metric r <= INFINITY)).
Qed.

Lemma step_bounded (self : router) (ev : event) :
  link_costs_ok (outputs self) → unsigned_metrics ev →
  map_Forall (λ _ r, 0 <= metric r <= INFINITY) (routes self) →
  map_Forall (λ _ r, 0 <= metric r <= INFINITY) (routes (step self ev)).
Proof.
  intros Hcost Hev Htbl. destruct ev as [sender advertised now|now]; simpl.
  - apply (process_update_Forall (λ r, 0 <= metric r <= INFINITY)); [|done].
    intros out cur r changed Hout Hcur. simpl in Hev.
    eapply Forall_impl; [exact Hev|]. intros adv Hadv Hupd. simpl in Hadv.
    unfold link_costs_ok in Hcost. rewrite Forall_forall in Hcost.
    eapply update_slot_bounded; [| |exact Hcur|exact Hupd]; [|done].
    apply (Hcost out Hout).
  - apply (check_timeouts_Forall (λ r, 0 <= metric r <= INFINITY)); [|done].
    intros nh. simpl. unfold INFINITY. lia.
Qed.

Lemma valid_outputs_link_costs (outs : list (Z * Z * Z)) :
  valid_outputs outs → link_costs_ok outs.
Proof.
  unfold valid_outputs, link_costs_ok. intros Hvalid.
  eapply Forall_impl; [exact Hvalid|].
  intros [[p m] n] [Hm _]. simpl. unfold INFINITY. lia.
Qed.

(** Whatever [process_update] writes for an advertisement is the sender's
    route at the candidate metric. *)
Lemma update_slot_candidate (sender base now m : Z) (cur : option route) (r : route)
    (changed : bool) :
  update_slot sender base now cur m = Some (r, changed) →
  next_hop_id r = sender ∧ metric r = Z.min (base + m) INFINITY.
Proof.
  unfold update_slot, INFINITY.
  destruct cur as [[nh cm ts g]|]; repeat case_bool_decide; simpl;
    intros [= <- <-]; simpl; split; try done; lia.
Qed.

Lemma process_route_candidate (self_id sender base now : Z) (tbl : gmap Z route)
    (tm : bool) (d m : Z) :
  (process_route self_id sender base now (tbl, tm) (d, m)).1 = tbl
  ∨ ∃ r, (process_route self_id sender base now (tbl, tm) (d, m)).1 = <[d := r]> tbl
         ∧ next_hop_id r = sender ∧ metric r = Z.min (base + m) INFINITY.
Proof.
  rewrite process_route_slot. case_bool_decide; [by left|].
  destruct (update_slot _ _ _ _ _) as [[r changed]|] eqn:Hupd; [|by left].
  right. exists r. split; [done|]. by eapply update_slot_candidate.
Qed.

(** The table [ai_router.py] starts from and every table it reaches by
    updates and sweeps holds metrics of at most INFINITY, whatever is
    advertised; and none below 0 when the advertised metrics are unsigned. *)
Lemma ai_metrics_in_range (id : Z) (outs : list (Z * Z * Z)) (rt gt t0 : Z)
    (evs : list event) (d : Z) (r : route) :
  link_costs_ok outs →
  routes (run (init id outs rt gt t0) evs) !! d = Some r →
  metric r <= INFINITY ∧ (Forall unsigned_metrics evs → 0 <= metric r).
Proof.
  intros Hcost Hr.
  assert (map_Forall (λ _ r, 0 <= metric r <= INFINITY) (routes (init id outs rt gt t0)))
    as Hinit.
  { apply (init_Forall (λ r, 0 <= metric r <= INFINITY)).
    - intros ts. simpl. unfold INFINITY. lia.
    - eapply Forall_impl; [exact Hcost|]. by intros [[p m] n]. }
  assert (outputs (init id outs rt gt t0) = outs) as Houts by done.
  revert Hr Hinit Houts. generalize (init id outs rt gt t0). clear id rt gt t0.
  intros self Hr Hinit Houts. split.
  - assert (map_Forall (λ _ r, metric r <= INFINITY) (routes self)) as Hle.
    { intros k c Hc. by apply (Hinit k c Hc). }
    clear Hinit Houts. revert self Hr Hle.
    induction evs as [|ev evs IH]; intros self Hr Hle; [by apply (Hle d r)|].
    apply (IH (step self ev)); [done|]. by apply step_le.
  - intros Hevs. revert self Hr Hinit Houts.
    induction Hevs as [|ev evs Hev Hevs IH]; intros self Hr Hinit Houts.
    { by apply (Hinit d r). }
    apply (IH (step self ev)); [done| |by rewrite step_outputs].
    apply step_bounded; [by rewrite Houts|done|done].
Qed.

End AiRouterMetrics.

(** ** The router of 1Server.py *)

Section ServerFacts.
Import Server.

Lemma resolve_entry_slot (self : router) (src_id now : Z) (tbl : gmap Z Entry.t)
    (trig : bool) (e : Entry.t) :
  resolve_entry self src_id now (tbl, trig) e
  = if bool_decide (Entry.dst_id e ≠ id self) then
      match resolve_slot self src_id now (tbl !! Entry.dst_id e)
              (Entry.set_metric e (add_link_cost (outputs self) src_id (Entry.metric e))) with
      | Some (new, t) => (<[Entry.dst_id e := new]> tbl, trig || t)
      | None => (tbl, trig)
      end
    else (tbl, trig).
Proof.
  unfold resolve_entry, resolve_slot. case_bool_decide; [|done].
  cbn [Entry.dst_id Entry.set_metric].
  destruct (tbl !! Entry.dst_id e) as [cur|].
  - destruct (Entry.garbage_flag cur && _); [by rewrite orb_false_r|].
    case_bool_decide.
    { repeat case_bool_decide; by rewrite ?orb_false_r. }
    destruct (_ || _); [|done].
    cbn [Entry.metric mark_changed Entry.init_timeout Entry.set_changed_flag].
    case_bool_decide; by rewrite ?orb_false_r, ?orb_true_r.
  - case_bool_decide; by rewrite ?orb_false_r.
Qed.

Lemma add_link_cost_bounded (outs : list OutputInterface) (src_id m : Z) :
  link_costs_ok outs → 0 <= m <= INFINITY →
  0 <= add_link_cost outs src_id m <= INFINITY.
Proof.
  unfold add_link_cost, link_costs_ok. intros Houts. revert m.
  induction Houts as [|output outs Hc _ IH]; intros m Hm; [done|].
  simpl. apply IH. case_bool_decide; [|done]. unfold INFINITY in *. lia.
Qed.

Lemma resolve_slot_metric (self : router) (src_id now : Z) (cur : option Entry.t)
    (entry new : Entry.t) (t : bool) :
  resolve_slot self src_id now cur entry = Some (new, t) →
  Entry.metric new = Entry.metric entry
  ∨ ∃ c, cur = Some c ∧ Entry.metric new = Entry.metric c.
Proof.
  unfold resolve_slot. destruct cur as [c|].
  - destruct (Entry.garbage_flag c && _); [intros [= <- <-]; by left|].
    case_bool_decide.
    { repeat case_bool_decide; intros [= <- <-]; eauto. }
    destruct (_ || _); [|done].
    case_bool_decide; intros [= <- <-]; by left.
  - case_bool_decide; [|done]. intros [= <- <-]. by left.
Qed.

Lemma resolve_update_Forall (P : Entry.t → Prop) (self : router) (src_id : Z)
    (table_entries : list Entry.t) (now : Z) :
  Forall (λ e, ∀ cur new t,
            (∀ c, cur = Some c → P c) →
            resolve_slot self src_id now cur
              (Entry.set_metric e (add_link_cost (outputs self) src_id (Entry.metric e)))
            = Some (new, t) → P new) table_entries →
  map_Forall (λ _, P) (routing_table self) →
  map_Forall (λ _, P) (routing_table (resolve_update self src_id table_entries now)).
Proof.
  intros Hes Htbl. unfold resolve_update.
  assert (∀ st, map_Forall (λ _, P) st.1 →
            map_Forall (λ _, P) (foldl (resolve_entry self src_id now) st table_entries).1)
    as Hfold.
  { induction Hes as [|e es He _ IH]; intros [tbl trig] Hst; [done|].
    cbn [foldl]. apply IH. rewrite resolve_entry_slot. simpl in Hst.
    case_bool_decide; [|done].
    destruct (resolve_slot _ _ _ _ _) as [[new t]|] eqn:Hslot; [|done].
    simpl. apply map_Forall_insert_2; [|done].
    apply (He (tbl !! Entry.dst_id e) new t); [|done].
    intros c Hc. by apply (Hst _ _ Hc). }
  specialize (Hfold (routing_table self, triggered_update_call self) Htbl).
  by destruct (foldl _ _ _).
Qed.

Lemma resolve_update_fields (self : router) (src_id : Z) (es : list Entry.t) (now : Z) :
  outputs (resolve_update self src_id es now) = outputs self
  ∧ id (resolve_update self src_id es now) = id self
  ∧ timer_value (resolve_update self src_id es now) = timer_value self.
Proof. unfold resolve_update. by destruct (foldl _ _ _). Qed.

Lemma check_timeout_fields (self : router) (now : Z) :
  outputs (check_timeout self now) = outputs self
  ∧ id (check_timeout self now) = id self
  ∧ timer_value (check_timeout self now) = timer_value self.
Proof. unfold check_timeout. by destruct (foldl _ _ _). Qed.

Lemma check_timeout_Forall (P : Entry.t → Prop) (self : router) (now : Z) :
  (∀ c, P c → P (condemn self now c)) →
  map_Forall (λ _, P) (routing_table self) →
  map_Forall (λ _, P) (routing_table (check_timeout self now)).
Proof.
  intros Hcond Htbl. unfold check_timeout.
  assert (∀ es st, map_Forall (λ _, P) st.1 →
            map_Forall (λ _, P) (foldl (check_timeout_entry self now) st es).1) as Hfold.
  { induction es as [|e es IH]; intros [tbl trig] Hst; [done|].
    cbn [foldl]. apply IH. unfold check_timeout_entry. simpl in Hst.
    destruct (tbl !! Entry.dst_id e) as [cur|] eqn:Hcur; [|done].
    specialize (Hcond cur (Hst _ _ Hcur)). unfold condemn in Hcond.
    repeat case_bool_decide; try done.
    simpl. by apply map_Forall_insert_2. }
  specialize (Hfold (map_to_list (routing_table self)).*2
                (routing_table self, triggered_update_call self) Htbl).
  by destruct (foldl _ _ _).
Qed.

Lemma check_garbage_Forall (P : Entry.t → Prop) (self : router) (now : Z) :
  map_Forall (λ _, P) (routing_table self) →
  map_Forall (λ _, P) (routing_table (check_garbage self now)).
Proof.
  intros Htbl. unfold check_garbage. cbn [routing_table set_table].
  generalize (remove_list self now). intros ids. revert Htbl.
  generalize (routing_table self).
  induction ids as [|k ids IH]; intros tbl Htbl; [done|].
  simpl. apply IH. by apply map_Forall_delete.
Qed.

Lemma clear_flags_Forall (P : Entry.t → Prop) (tbl : gmap Z Entry.t) :
  (∀ c, P c → P (Entry.set_changed_flag c false)) →
  map_Forall (λ _, P) tbl →
  map_Forall (λ _, P)
    ((λ e, if Entry.changed_flag e then Entry.set_changed_flag e false else e) <$> tbl).
Proof.
  intros Hclr Htbl k e. rewrite lookup_fmap.
  destruct (tbl !! k) as [c|] eqn:Hc; [|done].
  simpl. intros [= <-]. specialize (Htbl k c Hc). simpl in Htbl.
  destruct (Entry.changed_flag c); [by apply Hclr | done].
Qed.

End ServerFacts.

Section ServerMetrics.
Import Server.

Lemma server_step_outputs (self : router) (ev : event) : outputs (step self ev) = outputs self.
Proof.
  destruct ev; simpl; try done.
  - apply resolve_update_fields.
  - apply check_timeout_fields.
Qed.

Lemma server_step_bounded (self : router) (ev : event) :
  link_costs_ok (outputs self) → decoded_metrics ev →
  map_Forall (λ _ e, 0 <= Entry.metric e <= INFINITY) (routing_table self) →
  map_Forall (λ _ e, 0 <= Entry.metric e <= INFINITY) (routing_table (step self ev)).
Proof.
  intros Hcost Hev Htbl. destruct ev as [src_id es now|now|now| |]; simpl.
  - apply (resolve_update_Forall (λ e, 0 <= Entry.metric e <= INFINITY)); [|done].
    simpl in Hev. eapply Forall_impl; [exact Hev|].
    intros e He cur new t Hcur Hslot.
    apply resolve_slot_metric in Hslot as [-> | (c & -> & ->)].
    + simpl. by apply add_link_cost_bounded.
    + by apply Hcur.
  - apply (check_timeout_Forall (λ e, 0 <= Entry.metric e <= INFINITY)); [|done].
    intros c Hc. unfold condemn. destruct (_ && _); [|done].
    simpl. unfold INFINITY. lia.
  - by apply (check_garbage_Forall (λ e, 0 <= Entry.metric e <= INFINITY)).
  - by apply (clear_flags_Forall (λ e, 0 <= Entry.metric e <= INFINITY)).
  - by apply (clear_flags_Forall (λ e, 0 <= Entry.metric e <= INFINITY)).
Qed.

Lemma add_link_cost_no_peer (outs : list OutputInterface) (src_id m : Z) :
  Forall (λ output, peer_id output ≠ src_id) outs → add_link_cost outs src_id m = m.
Proof.
  unfold add_link_cost. induction 1 as [|output outs Hne _ IH]; [done|].
  simpl. by rewrite bool_decide_eq_false_2.
Qed.

(** With the source the peer of exactly one output, the metric looked up by
    [resolve_update] is the advertised one plus the link cost, capped. *)
Lemma add_link_cost_one_peer (before after : list OutputInterface) (output : OutputInterface)
    (m : Z) :
  Forall (λ o, peer_id o ≠ peer_id output) (before ++ after) →
  add_link_cost (before ++ output :: after) (peer_id output) m
  = Z.min (m + link_cost output) INFINITY.
Proof.
  intros [Hb Ha]%Forall_app. unfold add_link_cost. rewrite foldl_app.
  fold (add_link_cost before (peer_id output) m).
  rewrite add_link_cost_no_peer by done. cbn [foldl].
  rewrite bool_decide_eq_true_2 by done.
  by apply add_link_cost_no_peer.
Qed.

(** Every table [1Server.py] reaches from its empty start holds metrics in
    [0, INFINITY], for link costs that are not negative and decoded entries
    whose metric is in range. *)
Lemma server_metrics_in_range (router_id tv : Z) (outs : list OutputInterface)
    (evs : list event) (d : Z) (e : Entry.t) :
  link_costs_ok outs → Forall decoded_metrics evs →
  routing_table (run (init router_id outs tv) evs) !! d = Some e →
  0 <= Entry.metric e <= INFINITY.
Proof.
  intros Hcost Hevs.
  assert (map_Forall (λ _ e, 0 <= Entry.metric e <= INFINITY)
            (routing_table (init router_id outs tv))) as Hinit by apply map_Forall_empty.
  assert (outputs (init router_id outs tv) = outs) as Houts by done.
  revert Hinit Houts. generalize (init router_id outs tv). intros self Hinit Houts.
  revert self Hinit Houts.
  induction Hevs as [|ev evs Hev Hevs IH]; intros self Hinit Houts He.
  { by apply (Hinit d e). }
  apply (IH (step self ev)); [| by rewrite server_step_outputs | done].
  apply server_step_bounded; [by rewrite Houts|done|done].
Qed.

End ServerMetrics.

Section MetricBound.

(** C2.  Count-to-infinity bound.  In [ai_router.py], after any sequence of
    [process_update] calls and sweeps from the initial table, every stored
    metric is at most INFINITY (16) whatever metrics are advertised, and at
    least 0 when the advertised metrics are unsigned, as the wire format
    makes them and [parse] lets them through (in [0, 16] only); each route
    an update writes carries the candidate metric
    [min(link cost + advertised metric, INFINITY)].  In [1Server.py], after
    any sequence of [resolve_update], [check_timeout], [check_garbage] and
    broadcast calls from the empty table, every stored metric lies in
    [0, 16] when the decoded metrics do; the metric an update from the peer
    of one output is resolved with is
    [min(advertised metric + link cost, INFINITY)].  The link costs are
    those of a configuration: not negative and, for the routes
    [ai_router.py] starts with, not above INFINITY. *)
Theorem metric_never_exceeds_infinity :
  (∀ id outs rt gt t0 evs d r,
     AiRouter.link_costs_ok outs →
     AiRouter.routes (AiRouter.run (AiRouter.init id outs rt gt t0) evs) !! d = Some r →
     AiRouter.metric r <= RIPPacket.INFINITY
     ∧ (Forall AiRouter.unsigned_metrics evs → 0 <= AiRouter.metric r))
  ∧ (∀ data command version sender advertised,
       parse data = Some (Packet command version sender advertised) →
       Forall (λ adv, 0 <= adv.2 <= RIPPacket.INFINITY) advertised)
  ∧ (∀ self_id sender base now tbl tm d m,
       (AiRouter.process_route self_id sender base now (tbl, tm) (d, m)).1 = tbl
       ∨ ∃ r, (AiRouter.process_route self_id sender base now (tbl, tm) (d, m)).1
              = <[d := r]> tbl
              ∧ AiRouter.next_hop_id r = sender
              ∧ AiRouter.metric r = Z.min (base + m) RIPPacket.INFINITY)
  ∧ (∀ router_id tv outs evs d e,
       Server.link_costs_ok outs → Forall Server.decoded_metrics evs →
       Server.routing_table (Server.run (Server.init router_id outs tv) evs) !! d = Some e →
       0 <= Server.Entry.metric e <= Server.INFINITY)
  ∧ (∀ before after output m,
       Forall (λ o, Server.peer_id o ≠ Server.peer_id output) (before ++ after) →
       Server.add_link_cost (before ++ output :: after) (Server.peer_id output) m
       = Z.min (m + Server.link_cost output) Server.INFINITY).
Proof.
  split; [|split; [|split; [|split]]].
  - intros. by eapply ai_metrics_in_range.
  - intros. by eapply parse_metrics.
  - intros. apply process_route_candidate.
  - intros. by eapply server_metrics_in_range.
  - intros. by apply add_link_cost_one_peer.
Qed.

Lemma metric_never_exceeds_infinity_witness :
  (let r := AiRouter.Route 2 16 (AiRouter.At 9) true in
   AiRouter.metric r <= RIPPacket.INFINITY
   ∧ (Forall AiRouter.unsigned_metrics
        [AiRouter.Update 2 [(3, 4)] 7; AiRouter.Update 2 [(3, 30)] 9]
      → 0 <= AiRouter.metric r))
  ∧ (let e := Server.Entry.Make 3 2 16 true true 9 9 in
     0 <= Server.Entry.metric e <= Server.INFINITY).
Proof.
  split.
  - apply (proj1 metric_never_exceeds_infinity 1 [(5002, 5, 2)] 180 120 0
             [AiRouter.Update 2 [(3, 4)] 7; AiRouter.Update 2 [(3, 30)] 9] 3).
    + repeat constructor; simpl; unfold INFINITY; lia.
    + vm_compute. reflexivity.
  - apply (proj1 (proj2 (proj2 (proj2 metric_never_exceeds_infinity))) 1 30
             [Server.Output 2 5 5002]
             [Server.Resolve 2 [Server.Entry.new 3 2 4] 7;
              Server.Resolve 2 [Server.Entry.new 3 2 16] 9] 3).
    + repeat constructor. simpl. lia.
    + repeat constructor; simpl; unfold Server.INFINITY; lia.
    + vm_compute. reflexivity.
Defined.

End MetricBound.

(** ** Split horizon with poisoned reverse *)

Section SplitHorizon.

Lemma routes_to_send_poisoned (tbl : gmap Z AiRouter.route) (neighbor_id : Z) :
  Forall2 (λ stored adv,
             adv.1 = stored.1
             ∧ adv.2 = AiRouter.poisoned neighbor_id
                         (AiRouter.next_hop_id stored.2) (AiRouter.metric stored.2))
          (map_to_list tbl) (AiRouter.routes_to_send tbl neighbor_id).
Proof.
  unfold AiRouter.routes_to_send. apply Forall2_fmap_r, Forall_Forall2_diag.
  apply Forall_forall. intros [d [nh m ts g]] _. unfold AiRouter.poisoned. simpl.
  by case_bool_decide.
Qed.

Lemma send_updates_packets (self : AiRouter.router) (sent : list (Z * list Z)) :
  AiRouter.send_updates self = Some sent →
  Forall2 (λ out dgram,
             dgram.1 = out.1.1
             ∧ create_response (AiRouter.router_id self)
                 (AiRouter.routes_to_send (AiRouter.routes self) out.2) = Some dgram.2)
          (AiRouter.outputs self) sent.
Proof.
  unfold AiRouter.send_updates. intros Hsent%mapM_Some_1.
  eapply Forall2_impl; [exact Hsent|].
  intros [[port c] n] [port' packet]. simpl.
  destruct (create_response _ _) as [p|]; [|done]. simpl. by intros [= <- <-].
Qed.

Lemma entries_sh_pr_poisoned (table_entries : list Server.Entry.t)
    (output : Server.OutputInterface) :
  Forall2 (λ stored adv,
             Server.Entry.dst_id adv = Server.Entry.dst_id stored
             ∧ Server.Entry.metric adv = Server.poisoned output stored)
          table_entries (Server.entries_sh_pr table_entries output).
Proof.
  unfold Server.entries_sh_pr. apply Forall2_fmap_r, Forall_Forall2_diag.
  apply Forall_forall. intros e _. unfold Server.poisoned. simpl.
  by case_bool_decide.
Qed.

(** C3.  Poisoned reverse.  The list built for a neighbour holds, entry for
    entry, the destinations of the table, each with metric INFINITY when
    its stored next hop is that neighbour and with its stored metric
    otherwise ([poisoned]): in [ai_router.py] for [send_updates], whose
    datagram for each output is [create_response] of that list; in
    [1Server.py] for [periodic_update], over the own route followed by
    the stored entries, and for [triggered_update], over the changed
    entries, whenever there is one. *)
Theorem poisoned_reverse :
  (∀ (self : AiRouter.router) sent,
     AiRouter.send_updates self = Some sent →
     Forall2 (λ out dgram,
                dgram.1 = out.1.1
                ∧ ∃ advertised,
                    create_response (AiRouter.router_id self) advertised = Some dgram.2
                    ∧ Forall2 (λ stored adv,
                                 adv.1 = stored.1
                                 ∧ adv.2 = AiRouter.poisoned out.2
                                             (AiRouter.next_hop_id stored.2)
                                             (AiRouter.metric stored.2))
                              (map_to_list (AiRouter.routes self)) advertised)
             (AiRouter.outputs self) sent)
  ∧ (∀ self : Server.router,
       Forall2 (λ output dgram,
                  dgram.1 = Server.peer_port_no output
                  ∧ Forall2 (λ stored adv,
                               Server.Entry.dst_id adv = Server.Entry.dst_id stored
                               ∧ Server.Entry.metric adv = Server.poisoned output stored)
                            (Server.Entry.new (Server.id self) (Server.id self) 0
                             :: (map_to_list (Server.routing_table self)).*2)
                            dgram.2)
               (Server.outputs self) (Server.periodic_update self).1)
  ∧ (∀ self : Server.router,
       Server.changed_entries self ≠ [] →
       Forall2 (λ output dgram,
                  dgram.1 = Server.peer_port_no output
                  ∧ Forall2 (λ stored adv,
                               Server.Entry.dst_id adv = Server.Entry.dst_id stored
                               ∧ Server.Entry.metric adv = Server.poisoned output stored)
                            (Server.changed_entries self) dgram.2)
               (Server.outputs self) (Server.triggered_update self).1).
Proof.
  split; [|split].
  - intros self sent Hsent%send_updates_packets.
    eapply Forall2_impl; [exact Hsent|]. intros out dgram [Hport Hpacket].
    split; [done|]. eexists. split; [exact Hpacket|]. apply routes_to_send_poisoned.
  - intros self. unfold Server.periodic_update. cbn [fst].
    apply Forall2_fmap_r, Forall_Forall2_diag, Forall_forall. intros output _.
    split; [done|]. apply entries_sh_pr_poisoned.
  - intros self Hchanged. unfold Server.triggered_update. cbn [fst].
    fold (Server.changed_entries self).
    rewrite bool_decide_eq_true_2.
    2:{ rewrite length_fmap. destruct (Server.changed_entries self); [done|simpl; lia]. }
    apply Forall2_fmap_r, Forall_Forall2_diag, Forall_forall. intros output _.
    split; [done|]. cbn [snd].
    pose proof (entries_sh_pr_poisoned
                  ((λ e, Server.Entry.set_changed_flag e false) <$> Server.changed_entries self)
                  output) as Hsh.
    apply Forall2_fmap_l in Hsh. eapply Forall2_impl; [exact Hsh|].
    intros stored adv. unfold Server.poisoned. simpl. done.
Qed.

Lemma poisoned_reverse_witness :
  (let self := (AiRouter.process_update
                  (AiRouter.init 1 [(5002, 5, 2); (5003, 1, 4)] 180 120 0) 2 [(3, 1)] 7).2 in
   Forall2 (λ out dgram,
              dgram.1 = out.1.1
              ∧ ∃ advertised,
                  create_response (AiRouter.router_id self) advertised = Some dgram.2
                  ∧ Forall2 (λ stored adv,
                               adv.1 = stored.1
                               ∧ adv.2 = AiRouter.poisoned out.2
                                           (AiRouter.next_hop_id stored.2)
                                           (AiRouter.metric stored.2))
                            (map_to_list (AiRouter.routes self)) advertised)
           (AiRouter.outputs self) (default [] (AiRouter.send_updates self)))
  ∧ (let self := Server.resolve_update
                   (Server.init 1 [Server.Output 2 5 5002; Server.Output 4 1 5003] 30)
                   2 [Server.Entry.new 3 2 1] 7 in
     Forall2 (λ output dgram,
                dgram.1 = Server.peer_port_no output
                ∧ Forall2 (λ stored adv,
                             Server.Entry.dst_id adv = Server.Entry.dst_id stored
                             ∧ Server.Entry.metric adv = Server.poisoned output stored)
                          (Server.changed_entries self) dgram.2)
             (Server.outputs self) (Server.triggered_update self).1).
Proof.
  split.
  - apply (proj1 poisoned_reverse
             (AiRouter.process_update
                (AiRouter.init 1 [(5002, 5, 2); (5003, 1, 4)] 180 120 0) 2 [(3, 1)] 7).2).
    vm_compute. reflexivity.
  - apply (proj2 (proj2 poisoned_reverse)
             (Server.resolve_update
                (Server.init 1 [Server.Output 2 5 5002; Server.Output 4 1 5003] 30)
                2 [Server.Entry.new 3 2 1] 7)).
    vm_compute. congruence.
Defined.

End SplitHorizon.

(** ** Timeout, garbage collection and removal *)

Section ServerSweep.
Import Server.

Lemma wf_values_keys (tbl : gmap Z Entry.t) :
  wf_table tbl → Entry.dst_id <$> (map_to_list tbl).*2 = (map_to_list tbl).*1.
Proof.
  intros Hwf. rewrite <- list_fmap_compose. apply Forall_fmap_ext_1, Forall_forall.
  intros [k e] Hke%elem_of_map_to_list. simpl. by apply Hwf.
Qed.

Lemma elem_of_keys (tbl : gmap Z Entry.t) (d : Z) :
  d ∈ (map_to_list tbl).*1 ↔ is_Some (tbl !! d).
Proof.
  rewrite list_elem_of_fmap. split.
  - intros ([k e] & -> & Hke%elem_of_map_to_list). by eexists.
  - intros [e He]. exists (d, e). split; [done|]. by apply elem_of_map_to_list.
Qed.

Lemma check_timeout_entry_lookup (self : router) (now : Z) (tbl : gmap Z Entry.t)
    (trig : bool) (e : Entry.t) (d : Z) :
  (check_timeout_entry self now (tbl, trig) e).1 !! d
  = if decide (d = Entry.dst_id e) then condemn self now <$> tbl !! d else tbl !! d.
Proof.
  unfold check_timeout_entry, condemn.
  destruct (decide (d = Entry.dst_id e)) as [->|Hne].
  - destruct (tbl !! Entry.dst_id e) as [cur|] eqn:Hcur; [|done].
    cbn [fmap option_fmap option_map].
    repeat case_bool_decide; cbn [fst andb];
      rewrite ?lookup_insert_eq, ?Hcur; done.
  - destruct (tbl !! Entry.dst_id e) as [cur|]; [|done].
    repeat case_bool_decide; cbn [fst]; by rewrite ?lookup_insert_ne.
Qed.

Lemma check_timeout_entries_lookup (self : router) (now : Z) (es : list Entry.t)
    (tbl : gmap Z Entry.t) (trig : bool) (d : Z) :
  NoDup (Entry.dst_id <$> es) →
  (foldl (check_timeout_entry self now) (tbl, trig) es).1 !! d
  = if decide (d ∈ Entry.dst_id <$> es) then condemn self now <$> tbl !! d else tbl !! d.
Proof.
  revert tbl trig. induction es as [|e es IH]; intros tbl trig Hnd.
  { rewrite decide_False; [done|]. apply not_elem_of_nil. }
  rewrite fmap_cons in Hnd. apply NoDup_cons in Hnd as [He Hnd]. cbn [foldl].
  destruct (check_timeout_entry self now (tbl, trig) e) as [tbl1 trig1] eqn:Hstep.
  rewrite IH by done.
  assert (tbl1 !! d = if decide (d = Entry.dst_id e)
                      then condemn self now <$> tbl !! d else tbl !! d) as Hd.
  { by rewrite <- (check_timeout_entry_lookup self now tbl trig e d), Hstep. }
  rewrite Hd, fmap_cons. destruct (decide (d = Entry.dst_id e)) as [->|Hne].
  - rewrite (decide_False (P := _ ∈ Entry.dst_id <$> es)) by done.
    rewrite decide_True by apply list_elem_of_here. done.
  - destruct (decide (d ∈ Entry.dst_id <$> es)) as [Hin|Hnin].
    + rewrite decide_True by (by apply list_elem_of_further). done.
    + rewrite decide_False; [done|]. by intros [?|?]%elem_of_cons.
Qed.

(** [check_timeout], seen from one destination. *)
Lemma check_timeout_lookup (self : router) (now d : Z) :
  wf_table (routing_table self) →
  routing_table (check_timeout self now) !! d = condemn self now <$> routing_table self !! d.
Proof.
  intros Hwf. unfold check_timeout.
  pose proof (check_timeout_entries_lookup self now (map_to_list (routing_table self)).*2
                (routing_table self) (triggered_update_call self) d) as Hd.
  rewrite wf_values_keys in Hd by done.
  specialize (Hd (NoDup_fst_map_to_list _)).
  destruct (foldl _ _ _) as [tbl trig]. simpl in *. rewrite Hd.
  case_decide as Hin; [done|].
  destruct (routing_table self !! d) as [e|] eqn:He; [|done].
  destruct Hin. apply elem_of_keys. by eexists.
Qed.

Lemma foldl_delete_lookup (ids : list Z) (tbl : gmap Z Entry.t) (d : Z) :
  foldl (λ tbl remove_id, delete remove_id tbl) tbl ids !! d
  = if decide (d ∈ ids) then None else tbl !! d.
Proof.
  revert tbl. induction ids as [|k ids IH]; intros tbl.
  { rewrite decide_False; [done|]. apply not_elem_of_nil. }
  simpl. rewrite IH. destruct (decide (d ∈ ids)) as [Hin|Hnin].
  - rewrite decide_True by (by apply list_elem_of_further). done.
  - destruct (decide (d = k)) as [->|Hne].
    + rewrite decide_True by apply list_elem_of_here. apply lookup_delete_eq.
    + rewrite decide_False by (by intros [?|?]%elem_of_cons).
      by apply lookup_delete_ne.
Qed.

(** [check_garbage], seen from one destination. *)
Lemma check_garbage_lookup (self : router) (now d : Z) (e : Entry.t) :
  wf_table (routing_table self) →
  routing_table self !! d = Some e →
  routing_table (check_garbage self now) !! d
  = if Entry.garbage_flag e && bool_decide (now >= Entry.garbage_time e + garbage_time self)
    then None else Some e.
Proof.
  intros Hwf He. unfold check_garbage. cbn [routing_table set_table].
  rewrite foldl_delete_lookup.
  assert (d ∈ remove_list self now
          ↔ Entry.garbage_flag e
            && bool_decide (now >= Entry.garbage_time e + garbage_time self) = true) as Hin.
  { unfold remove_list. rewrite list_elem_of_fmap. split.
    - intros (x & -> & [Hexp Hx]%list_elem_of_filter).
      unfold garbage_expired in Hexp. by rewrite He in Hexp.
    - intros Hexp. exists e. split; [symmetry; by apply Hwf|].
      apply list_elem_of_filter. split.
      + unfold garbage_expired. rewrite (Hwf d e He), He. done.
      + apply list_elem_of_fmap. exists (d, e). split; [done|].
        by apply elem_of_map_to_list. }
  destruct (Entry.garbage_flag e && _).
  - rewrite decide_True by (by apply Hin). done.
  - rewrite decide_False; [done|]. intros Hd%Hin. done.
Qed.

End ServerSweep.

Section Sweeps.

(** C6, as stated, fails in [ai_router.py]: a route last refreshed exactly
    [route_timeout] ago is left as it is by the sweep, and a condemned
    route is still there exactly [garbage_collection_timeout] after its
    condemnation. *)
Lemma sweep_on_the_boundary_does_nothing :
  let live := AiRouter.Route 2 5 (AiRouter.At 0) false in
  let condemned := AiRouter.Route 2 16 (AiRouter.At 60) true in
  let self := AiRouter.Router 1 [(5002, 1, 2)] {[3 := live; 4 := condemned]} 180 120 in
  180 - 0 >= AiRouter.route_timeout self
  ∧ 180 - 60 >= AiRouter.garbage_collection_timeout self
  ∧ AiRouter.routes (AiRouter.check_timeouts self 180).2 !! 3 = Some live
  ∧ AiRouter.routes (AiRouter.check_timeouts self 180).2 !! 4 = Some condemned.
Proof. vm_compute. repeat split; congruence. Qed.

Lemma ai_sweep_once (self : AiRouter.router) (now d nh m t : Z) (g : bool) :
  AiRouter.routes self !! d = Some (AiRouter.Route nh m (AiRouter.At t) g) →
  AiRouter.routes (AiRouter.check_timeouts self now).2 !! d
  = if bool_decide (d = AiRouter.router_id self)
    then Some (AiRouter.Route nh m (AiRouter.At t) g)
    else if g then
      if bool_decide (now - t > AiRouter.garbage_collection_timeout self)
      then None else Some (AiRouter.Route nh m (AiRouter.At t) true)
    else
      if bool_decide (now - t > AiRouter.route_timeout self)
      then Some (AiRouter.Route nh RIPPacket.INFINITY (AiRouter.At now) true)
      else Some (AiRouter.Route nh m (AiRouter.At t) false).
Proof.
  intros Hd. rewrite check_timeouts_lookup, Hd.
  case_decide; [by rewrite bool_decide_eq_true_2|].
  rewrite bool_decide_eq_false_2 by done.
  unfold AiRouter.expire. simpl. destruct g; by case_bool_decide.
Qed.

Lemma ai_sweep_twice (self : AiRouter.router) (now now' d nh m t : Z) :
  d ≠ AiRouter.router_id self →
  AiRouter.routes self !! d = Some (AiRouter.Route nh m (AiRouter.At t) false) →
  now - t > AiRouter.route_timeout self →
  AiRouter.routes (AiRouter.check_timeouts (AiRouter.check_timeouts self now).2 now').2 !! d
  = if bool_decide (now' - now > AiRouter.garbage_collection_timeout self)
    then None else Some (AiRouter.Route nh RIPPacket.INFINITY (AiRouter.At now) true).
Proof.
  intros Hself Hd Hold.
  pose proof (ai_sweep_once self now d nh m t false Hd) as Hfirst.
  rewrite bool_decide_eq_false_2, bool_decide_eq_true_2 in Hfirst by done.
  cbv iota in Hfirst.
  rewrite (ai_sweep_once _ now' d _ _ _ _ Hfirst).
  destruct (check_timeouts_fields self now) as (_ & -> & _ & ->).
  by rewrite bool_decide_eq_false_2.
Qed.

Lemma server_sweep_once (self : Server.router) (now d : Z) (e : Server.Entry.t) :
  Server.wf_table (Server.routing_table self) →
  Server.routing_table self !! d = Some e →
  Server.routing_table (Server.check_timeout self now) !! d
  = Some (if bool_decide (Server.Entry.garbage_flag e = false)
             && bool_decide (now >= Server.Entry.timeout e + Server.timeout_time self)
          then Server.Entry.Make (Server.Entry.dst_id e) (Server.Entry.next_hop e)
                 Server.INFINITY true true (Server.Entry.timeout e) now
          else e)
  ∧ Server.routing_table (Server.check_garbage self now) !! d
    = if Server.Entry.garbage_flag e
         && bool_decide (now >= Server.Entry.garbage_time e + Server.garbage_time self)
      then None else Some e.
Proof.
  intros Hwf He. split.
  - rewrite check_timeout_lookup, He by done. done.
  - by apply check_garbage_lookup.
Qed.

Lemma check_timeout_wf (self : Server.router) (now : Z) :
  Server.wf_table (Server.routing_table self) →
  Server.wf_table (Server.routing_table (Server.check_timeout self now)).
Proof.
  intros Hwf k e. rewrite check_timeout_lookup by done.
  destruct (Server.routing_table self !! k) as [c|] eqn:Hc; [|done].
  simpl. intros [= <-]. rewrite <- (Hwf k c Hc). unfold Server.condemn.
  by destruct (_ && _).
Qed.

Lemma server_sweep_twice (self : Server.router) (now now' d : Z) (e : Server.Entry.t) :
  Server.wf_table (Server.routing_table self) →
  Server.routing_table self !! d = Some e →
  Server.Entry.garbage_flag e = false →
  now >= Server.Entry.timeout e + Server.timeout_time self →
  Server.routing_table (Server.check_garbage (Server.check_timeout self now) now') !! d
  = if bool_decide (now' >= now + Server.garbage_time self)
    then None
    else Some (Server.Entry.Make (Server.Entry.dst_id e) (Server.Entry.next_hop e)
                 Server.INFINITY true true (Server.Entry.timeout e) now).
Proof.
  intros Hwf He Hlive Hold.
  destruct (server_sweep_once self now d e Hwf He) as [Hfirst _].
  rewrite !bool_decide_eq_true_2 in Hfirst by done. cbn [andb] in Hfirst.
  destruct (server_sweep_once _ now' d _ (check_timeout_wf self now Hwf) Hfirst)
    as [_ Hsecond].
  rewrite Hsecond. cbn [Server.Entry.garbage_flag Server.Entry.garbage_time andb].
  unfold Server.garbage_time.
  by destruct (check_timeout_fields self now) as (_ & _ & ->).
Qed.

(** C6, amended.  In [ai_router.py] the sweep never touches the router's
    own route; of any other route it condemns a live one (metric INFINITY,
    garbage flag set, timestamp restarted at the time of the sweep) exactly
    when strictly more than [route_timeout] has passed since its last
    refresh, and deletes a condemned one exactly when strictly more than
    [garbage_collection_timeout] has passed since the timestamp set at its
    condemnation; otherwise the route stays as it is.  In [1Server.py]
    [check_timeout] condemns a live entry (metric INFINITY, garbage and
    changed flags set, garbage timer started) exactly when at least
    [timeout_time] has passed since its last refresh, and [check_garbage]
    deletes a condemned entry exactly when at least [garbage_time] has
    passed since the garbage timer was started.  So a route condemned by
    the sweep at time [now] is deleted by the sweep at time [now'] exactly
    when [now' - now] exceeds (for [1Server.py]: reaches) the garbage
    timeout, and is still there, condemned, at any earlier sweep. *)
Theorem timeout_garbage_removal :
  (∀ (self : AiRouter.router) now d nh m t g,
     AiRouter.routes self !! d = Some (AiRouter.Route nh m (AiRouter.At t) g) →
     AiRouter.routes (AiRouter.check_timeouts self now).2 !! d
     = if bool_decide (d = AiRouter.router_id self)
       then Some (AiRouter.Route nh m (AiRouter.At t) g)
       else if g then
         if bool_decide (now - t > AiRouter.garbage_collection_timeout self)
         then None else Some (AiRouter.Route nh m (AiRouter.At t) true)
       else
         if bool_decide (now - t > AiRouter.route_timeout self)
         then Some (AiRouter.Route nh RIPPacket.INFINITY (AiRouter.At now) true)
         else Some (AiRouter.Route nh m (AiRouter.At t) false))
  ∧ (∀ (self : AiRouter.router) now now' d nh m t,
       d ≠ AiRouter.router_id self →
       AiRouter.routes self !! d = Some (AiRouter.Route nh m (AiRouter.At t) false) →
       now - t > AiRouter.route_timeout self →
       AiRouter.routes
         (AiRouter.check_timeouts (AiRouter.check_timeouts self now).2 now').2 !! d
       = if bool_decide (now' - now > AiRouter.garbage_collection_timeout self)
         then None else Some (AiRouter.Route nh RIPPacket.INFINITY (AiRouter.At now) true))
  ∧ (∀ (self : Server.router) now d e,
       Server.wf_table (Server.routing_table self) →
       Server.routing_table self !! d = Some e →
       Server.routing_table (Server.check_timeout self now) !! d
       = Some (if bool_decide (Server.Entry.garbage_flag e = false)
                  && bool_decide (now >= Server.Entry.timeout e + Server.timeout_time self)
               then Server.Entry.Make (Server.Entry.dst_id e) (Server.Entry.next_hop e)
                      Server.INFINITY true true (Server.Entry.timeout e) now
               else e)
       ∧ Server.routing_table (Server.check_garbage self now) !! d
         = if Server.Entry.garbage_flag e
              && bool_decide (now >= Server.Entry.garbage_time e + Server.garbage_time self)
           then None else Some e)
  ∧ (∀ (self : Server.router) now now' d e,
       Server.wf_table (Server.routing_table self) →
       Server.routing_table self !! d = Some e →
       Server.Entry.garbage_flag e = false →
       now >= Server.Entry.timeout e + Server.timeout_time self →
       Server.routing_table (Server.check_garbage (Server.check_timeout self now) now') !! d
       = if bool_decide (now' >= now + Server.garbage_time self)
         then None
         else Some (Server.Entry.Make (Server.Entry.dst_id e) (Server.Entry.next_hop e)
                      Server.INFINITY true true (Server.Entry.timeout e) now)).
Proof.
  split; [|split; [|split]].
  - intros. by apply ai_sweep_once.
  - intros. by eapply ai_sweep_twice.
  - intros. by apply server_sweep_once.
  - intros. by apply server_sweep_twice.
Qed.

Lemma timeout_garbage_removal_witness :
  (let self := AiRouter.Router 1 [(5002, 1, 2)]
                 {[3 := AiRouter.Route 2 5 (AiRouter.At 0) false]} 180 120 in
   AiRouter.routes (AiRouter.check_timeouts (AiRouter.check_timeouts self 181).2 302).2 !! 3
   = if bool_decide (302 - 181 > AiRouter.garbage_collection_timeout self)
     then None
     else Some (AiRouter.Route 2 RIPPacket.INFINITY (AiRouter.At 181) true))
  ∧ (let e := Server.Entry.Make 3 2 5 false false 0 0 in
     let self := Server.Router 1 [Server.Output 2 1 5002] 30 {[3 := e]} false in
     Server.routing_table (Server.check_garbage (Server.check_timeout self 180) 299) !! 3
     = if bool_decide (299 >= 180 + Server.garbage_time self)
       then None
       else Some (Server.Entry.Make (Server.Entry.dst_id e) (Server.Entry.next_hop e)
                    Server.INFINITY true true (Server.Entry.timeout e) 180)).
Proof.
  split.
  - apply (proj1 (proj2 timeout_garbage_removal)
             (AiRouter.Router 1 [(5002, 1, 2)]
                {[3 := AiRouter.Route 2 5 (AiRouter.At 0) false]} 180 120)
             181 302 3 2 5 0).
    + vm_compute. congruence.
    + vm_compute. reflexivity.
    + vm_compute. reflexivity.
  - apply (proj2 (proj2 (proj2 timeout_garbage_removal))
             (Server.Router 1 [Server.Output 2 1 5002] 30
                {[3 := Server.Entry.Make 3 2 5 false false 0 0]} false)
             180 299 3 (Server.Entry.Make 3 2 5 false false 0 0)).
    + apply (bool_decide_unpack _). vm_compute. exact I.
    + vm_compute. reflexivity.
    + reflexivity.
    + vm_compute. congruence.
Defined.

End Sweeps.

(** ** Updates: condemned routes, unknown senders *)

Section Updates.

Lemma process_update_single (self : AiRouter.router) (sender d m now port base n : Z) :
  AiRouter.find_neighbor (AiRouter.outputs self) sender = Some (port, base, n) →
  d ≠ AiRouter.router_id self →
  AiRouter.process_update self sender [(d, m)] now
  = match AiRouter.update_slot sender base now (AiRouter.routes self !! d) m with
    | Some (r, changed) => (changed, AiRouter.set_routes self (<[d := r]> (AiRouter.routes self)))
    | None => (false, AiRouter.set_routes self (AiRouter.routes self))
    end.
Proof.
  intros Hfind Hd. unfold AiRouter.process_update. rewrite Hfind. cbn [foldl].
  rewrite process_route_slot, bool_decide_eq_false_2 by done.
  by destruct (AiRouter.update_slot _ _ _ _ _) as [[r changed]|].
Qed.

(** [ai_router.py]: a condemned route is brought back by an advertisement
    from another neighbour that beats its metric, and the flag is cleared. *)
Lemma ai_resurrects_via_other_neighbor (self : AiRouter.router)
    (sender d m now port base n nh cm : Z) (ts : AiRouter.stamp) :
  AiRouter.find_neighbor (AiRouter.outputs self) sender = Some (port, base, n) →
  d ≠ AiRouter.router_id self →
  AiRouter.routes self !! d = Some (AiRouter.Route nh cm ts true) →
  nh ≠ sender →
  Z.min (base + m) RIPPacket.INFINITY < cm →
  AiRouter.routes (AiRouter.process_update self sender [(d, m)] now).2 !! d
  = Some (AiRouter.Route sender (Z.min (base + m) RIPPacket.INFINITY) (AiRouter.At now) false).
Proof.
  intros Hfind Hd Hcur Hnh Hlt.
  rewrite (process_update_single _ _ _ _ _ _ _ _ Hfind Hd), Hcur.
  unfold AiRouter.update_slot.
  rewrite bool_decide_eq_false_2, bool_decide_eq_true_2 by done.
  simpl. apply lookup_insert_eq.
Qed.

(** [1Server.py]: a condemned entry is replaced by any candidate below
    INFINITY, whoever sent it; the stored entry is the decoded one, marked
    changed and freshly stamped, with the garbage flag it came with (none,
    for a decoded entry). *)
Lemma server_resurrects (self : Server.router) (src_id now : Z) (e cur : Server.Entry.t) :
  Server.Entry.dst_id e ≠ Server.id self →
  Server.routing_table self !! Server.Entry.dst_id e = Some cur →
  Server.Entry.garbage_flag cur = true →
  Server.add_link_cost (Server.outputs self) src_id (Server.Entry.metric e) < Server.INFINITY →
  Server.routing_table (Server.resolve_update self src_id [e] now) !! Server.Entry.dst_id e
  = Some (Server.Entry.Make (Server.Entry.dst_id e) (Server.Entry.next_hop e)
            (Server.add_link_cost (Server.outputs self) src_id (Server.Entry.metric e))
            true (Server.Entry.garbage_flag e) now (Server.Entry.garbage_time e)).
Proof.
  intros Hd Hcur Hg Hlt. unfold Server.resolve_update. cbn [foldl].
  rewrite resolve_entry_slot, bool_decide_eq_true_2, Hcur by done.
  unfold Server.resolve_slot. rewrite Hg. cbn [Server.Entry.metric Server.Entry.set_metric].
  rewrite bool_decide_eq_true_2 by done. simpl. apply lookup_insert_eq.
Qed.

(** C5 fails in [ai_router.py] on a table the router reaches by itself:
    the route to 3 learned from neighbour 2 times out and is condemned;
    when neighbour 2 then advertises it again, it is stored with the valid
    metric 2 and its garbage flag is still set. *)
Theorem same_neighbor_update_keeps_garbage_flag :
  let start := AiRouter.init 1 [(5002, 1, 2)] 180 120 0 in
  let self := AiRouter.run start [AiRouter.Update 2 [(3, 1)] 5; AiRouter.Sweep 200] in
  AiRouter.routes self !! 3 = Some (AiRouter.Route 2 16 (AiRouter.At 200) true)
  ∧ AiRouter.process_update self 2 [(3, 1)] 210
    = (true,
       AiRouter.set_routes self
         (<[3 := AiRouter.Route 2 2 (AiRouter.At 210) true]> (AiRouter.routes self))).
Proof. split; vm_compute; reflexivity. Qed.

(** [ai_router.py] rejects an update whose sender is no configured
    neighbour: nothing changes and [False] is returned. *)
Lemma process_update_unknown_neighbor (self : AiRouter.router) (sender : Z)
    (advertised : list (Z * Z)) (now : Z) :
  (∀ out, out ∈ AiRouter.outputs self → out.2 ≠ sender) →
  AiRouter.process_update self sender advertised now = (false, self).
Proof.
  intros Hno. unfold AiRouter.process_update. by rewrite find_neighbor_None.
Qed.

(** C8 fails in [1Server.py]: with neighbour 2 as the only output, an
    update decoded with source id 9 is resolved all the same; its entry for
    destination 3 is stored with the advertised metric, no link cost
    added. *)
Theorem unknown_source_update_is_applied :
  let self := Server.init 1 [Server.Output 2 5 5002] 30 in
  Forall (λ output, Server.peer_id output ≠ 9) (Server.outputs self)
  ∧ Server.routing_table self = ∅
  ∧ Server.routing_table (Server.resolve_update self 9 [Server.Entry.new 3 9 1] 7)
    = {[3 := Server.Entry.Make 3 9 1 true false 7 0]}.
Proof.
  split; [|split].
  - repeat constructor. simpl. lia.
  - reflexivity.
  - vm_compute. reflexivity.
Qed.

End Updates.

(** ** Applying the same update twice *)

Section AiRouterTwice.
Import AiRouter.

Lemma same_route_refl (r : route) : same_route r r.
Proof. done. Qed.

Lemma same_routes_refl (t : gmap Z route) : same_routes t t.
Proof. intros d. destruct (t !! d); constructor. done. Qed.

Lemma same_routes_sym (t1 t2 : gmap Z route) : same_routes t1 t2 → same_routes t2 t1.
Proof.
  intros H d. destruct (H d) as [r1 r2 (? & ? & ?)|]; constructor. by repeat split.
Qed.

Lemma same_routes_trans (t1 t2 t3 : gmap Z route) :
  same_routes t1 t2 → same_routes t2 t3 → same_routes t1 t3.
Proof.
  intros H12 H23 d. specialize (H12 d). specialize (H23 d).
  destruct H12 as [r1 r2 (? & ? & ?)|]; inversion H23 as [? r3 (? & ? & ?)|]; subst;
    constructor.
  repeat split; congruence.
Qed.

Lemma settled_same (sender base m : Z) (c1 c2 : option route) :
  option_Forall2 same_route c1 c2 → settled sender base c1 m → settled sender base c2 m.
Proof.
  intros [r1 r2 (Hnh & Hm & _)|]; [|done].
  unfold settled. by rewrite Hnh, Hm.
Qed.

(** Whatever an advertisement does to a slot, it leaves it settled. *)
Lemma update_slot_settles (sender base now m : Z) (cur : option route) :
  settled sender base
    (match update_slot sender base now cur m with
     | Some (r, _) => Some r
     | None => cur
     end) m.
Proof.
  unfold update_slot, settled, INFINITY.
  destruct cur as [[nh cm ts g]|]; simpl;
    repeat (case_bool_decide; simpl in * ); congruence || lia.
Qed.

(** On a settled slot an advertisement refreshes the timestamp at most. *)
Lemma update_slot_settled (sender base now m : Z) (cur : option route) :
  settled sender base cur m →
  match update_slot sender base now cur m with
  | Some (r, changed) => changed = false ∧ ∃ c, cur = Some c ∧ same_route r c
  | None => True
  end.
Proof.
  unfold update_slot, settled, INFINITY.
  destruct cur as [[nh cm ts g]|]; simpl; intros Hs; repeat case_bool_decide; try done;
    try lia.
  split; [done|]. eexists. split; [done|]. by repeat split.
Qed.

Lemma process_route_other (self_id sender base now : Z) (st : gmap Z route * bool)
    (adv : Z * Z) (d : Z) :
  d ≠ adv.1 → (process_route self_id sender base now st adv).1 !! d = st.1 !! d.
Proof.
  destruct st as [tbl tm], adv as [k m]. intros Hd. rewrite process_route_slot.
  case_bool_decide; [done|].
  destruct (update_slot _ _ _ _ _) as [[r changed]|]; [|done].
  simpl in *. by rewrite lookup_insert_ne.
Qed.

Lemma process_routes_other (self_id sender base now : Z) (advertised : list (Z * Z))
    (st : gmap Z route * bool) (d : Z) :
  d ∉ advertised.*1 →
  (foldl (process_route self_id sender base now) st advertised).1 !! d = st.1 !! d.
Proof.
  revert st. induction advertised as [|adv advertised IH]; intros st Hd; [done|].
  rewrite fmap_cons in Hd. apply not_elem_of_cons in Hd as [Hne Hd].
  cbn [foldl]. rewrite IH by done. by apply process_route_other.
Qed.

(** First pass: with pairwise distinct destinations, every advertised entry
    finds its slot settled at the end. *)
Lemma first_pass_settles (self_id sender base now : Z) (advertised : list (Z * Z))
    (st : gmap Z route * bool) :
  NoDup advertised.*1 →
  Forall (λ adv, adv.1 ≠ self_id →
                 settled sender base
                   ((foldl (process_route self_id sender base now) st advertised).1 !! adv.1)
                   adv.2)
         advertised.
Proof.
  revert st. induction advertised as [|[d m] advertised IH]; intros [tbl tm] Hnd; [done|].
  rewrite fmap_cons in Hnd. apply NoDup_cons in Hnd as [Hd Hnd].
  cbn [foldl]. apply Forall_cons. split; [|by apply IH].
  cbn [fst snd]. intros Hself. rewrite process_routes_other by done.
  rewrite process_route_slot, bool_decide_eq_false_2 by done.
  pose proof (update_slot_settles sender base now m (tbl !! d)) as Hs.
  destruct (update_slot _ _ _ _ _) as [[r changed]|]; [|done].
  simpl. by rewrite lookup_insert_eq.
Qed.

(** Second pass: on settled slots the loop changes timestamps at most and
    leaves [table_modified] as it was. *)
Lemma second_pass_refreshes (self_id sender base now : Z) (advertised : list (Z * Z))
    (tbl : gmap Z route) (tm : bool) :
  Forall (λ adv, adv.1 ≠ self_id → settled sender base (tbl !! adv.1) adv.2) advertised →
  (foldl (process_route self_id sender base now) (tbl, tm) advertised).2 = tm
  ∧ same_routes (foldl (process_route self_id sender base now) (tbl, tm) advertised).1 tbl.
Proof.
  revert tbl. induction advertised as [|[d m] advertised IH]; intros tbl Hall.
  { split; [done|]. apply same_routes_refl. }
  apply Forall_cons in Hall as [Hhead Hall]. cbn [foldl].
  assert (∃ tbl1, process_route self_id sender base now (tbl, tm) (d, m) = (tbl1, tm)
                  ∧ same_routes tbl1 tbl) as (tbl1 & -> & Hsame).
  { rewrite process_route_slot. case_bool_decide as Hself.
    { eexists. split; [done|]. apply same_routes_refl. }
    specialize (Hhead Hself). simpl in Hhead.
    pose proof (update_slot_settled sender base now m _ Hhead) as Hupd.
    destruct (update_slot _ _ _ _ _) as [[r changed]|].
    - destruct Hupd as (-> & c & Hc & Hrc). eexists. split; [by rewrite orb_false_r|].
      intros k. destruct (decide (k = d)) as [->|Hne].
      + rewrite lookup_insert_eq, Hc. by constructor.
      + rewrite lookup_insert_ne by done. apply same_routes_refl.
    - eexists. split; [done|]. apply same_routes_refl. }
  destruct (IH tbl1) as [Htm Hrest].
  { eapply Forall_impl; [exact Hall|]. intros adv Hadv Hself.
    eapply settled_same; [|by apply Hadv]. apply same_routes_sym, Hsame. }
  split; [done|]. by eapply same_routes_trans.
Qed.

(** [process_update] applied again with the same sender and entries, the
    destinations being pairwise distinct. *)
Lemma process_update_twice (self : router) (sender : Z) (advertised : list (Z * Z))
    (now now' : Z) :
  NoDup advertised.*1 →
  let once := (process_update self sender advertised now).2 in
  (process_update once sender advertised now').1 = false
  ∧ same_routes (routes (process_update once sender advertised now').2) (routes once).
Proof.
  intros Hnd once. subst once. unfold process_update.
  destruct (find_neighbor (outputs self) sender) as [[[port base] n]|] eqn:Hfind.
  2:{ simpl. rewrite Hfind. split; [done|]. apply same_routes_refl. }
  pose proof (first_pass_settles (router_id self) sender base now advertised
                (routes self, false) Hnd) as Hfirst.
  destruct (foldl (process_route (router_id self) sender base now) _ advertised)
    as [tbl1 tm1].
  cbn [snd set_routes outputs router_id routes] in *. rewrite Hfind.
  pose proof (second_pass_refreshes (router_id self) sender base now' advertised
                tbl1 false Hfirst) as [Htm Hsame].
  destruct (foldl (process_route (router_id self) sender base now') _ advertised)
    as [tbl2 tm2].
  done.
Qed.

End AiRouterTwice.

Section ServerTwice.
Import Server.

Lemma same_entry_refl (e : Entry.t) : same_entry e e.
Proof. done. Qed.

Lemma same_entries_refl (t : gmap Z Entry.t) : same_entries t t.
Proof. intros d. destruct (t !! d); constructor. done. Qed.

Lemma same_entries_trans (t1 t2 t3 : gmap Z Entry.t) :
  same_entries t1 t2 → same_entries t2 t3 → same_entries t1 t3.
Proof.
  intros H12 H23 d. specialize (H12 d). specialize (H23 d).
  destruct H12 as [e1 e2 (? & ? & ? & ? & ? & ?)|];
    inversion H23 as [? e3 (? & ? & ? & ? & ? & ?)|]; subst; constructor.
  repeat split; congruence.
Qed.

(** Once an entry has been resolved against a slot, resolving it again
    changes the timeout at most, unless the route refresh is due. *)
Lemma resolve_slot_calms (self : router) (src_id now now' : Z) (cur : option Entry.t)
    (entry : Entry.t) :
  refresh_due self now' (slot_after self src_id now cur entry) entry = false →
  calm self src_id now' (slot_after self src_id now cur entry) entry.
Proof.
  unfold calm, refresh_due, slot_after.
  destruct (resolve_slot self src_id now cur entry) as [[new t]|] eqn:Hfirst;
    revert Hfirst; unfold resolve_slot, mark_changed;
    destruct entry as [ed enh em ech eg eto egt];
    destruct cur as [[cd cnh cm cch cg cto cgt]|]; simpl.
  - destruct cg, eg; simpl;
      repeat (case_bool_decide; simpl in * ); intros [= <- <-]; simpl;
      repeat (case_bool_decide; simpl in * ); intros Hdue;
      try done; try congruence; try lia;
      (split; [done|]; eexists; split; [done|]; by repeat split).
  - destruct eg; simpl;
      repeat (case_bool_decide; simpl in * ); intros [= <- <-]; simpl;
      repeat (case_bool_decide; simpl in * ); intros Hdue;
      try done; try congruence; try lia;
      (split; [done|]; eexists; split; [done|]; by repeat split).
  - destruct cg, eg; simpl;
      repeat (case_bool_decide; simpl in * ); intros Hfirst Hdue;
      try done; try congruence; try lia.
  - repeat (case_bool_decide; simpl in * ); intros Hfirst Hdue;
      try done; try congruence; try lia.
Qed.

(** When the route refresh is due on a slot an entry has been resolved
    against, resolving the entry again replaces the stored route. *)
Lemma resolve_slot_refreshes (self : router) (src_id now now' : Z) (cur : option Entry.t)
    (entry : Entry.t) :
  refresh_due self now' (slot_after self src_id now cur entry) entry = true →
  slot_after self src_id now' (slot_after self src_id now cur entry) entry
  = Some (mark_changed entry now').
Proof.
  unfold refresh_due, slot_after.
  destruct (resolve_slot self src_id now cur entry) as [[new t]|] eqn:Hfirst;
    revert Hfirst; unfold resolve_slot, mark_changed;
    destruct entry as [ed enh em ech eg eto egt];
    destruct cur as [[cd cnh cm cch cg cto cgt]|]; simpl.
  - destruct cg, eg; simpl;
      repeat (case_bool_decide; simpl in * ); intros [= <- <-]; simpl;
      repeat (case_bool_decide; simpl in * ); intros Hdue;
      try done; try congruence; try lia.
  - destruct eg; simpl;
      repeat (case_bool_decide; simpl in * ); intros [= <- <-]; simpl;
      repeat (case_bool_decide; simpl in * ); intros Hdue;
      try done; try congruence; try lia.
  - destruct cg, eg; simpl;
      repeat (case_bool_decide; simpl in * ); intros Hfirst Hdue;
      try done; try congruence; try lia.
  - done.
Qed.

Lemma resolve_entry_other (self : router) (src_id now : Z) (st : gmap Z Entry.t * bool)
    (e : Entry.t) (d : Z) :
  d ≠ Entry.dst_id e → (resolve_entry self src_id now st e).1 !! d = st.1 !! d.
Proof.
  destruct st as [tbl trig]. intros Hd. rewrite resolve_entry_slot.
  case_bool_decide; [|done].
  destruct (resolve_slot _ _ _ _ _) as [[new t]|]; [|done].
  cbn [fst]. by rewrite lookup_insert_ne.
Qed.

Lemma resolve_entries_other (self : router) (src_id now : Z) (es : list Entry.t)
    (st : gmap Z Entry.t * bool) (d : Z) :
  d ∉ Entry.dst_id <$> es →
  (foldl (resolve_entry self src_id now) st es).1 !! d = st.1 !! d.
Proof.
  revert st. induction es as [|e es IH]; intros st Hd; [done|].
  rewrite fmap_cons in Hd. apply not_elem_of_cons in Hd as [Hne Hd].
  cbn [foldl]. rewrite IH by done. by apply resolve_entry_other.
Qed.

(** With pairwise distinct destinations every listed entry meets its slot
    as it was before the loop, and leaves it as the loop ends. *)
Lemma resolve_entries_slot (self : router) (src_id now : Z) (es : list Entry.t)
    (st : gmap Z Entry.t * bool) (e : Entry.t) :
  NoDup (Entry.dst_id <$> es) → e ∈ es → Entry.dst_id e ≠ id self →
  (foldl (resolve_entry self src_id now) st es).1 !! Entry.dst_id e
  = slot_after self src_id now (st.1 !! Entry.dst_id e) (with_link_cost self src_id e).
Proof.
  revert st. induction es as [|e0 es IH]; intros [tbl trig] Hnd Hin Hself.
  { by apply elem_of_nil in Hin. }
  rewrite fmap_cons in Hnd. apply NoDup_cons in Hnd as [Hd Hnd].
  cbn [foldl]. apply elem_of_cons in Hin as [->|Hin].
  - rewrite resolve_entries_other by done.
    rewrite resolve_entry_slot, bool_decide_eq_true_2 by done.
    unfold slot_after, with_link_cost. cbn [fst].
    destruct (resolve_slot _ _ _ _ _) as [[new t]|]; [|done].
    cbn [fst]. by rewrite lookup_insert_eq.
  - rewrite IH by done. f_equal. apply resolve_entry_other.
    intros Heq. apply Hd. rewrite <- Heq. by apply list_elem_of_fmap_2.
Qed.

(** Second pass: on calm slots the loop changes timeouts at most and
    leaves [triggered_update_call] as it was. *)
Lemma server_second_pass_refreshes (self : router) (src_id now : Z) (es : list Entry.t)
    (tbl : gmap Z Entry.t) (trig : bool) :
  NoDup (Entry.dst_id <$> es) →
  (∀ e, e ∈ es → Entry.dst_id e ≠ id self →
        calm self src_id now (tbl !! Entry.dst_id e) (with_link_cost self src_id e)) →
  (foldl (resolve_entry self src_id now) (tbl, trig) es).2 = trig
  ∧ same_entries (foldl (resolve_entry self src_id now) (tbl, trig) es).1 tbl.
Proof.
  revert tbl. induction es as [|e es IH]; intros tbl Hnd Hall.
  { split; [done|]. apply same_entries_refl. }
  rewrite fmap_cons in Hnd. apply NoDup_cons in Hnd as [Hd Hnd]. cbn [foldl].
  assert (∃ tbl1, resolve_entry self src_id now (tbl, trig) e = (tbl1, trig)
                  ∧ same_entries tbl1 tbl
                  ∧ ∀ d, d ≠ Entry.dst_id e → tbl1 !! d = tbl !! d)
    as (tbl1 & -> & Hsame & Hother).
  { rewrite resolve_entry_slot. case_bool_decide as Hself.
    2:{ eexists. split; [done|]. split; [apply same_entries_refl|done]. }
    pose proof (Hall e (list_elem_of_here _ _) Hself) as Hcalm.
    unfold calm, with_link_cost in Hcalm.
    destruct (resolve_slot _ _ _ _ _) as [[new t]|].
    - destruct Hcalm as (-> & c & Hc & Hnew). eexists.
      split; [by rewrite orb_false_r|]. split.
      + intros k. destruct (decide (k = Entry.dst_id e)) as [->|Hne].
        * rewrite lookup_insert_eq, Hc. by constructor.
        * rewrite lookup_insert_ne by done. apply same_entries_refl.
      + intros d Hne. by rewrite lookup_insert_ne.
    - eexists. split; [done|]. split; [apply same_entries_refl|done]. }
  destruct (IH tbl1 Hnd) as [Htrig Hrest].
  { intros e' Hin Hself. rewrite Hother.
    - apply Hall; [by apply list_elem_of_further | done].
    - intros Heq. apply Hd. rewrite <- Heq. by apply list_elem_of_fmap_2. }
  split; [done|]. by eapply same_entries_trans.
Qed.

(** [resolve_update] applied again with the same source and entries, the
    destinations being pairwise distinct and no route refresh due. *)
Lemma resolve_update_again (self : router) (src_id : Z) (es : list Entry.t) (now now' : Z) :
  NoDup (Entry.dst_id <$> es) →
  Forall (λ e, Entry.dst_id e ≠ id self →
               refresh_due self now'
                 (routing_table (resolve_update self src_id es now) !! Entry.dst_id e)
                 (with_link_cost self src_id e) = false) es →
  same_entries
    (routing_table (resolve_update (resolve_update self src_id es now) src_id es now'))
    (routing_table (resolve_update self src_id es now))
  ∧ triggered_update_call
      (resolve_update (resolve_update self src_id es now) src_id es now')
    = triggered_update_call (resolve_update self src_id es now).
Proof.
  intros Hnd Hdue. rewrite Forall_forall in Hdue.
  assert (∀ e, e ∈ es → Entry.dst_id e ≠ id self →
            calm self src_id now'
              (routing_table (resolve_update self src_id es now) !! Entry.dst_id e)
              (with_link_cost self src_id e)) as Hcalm.
  { intros e Hin Hself. specialize (Hdue e Hin Hself). revert Hdue.
    unfold resolve_update.
    pose proof (resolve_entries_slot self src_id now es
                  (routing_table self, triggered_update_call self) e Hnd Hin Hself)
      as Hslot.
    destruct (foldl (resolve_entry self src_id now) _ es) as [tbl1 trig1].
    cbn [routing_table set_table fst] in *. rewrite Hslot.
    apply resolve_slot_calms. }
  clear Hdue. revert Hcalm. unfold resolve_update.
  destruct (foldl (resolve_entry self src_id now) _ es) as [tbl1 trig1].
  cbn [routing_table triggered_update_call set_table].
  change (resolve_entry (set_table self tbl1 trig1)) with (resolve_entry self).
  intros Hcalm.
  pose proof (server_second_pass_refreshes self src_id now' es tbl1 trig1 Hnd Hcalm)
    as [Htrig Hsame].
  by destruct (foldl (resolve_entry self src_id now') _ es) as [tbl2 trig2].
Qed.

(** [resolve_update] applied again when the route refresh has fallen due
    for a listed destination: the stored route is replaced. *)
Lemma resolve_update_again_refreshes (self : router) (src_id : Z) (es : list Entry.t)
    (now now' : Z) (e : Entry.t) :
  NoDup (Entry.dst_id <$> es) → e ∈ es → Entry.dst_id e ≠ id self →
  refresh_due self now'
    (routing_table (resolve_update self src_id es now) !! Entry.dst_id e)
    (with_link_cost self src_id e) = true →
  routing_table (resolve_update (resolve_update self src_id es now) src_id es now')
    !! Entry.dst_id e
  = Some (mark_changed (with_link_cost self src_id e) now').
Proof.
  intros Hnd Hin Hself. unfold resolve_update.
  pose proof (resolve_entries_slot self src_id now es
                (routing_table self, triggered_update_call self) e Hnd Hin Hself)
    as Hslot.
  destruct (foldl (resolve_entry self src_id now) _ es) as [tbl1 trig1].
  cbn [routing_table triggered_update_call set_table fst] in *.
  change (resolve_entry (set_table self tbl1 trig1)) with (resolve_entry self).
  pose proof (resolve_entries_slot self src_id now' es (tbl1, trig1) e Hnd Hin Hself)
    as Hslot'.
  destruct (foldl (resolve_entry self src_id now') _ es) as [tbl2 trig2].
  cbn [routing_table set_table fst] in *. rewrite Hslot', Hslot.
  apply resolve_slot_refreshes.
Qed.

End ServerTwice.

Section Twice.

(** C9, as stated, fails.  In [1Server.py] the route refresh of CASE 3
    depends on the clock: router 1 holds a route to 3 through neighbour 4
    at metric 5, last refreshed at 0 and already advertised (timeout_time
    is 180); neighbour 2 offers destination 3 at the same total metric.
    At 89 the update changes nothing; applied again at 90 it replaces the
    next hop and sets [changed_flag].  And in both routers the entries of
    an update are applied one after the other, so an update that lists a
    destination twice signals a change each time it is applied: the second
    [process_update] returns [True], the second [resolve_update] raises
    [triggered_update_call]. *)
Lemma repeated_update_is_not_idempotent :
  (let self :=
     Server.run (Server.init 1 [Server.Output 2 1 5002; Server.Output 4 1 5004] 30)
       [Server.Resolve 4 [Server.Entry.new 3 4 4] 0; Server.Periodic] in
   let table_entries := [Server.Entry.new 3 2 4] in
   let once := Server.resolve_update self 2 table_entries 89 in
   let twice := Server.resolve_update once 2 table_entries 90 in
   Server.routing_table self !! 3 = Some (Server.Entry.Make 3 4 5 false false 0 0)
   ∧ Server.routing_table once !! 3 = Some (Server.Entry.Make 3 4 5 false false 0 0)
   ∧ Server.routing_table twice !! 3 = Some (Server.Entry.Make 3 2 5 true false 90 0))
  ∧ (let self := AiRouter.init 1 [(5002, 1, 2)] 180 120 0 in
     let advertised := [(3, 4); (3, 15)] in
     let once := (AiRouter.process_update self 2 advertised 5).2 in
     let twice := AiRouter.process_update once 2 advertised 9 in
     AiRouter.routes once !! 3 = Some (AiRouter.Route 2 16 (AiRouter.At 5) true)
     ∧ twice.1 = true
     ∧ AiRouter.routes twice.2 !! 3 = Some (AiRouter.Route 2 16 (AiRouter.At 9) true))
  ∧ (let self := Server.init 1 [Server.Output 2 1 5002] 30 in
     let table_entries := [Server.Entry.new 3 2 15; Server.Entry.new 3 2 4] in
     let once := Server.resolve_update self 2 table_entries 5 in
     let twice := Server.resolve_update once 2 table_entries 9 in
     Server.routing_table once !! 3 = Some (Server.Entry.Make 3 2 5 true false 5 0)
     ∧ Server.triggered_update_call once = false
     ∧ Server.routing_table twice !! 3 = Some (Server.Entry.Make 3 2 5 true false 9 0)
     ∧ Server.triggered_update_call twice = true).
Proof. repeat split; vm_compute; reflexivity. Qed.

(** C9, amended.  For an update whose advertised destinations are
    pairwise distinct, applying it a second time right after the first,
    at whatever clock value, changes nothing but timestamps and signals
    nothing: in [ai_router.py] the second [process_update] returns
    [False] and every route keeps its next hop, metric and garbage flag
    (no route appears or disappears); in [1Server.py], provided the route
    refresh of CASE 3 is not due at the second call for any listed
    destination, the second [resolve_update] leaves every entry as it
    was but for its timeout (no entry appears or disappears, no changed
    flag is set) and [triggered_update_call] as it was.  Where the refresh
    is due, that is where the stored route costs what the entry offers
    (link cost added), goes through another next hop and was last
    refreshed at least [timeout_time / 2] before the second call, the
    second call replaces the stored route by the offered one, with
    [changed_flag] set. *)
Theorem repeated_update_is_idempotent :
  (∀ (self : AiRouter.router) sender advertised now now',
     NoDup advertised.*1 →
     (AiRouter.process_update (AiRouter.process_update self sender advertised now).2
        sender advertised now').1 = false
     ∧ AiRouter.same_routes
         (AiRouter.routes
            (AiRouter.process_update (AiRouter.process_update self sender advertised now).2
               sender advertised now').2)
         (AiRouter.routes (AiRouter.process_update self sender advertised now).2))
  ∧ (∀ (self : Server.router) src_id table_entries now now',
       NoDup (Server.Entry.dst_id <$> table_entries) →
       let once := Server.resolve_update self src_id table_entries now in
       let twice := Server.resolve_update once src_id table_entries now' in
       (Forall (λ e, Server.Entry.dst_id e ≠ Server.id self →
                     Server.refresh_due self now'
                       (Server.routing_table once !! Server.Entry.dst_id e)
                       (Server.with_link_cost self src_id e) = false)
               table_entries →
        Server.same_entries (Server.routing_table twice) (Server.routing_table once)
        ∧ Server.triggered_update_call twice = Server.triggered_update_call once)
       ∧ (∀ e, e ∈ table_entries → Server.Entry.dst_id e ≠ Server.id self →
               Server.refresh_due self now'
                 (Server.routing_table once !! Server.Entry.dst_id e)
                 (Server.with_link_cost self src_id e) = true →
               Server.routing_table twice !! Server.Entry.dst_id e
               = Some (Server.mark_changed (Server.with_link_cost self src_id e) now'))).
Proof.
  split.
  - intros self sender advertised now now' Hnd.
    by apply (process_update_twice self sender advertised now now').
  - intros self src_id table_entries now now' Hnd once twice. subst once twice. split.
    + intros Hdue. by apply resolve_update_again.
    + intros e Hin Hself Hdue. by apply resolve_update_again_refreshes.
Qed.

Lemma repeated_update_is_idempotent_witness :
  (let self := AiRouter.init 1 [(5002, 1, 2)] 180 120 0 in
   let advertised := [(3, 4); (4, 15); (2, 0)] in
   (AiRouter.process_update (AiRouter.process_update self 2 advertised 5).2
      2 advertised 9).1 = false
   ∧ AiRouter.same_routes
       (AiRouter.routes
          (AiRouter.process_update (AiRouter.process_update self 2 advertised 5).2
             2 advertised 9).2)
       (AiRouter.routes (AiRouter.process_update self 2 advertised 5).2))
  ∧ (let self :=
       Server.run (Server.init 1 [Server.Output 2 1 5002; Server.Output 4 1 5004] 30)
         [Server.Resolve 4 [Server.Entry.new 3 4 4; Server.Entry.new 6 4 2] 0] in
     let table_entries :=
       [Server.Entry.new 3 2 4; Server.Entry.new 5 2 7; Server.Entry.new 6 2 1;
        Server.Entry.new 7 2 15] in
     let once := Server.resolve_update self 2 table_entries 5 in
     let twice := Server.resolve_update once 2 table_entries 9 in
     Server.same_entries (Server.routing_table twice) (Server.routing_table once)
     ∧ Server.triggered_update_call twice = Server.triggered_update_call once)
  ∧ (let self :=
       Server.run (Server.init 1 [Server.Output 2 1 5002; Server.Output 4 1 5004] 30)
         [Server.Resolve 4 [Server.Entry.new 3 4 4; Server.Entry.new 6 4 2] 0] in
     let table_entries :=
       [Server.Entry.new 3 2 4; Server.Entry.new 5 2 7; Server.Entry.new 6 2 1;
        Server.Entry.new 7 2 15] in
     let once := Server.resolve_update self 2 table_entries 5 in
     let twice := Server.resolve_update once 2 table_entries 90 in
     Server.routing_table twice !! 3 = Some (Server.Entry.Make 3 2 5 true false 90 0)).
Proof.
  split; [|split].
  - apply (proj1 repeated_update_is_idempotent
             (AiRouter.init 1 [(5002, 1, 2)] 180 120 0) 2 [(3, 4); (4, 15); (2, 0)] 5 9).
    apply (bool_decide_unpack _). vm_compute. exact I.
  - apply (proj2 repeated_update_is_idempotent
             (Server.run
                (Server.init 1 [Server.Output 2 1 5002; Server.Output 4 1 5004] 30)
                [Server.Resolve 4 [Server.Entry.new 3 4 4; Server.Entry.new 6 4 2] 0])
             2 [Server.Entry.new 3 2 4; Server.Entry.new 5 2 7; Server.Entry.new 6 2 1;
                Server.Entry.new 7 2 15] 5 9).
    + apply (bool_decide_unpack _). vm_compute. exact I.
    + repeat constructor; intros _; vm_compute; reflexivity.
  - apply (proj2 (proj2 repeated_update_is_idempotent
             (Server.run
                (Server.init 1 [Server.Output 2 1 5002; Server.Output 4 1 5004] 30)
                [Server.Resolve 4 [Server.Entry.new 3 4 4; Server.Entry.new 6 4 2] 0])
             2 [Server.Entry.new 3 2 4; Server.Entry.new 5 2 7; Server.Entry.new 6 2 1;
                Server.Entry.new 7 2 15] 5 90
             ltac:(apply (bool_decide_unpack _); vm_compute; exact I))
           (Server.Entry.new 3 2 4)).
    + apply list_elem_of_here.
    + vm_compute. congruence.
    + vm_compute. reflexivity.
Defined.

End Twice.

(** * Further properties of the code *)

(** ** The codec beyond well-formed entries *)

Section CodecMore.

Lemma create_rte_None (d m : Z) : create_rte d m = None ↔ ¬ packable (d, m).
Proof.
  unfold create_rte, pack_I, packable. simpl. split.
  - intros Hnone [Hd Hm]. rewrite !bool_decide_eq_true_2 in Hnone by done.
    simpl in Hnone. done.
  - intros Hbad. repeat case_bool_decide; simpl; try done. by destruct Hbad.
Qed.

Lemma append_rtes_None (routes : list (Z * Z)) (packet : list Z) :
  append_rtes packet routes = None ↔ Exists (λ r, ¬ packable r) routes.
Proof.
  revert packet. induction routes as [|[d m] routes IH]; intros packet.
  { simpl. split; [done|]. by intros ?%Exists_nil. }
  cbn [append_rtes]. rewrite Exists_cons.
  destruct (create_rte d m) as [rte|] eqn:Hrte; simpl.
  - rewrite IH. split; [by right|]. intros [Hbad|Hex]; [|done].
    apply create_rte_None in Hbad. congruence.
  - split; [|done]. intros _. left. by apply create_rte_None.
Qed.

Lemma create_header_None (rid : Z) :
  create_header rid COMMAND_RESPONSE VERSION = None ↔ ¬ 0 <= rid < 65536.
Proof.
  unfold create_header, pack_B, pack_H. simpl. case_bool_decide; simpl; split; done.
Qed.

Lemma append_rtes_app (l1 l2 : list (Z * Z)) (packet : list Z) :
  append_rtes packet (l1 ++ l2) = (p1 ← append_rtes packet l1; append_rtes p1 l2).
Proof.
  revert packet. induction l1 as [|[d m] l1 IH]; intros packet; [done|].
  cbn [app append_rtes]. destruct (create_rte d m) as [rte|]; [|done]. simpl. apply IH.
Qed.

(** Decoding what was encoded keeps, in order, the records whose metric is
    in range. *)
Lemma decode_rtes_filter (routes : list (Z * Z)) (hdr : list Z) (acc : list (Z * Z)) :
  length hdr = HEADER_SIZE → Forall packable routes →
  ∃ body, append_rtes [] routes = Some body
          ∧ length body = (length routes * RTE_SIZE)%nat
          ∧ parse_rtes (hdr ++ body) (seq 0 (length routes)) acc
            = Some (acc ++ filter (λ r, 0 <= r.2 <= INFINITY) routes).
Proof.
  intros Hh. revert acc.
  induction routes as [|[d m] routes IH]; intros acc Hok.
  { exists []. simpl. by rewrite app_nil_r. }
  apply Forall_cons in Hok as [[Hd Hm] Hok]. simpl in Hd, Hm.
  destruct (create_rte_is_Some d m Hd Hm) as [rte Hrte].
  destruct (create_rte_inv _ _ _ Hrte) as [Hlen Hun].
  destruct (IH (if bool_decide (0 <= m <= INFINITY) then acc ++ [(d, m)] else acc) Hok)
    as (body & Hbody & Hblen & Hparse).
  exists (rte ++ body). split; [|split].
  - simpl. rewrite Hrte. simpl. rewrite append_rtes_prefix, Hbody. done.
  - rewrite length_app, Hlen, Hblen. simpl. lia.
  - cbn [length seq parse_rtes].
    replace (slice (hdr ++ rte ++ body) (HEADER_SIZE + 0 * RTE_SIZE)
               (HEADER_SIZE + 0 * RTE_SIZE + RTE_SIZE)) with rte.
    + rewrite Hun. simpl. rewrite parse_rtes_skip_rte by done. rewrite Hparse.
      rewrite filter_cons. simpl. case_bool_decide as Hin.
      * rewrite decide_True by done. by rewrite <- app_assoc.
      * by rewrite decide_False by done.
    + rewrite <- Hh, <- Hlen.
      replace (length hdr + 0 * length rte)%nat with (length hdr + 0)%nat by lia.
      replace (length hdr + 0 + length rte)%nat with (length hdr + length rte)%nat by lia.
      rewrite slice_after_prefix. by rewrite slice_first.
Qed.

Lemma decode_packet_filter (sender_id : Z) (routes : list (Z * Z)) :
  0 <= sender_id < 65536 → Forall packable routes →
  ∃ packet, create_response sender_id routes = Some packet
            ∧ length packet = (HEADER_SIZE + length routes * RTE_SIZE)%nat
            ∧ parse packet
              = Some (Packet COMMAND_RESPONSE VERSION sender_id
                        (filter (λ r, 0 <= r.2 <= INFINITY) routes)).
Proof.
  intros Hid Hroutes.
  set (hdr := [COMMAND_RESPONSE; VERSION; sender_id / 256; sender_id `mod` 256]).
  destruct (decode_rtes_filter routes hdr [] eq_refl Hroutes) as (body & Hbody & Hlen & Hparse).
  exists (hdr ++ body). split; [|split].
  - unfold create_response, create_header, pack_B, pack_H.
    rewrite (bool_decide_eq_true_2 (0 <= sender_id < 65536)) by done.
    simpl. by rewrite append_rtes_prefix, Hbody.
  - by rewrite length_app, Hlen.
  - subst hdr. cbn [app]. rewrite parse_with_header.
    rewrite bool_decide_eq_false_2 by (intros H; by apply H).
    rewrite Hlen, Nat.div_mul by done.
    change (COMMAND_RESPONSE :: VERSION :: sender_id / 256 :: sender_id `mod` 256 :: body)
      with ([COMMAND_RESPONSE; VERSION; sender_id / 256; sender_id `mod` 256] ++ body).
    rewrite Hparse. simpl. by rewrite int_of_2_pack.
Qed.

Lemma filter_wire_routes (routes : list (Z * Z)) :
  Forall wire_route routes → filter (λ r, 0 <= r.2 <= INFINITY) routes = routes.
Proof.
  induction 1 as [|r routes [_ Hm] _ IH]; [done|].
  rewrite filter_cons, decide_True by done. by rewrite IH.
Qed.

Lemma wire_route_packable (routes : list (Z * Z)) :
  Forall wire_route routes → Forall packable routes.
Proof.
  intros H. eapply Forall_impl; [exact H|].
  intros r [Hd Hm]. split; [done|]. unfold INFINITY in Hm. lia.
Qed.

(** X1.  Records are dropped one by one: for a sender id that fits 16 bits
    and entries whose two fields fit 32 bits, whatever their metric,
    [parse] of the packet [create_response] builds returns, in their
    order, exactly the entries whose metric is at most INFINITY; the
    others are left out and the packet is not rejected. *)
Theorem parse_drops_out_of_range_records (sender_id : Z) (routes : list (Z * Z)) :
  0 <= sender_id < 65536 → Forall packable routes →
  ∃ packet, create_response sender_id routes = Some packet
            ∧ parse packet
              = Some (Packet COMMAND_RESPONSE VERSION sender_id
                        (filter (λ r, r.2 <= INFINITY) routes)).
Proof.
  intros Hid Hroutes.
  destruct (decode_packet_filter sender_id routes Hid Hroutes) as (packet & Hp & _ & Hparse).
  exists packet. split; [done|]. rewrite Hparse. do 2 f_equal.
  clear Hp Hparse. induction Hroutes as [|r routes [_ Hm] _ IH]; [done|].
  rewrite !filter_cons, IH.
  destruct (decide (r.2 <= INFINITY)).
  - by rewrite decide_True by lia.
  - by rewrite decide_False by lia.
Qed.

Lemma parse_drops_out_of_range_records_witness :
  ∃ packet, create_response 7 [(3, 5); (4, 17); (5, 16); (6, 4294967295)] = Some packet
            ∧ parse packet
              = Some (Packet COMMAND_RESPONSE VERSION 7
                        (filter (λ r, r.2 <= INFINITY)
                           [(3, 5); (4, 17); (5, 16); (6, 4294967295)])).
Proof.
  apply (parse_drops_out_of_range_records 7 [(3, 5); (4, 17); (5, 16); (6, 4294967295)]).
  - lia.
  - repeat constructor; simpl; lia.
Defined.

(** X2.  [create_response] raises exactly when the sender id does not fit
    the 16-bit header field or some entry has a destination or metric that
    does not fit 32 bits; otherwise it returns a packet. *)
Theorem create_response_raises_iff (sender_id : Z) (routes : list (Z * Z)) :
  create_response sender_id routes = None
  ↔ ¬ 0 <= sender_id < 65536 ∨ Exists (λ r, ¬ packable r) routes.
Proof.
  unfold create_response.
  destruct (create_header sender_id COMMAND_RESPONSE VERSION) as [hdr|] eqn:Hhdr; simpl.
  - rewrite append_rtes_None. split; [by right|]. intros [Hid|Hex]; [|done].
    apply create_header_None in Hid. congruence.
  - split; [|done]. intros _. left. by apply create_header_None.
Qed.

End CodecMore.

Section Truncation.

(** [parse] reads nothing past the last complete record. *)
Lemma parse_take_complete (data : list Z) :
  parse (take (HEADER_SIZE + (length data - HEADER_SIZE) / RTE_SIZE * RTE_SIZE) data)
  = parse data.
Proof.
  destruct (decide (length data < HEADER_SIZE)%nat) as [Hlt|Hge].
  { rewrite take_ge; [done|].
    replace (length data - HEADER_SIZE)%nat with 0%nat by lia.
    unfold HEADER_SIZE in *. simpl. lia. }
  destruct (has_header data Hge) as (c & v & h & l & payload & ->).
  change (length (c :: v :: h :: l :: payload) - HEADER_SIZE)%nat
    with (length payload - 0)%nat.
  rewrite Nat.sub_0_r.
  change (take (HEADER_SIZE + length payload / RTE_SIZE * RTE_SIZE)
            (c :: v :: h :: l :: payload))
    with (c :: v :: h :: l :: take (length payload / RTE_SIZE * RTE_SIZE) payload).
  rewrite !parse_with_header. case_bool_decide; [done|].
  pose proof (Nat.Div0.mul_div_le (length payload) RTE_SIZE) as Hle.
  rewrite length_take_le by lia. rewrite Nat.div_mul by done.
  change (c :: v :: h :: l :: take (length payload / RTE_SIZE * RTE_SIZE) payload)
    with (take (HEADER_SIZE + length payload / RTE_SIZE * RTE_SIZE)
            (c :: v :: h :: l :: payload)).
  rewrite parse_rtes_take; [done|].
  apply Forall_forall. intros i Hi%elem_of_seq. unfold RTE_SIZE in *. lia.
Qed.

(** Fewer than 20 bytes after a whole packet change nothing. *)
Lemma parse_short_tail (packet tail : list Z) (k : nat) :
  length packet = (HEADER_SIZE + k * RTE_SIZE)%nat → (length tail < RTE_SIZE)%nat →
  parse (packet ++ tail) = parse packet.
Proof.
  intros Hp Ht. rewrite <- (parse_take_complete (packet ++ tail)).
  rewrite length_app, Hp.
  replace (HEADER_SIZE + k * RTE_SIZE + length tail - HEADER_SIZE)%nat
    with (length tail + k * RTE_SIZE)%nat by lia.
  rewrite Nat.div_add by done. rewrite (Nat.div_small (length tail)) by done.
  rewrite Nat.add_0_l, <- Hp. by rewrite take_app_length.
Qed.

Lemma create_response_app (sender_id : Z) (l1 l2 : list (Z * Z)) :
  create_response sender_id (l1 ++ l2)
  = (p1 ← create_response sender_id l1; b2 ← append_rtes [] l2; Some (p1 ++ b2)).
Proof.
  unfold create_response.
  destruct (create_header sender_id COMMAND_RESPONSE VERSION) as [hdr|]; [|done].
  simpl. rewrite append_rtes_app.
  destruct (append_rtes hdr l1) as [p1|]; [|done]. simpl.
  apply append_rtes_prefix.
Qed.

(** What arrives of a packet through [recvfrom(2048)], decoded. *)
Lemma received_packet (sender_id : Z) (routes : list (Z * Z)) :
  0 <= sender_id < 65536 → Forall packable routes →
  ∃ packet, create_response sender_id routes = Some packet
            ∧ parse (take AiRouter.RECV_BUFSIZE packet)
              = Some (Packet COMMAND_RESPONSE VERSION sender_id
                        (filter (λ r, 0 <= r.2 <= INFINITY) (take 102 routes))).
Proof.
  intros Hid Hroutes.
  rewrite <- (take_drop 102 routes) in Hroutes. apply Forall_app in Hroutes as [H1 H2].
  destruct (decode_packet_filter sender_id (take 102 routes) Hid H1)
    as (p1 & Hp1 & Hlen1 & Hparse1).
  destruct (decode_rtes_filter (drop 102 routes) [0; 0; 0; 0] [] eq_refl H2)
    as (b2 & Hb2 & Hlen2 & _).
  exists (p1 ++ b2). split.
  { rewrite <- (take_drop 102 routes) at 1. by rewrite create_response_app, Hp1, Hb2. }
  rewrite take_app, (take_ge p1).
  2:{ rewrite Hlen1, length_take. unfold AiRouter.RECV_BUFSIZE, HEADER_SIZE, RTE_SIZE. lia. }
  rewrite (parse_short_tail p1 _ (length (take 102 routes))); [done|done|].
  rewrite length_take, Hlen1, Hlen2, length_take, length_drop.
  unfold AiRouter.RECV_BUFSIZE, HEADER_SIZE, RTE_SIZE. lia.
Qed.

(** X3.  A datagram longer than the 2048 bytes the receive loop reads is
    cut, not dropped: of the packet [create_response] builds for any
    entries that fit their fields, [parse] after [recvfrom(2048)] returns
    the first 102 entries (those with a metric of at most INFINITY), and
    every later entry is lost without an error. *)
Theorem oversize_datagram_keeps_first_102 (sender_id : Z) (routes : list (Z * Z)) :
  0 <= sender_id < 65536 → Forall packable routes →
  ∃ packet, create_response sender_id routes = Some packet
            ∧ parse (take AiRouter.RECV_BUFSIZE packet)
              = Some (Packet COMMAND_RESPONSE VERSION sender_id
                        (filter (λ r, 0 <= r.2 <= INFINITY) (take 102 routes))).
Proof. apply received_packet. Qed.

Lemma oversize_datagram_keeps_first_102_witness :
  ∃ packet, create_response 1 (replicate 150 (3, 5)) = Some packet
            ∧ parse (take AiRouter.RECV_BUFSIZE packet)
              = Some (Packet COMMAND_RESPONSE VERSION 1
                        (filter (λ r, 0 <= r.2 <= INFINITY)
                           (take 102 (replicate 150 (3, 5))))).
Proof.
  apply (oversize_datagram_keeps_first_102 1 (replicate 150 (3, 5))).
  - lia.
  - apply Forall_replicate. split; simpl; lia.
Defined.

End Truncation.

(** ** [process_update] and [check_timeouts]: what they leave alone *)

Section AiRouterFrame.
Import AiRouter.

Lemma process_routes_own (self_id sender base now : Z) (advertised : list (Z * Z))
    (st : gmap Z route * bool) :
  (foldl (process_route self_id sender base now) st advertised).1 !! self_id
  = st.1 !! self_id.
Proof.
  revert st. induction advertised as [|[d m] advertised IH]; intros [tbl tm]; [done|].
  cbn [foldl]. rewrite IH, process_route_slot.
  case_bool_decide as Hd; [done|].
  destruct (update_slot _ _ _ _ _) as [[r changed]|]; [|done].
  cbn [fst]. by rewrite lookup_insert_ne.
Qed.

Lemma process_routes_keeps (self_id sender base now : Z) (advertised : list (Z * Z))
    (st : gmap Z route * bool) (d : Z) :
  is_Some (st.1 !! d) →
  is_Some ((foldl (process_route self_id sender base now) st advertised).1 !! d).
Proof.
  revert st. induction advertised as [|[k m] advertised IH]; intros [tbl tm] Hd; [done|].
  cbn [foldl]. apply IH. rewrite process_route_slot.
  case_bool_decide; [done|].
  destruct (update_slot _ _ _ _ _) as [[r changed]|]; [|done].
  cbn [fst] in *. destruct (decide (k = d)) as [->|Hne].
  - rewrite lookup_insert_eq. by eexists.
  - by rewrite lookup_insert_ne.
Qed.

(** X4.  [process_update] writes only where it is told to: the route of a
    destination the update does not list, and the router's own route even
    when listed, are exactly as before; and no route is ever removed by
    an update. *)
Theorem process_update_frame (self : router) (sender : Z) (advertised : list (Z * Z))
    (now : Z) :
  (∀ d, d ∉ advertised.*1 ∨ d = router_id self →
        routes (process_update self sender advertised now).2 !! d = routes self !! d)
  ∧ (∀ d, is_Some (routes self !! d) →
          is_Some (routes (process_update self sender advertised now).2 !! d)).
Proof.
  unfold process_update.
  destruct (find_neighbor (outputs self) sender) as [[[port base] n]|]; [|done].
  pose proof (process_routes_other (router_id self) sender base now advertised
                (routes self, false)) as Hother.
  pose proof (process_routes_own (router_id self) sender base now advertised
                (routes self, false)) as Hown.
  pose proof (process_routes_keeps (router_id self) sender base now advertised
                (routes self, false)) as Hkeeps.
  destruct (foldl _ _ _) as [tbl tm]. cbn [fst snd routes set_routes] in *.
  split.
  - intros d [Hd| ->]; [by apply Hother | done].
  - intros d. apply Hkeeps.
Qed.

(** An advertisement that does not set [table_modified] wrote back the
    route that was there, timestamp aside. *)
Lemma update_slot_unchanged (sender base now m : Z) (cur : option route) (r : route) :
  update_slot sender base now cur m = Some (r, false) →
  ∃ c, cur = Some c ∧ same_route r c.
Proof.
  unfold update_slot. destruct cur as [[nh cm ts g]|].
  - repeat case_bool_decide; simpl; intros [= <-]; try done.
    eexists. split; [done|]. by repeat split.
  - by case_bool_decide.
Qed.

Lemma process_routes_unmodified (self_id sender base now : Z) (advertised : list (Z * Z))
    (tbl : gmap Z route) (tm : bool) :
  (foldl (process_route self_id sender base now) (tbl, tm) advertised).2 = false →
  tm = false
  ∧ same_routes (foldl (process_route self_id sender base now) (tbl, tm) advertised).1 tbl.
Proof.
  revert tbl tm. induction advertised as [|[d m] advertised IH]; intros tbl tm.
  { simpl. intros ->. split; [done|]. apply same_routes_refl. }
  cbn [foldl]. rewrite process_route_slot. case_bool_decide; [apply IH|].
  destruct (update_slot sender base now (tbl !! d) m) as [[r changed]|] eqn:Hupd;
    [|apply IH].
  intros Hflag. destruct (IH _ _ Hflag) as [Hor Hsame].
  apply orb_false_iff in Hor as [-> ->]. split; [done|].
  apply update_slot_unchanged in Hupd as (c & Hc & Hrc).
  eapply same_routes_trans; [exact Hsame|].
  intros k. destruct (decide (k = d)) as [->|Hne].
  - rewrite lookup_insert_eq, Hc. by constructor.
  - rewrite lookup_insert_ne by done. apply same_routes_refl.
Qed.

(** X5.  The flag [process_update] returns can be trusted: when it is
    [False], no route was added and no route changed its next hop, metric
    or garbage flag; timestamps alone may have been refreshed. *)
Theorem process_update_false_means_unchanged (self : router) (sender : Z)
    (advertised : list (Z * Z)) (now : Z) :
  (process_update self sender advertised now).1 = false →
  same_routes (routes (process_update self sender advertised now).2) (routes self).
Proof.
  unfold process_update.
  destruct (find_neighbor (outputs self) sender) as [[[port base] n]|].
  2:{ intros _. apply same_routes_refl. }
  pose proof (process_routes_unmodified (router_id self) sender base now advertised
                (routes self) false) as Hfold.
  destruct (foldl _ _ _) as [tbl tm]. cbn [fst snd routes set_routes] in *.
  intros Hflag. by apply Hfold.
Qed.

Lemma process_update_false_means_unchanged_witness :
  let self := AiRouter.init 1 [(5002, 1, 2)] 180 120 0 in
  same_routes (routes (process_update self 2 [(2, 0); (3, 15); (1, 4)] 9).2) (routes self).
Proof.
  apply (process_update_false_means_unchanged
           (AiRouter.init 1 [(5002, 1, 2)] 180 120 0) 2 [(2, 0); (3, 15); (1, 4)] 9).
  vm_compute. reflexivity.
Defined.

End AiRouterFrame.

Section AiRouterSweepFlag.
Import AiRouter.

(** One iteration of the sweep either leaves table and flag as they are, or
    sets the flag and changes the route of its own key. *)
Lemma check_route_cases (self : router) (now : Z) (tbl : gmap Z route) (tm : bool) (k : Z) :
  check_route self now (tbl, tm) k = (tbl, tm)
  ∨ ((check_route self now (tbl, tm) k).2 = true
     ∧ (check_route self now (tbl, tm) k).1 !! k ≠ tbl !! k).
Proof.
  unfold check_route. case_bool_decide; [by left|].
  destruct (tbl !! k) as [[nh m ts g]|] eqn:Hk; [|by left].
  destruct g; destruct (elapsed_gt _ _ _); try by left.
  - right. split; [done|]. cbn [fst]. by rewrite lookup_delete_eq.
  - right. split; [done|]. cbn [fst]. rewrite lookup_insert_eq. by intros [= _ _].
Qed.

Lemma check_keys_cases (self : router) (now : Z) (keys : list Z) (tbl : gmap Z route)
    (tm : bool) :
  NoDup keys →
  foldl (check_route self now) (tbl, tm) keys = (tbl, tm)
  ∨ ((foldl (check_route self now) (tbl, tm) keys).2 = true
     ∧ ∃ k, (foldl (check_route self now) (tbl, tm) keys).1 !! k ≠ tbl !! k).
Proof.
  revert tbl tm. induction keys as [|k keys IH]; intros tbl tm Hnd; [by left|].
  apply NoDup_cons in Hnd as [Hk Hnd]. cbn [foldl].
  destruct (check_route_cases self now tbl tm k) as [->|[Hflag Hdiff]]; [by apply IH|].
  destruct (check_route self now (tbl, tm) k) as [tbl1 tm1]. cbn [fst snd] in *. subst tm1.
  right. destruct (IH tbl1 true Hnd) as [->|[Hflag Hex]].
  - split; [done|]. by exists k.
  - split; [done|]. exists k.
    rewrite check_keys_lookup by done.
    rewrite decide_False; [done|]. by intros [? _].
Qed.

(** X6.  The flag [check_timeouts] returns is exact: it is [False] exactly
    when the sweep left the whole table as it was. *)
Theorem check_timeouts_false_iff_unchanged (self : router) (now : Z) :
  (check_timeouts self now).1 = false
  ↔ routes (check_timeouts self now).2 = routes self.
Proof.
  unfold check_timeouts.
  destruct (check_keys_cases self now (map_to_list (routes self)).*1 (routes self) false
              (NoDup_fst_map_to_list _)) as [->|[Hflag [k Hk]]].
  { done. }
  destruct (foldl _ _ _) as [tbl tm]. cbn [fst snd routes set_routes] in *.
  subst tm. split; [done|]. intros ->. done.
Qed.

End AiRouterSweepFlag.

(** ** Invariants of the tables [ai_router.py] reaches *)

Section AiRouterInvariants.
Import AiRouter.

Lemma step_router_id (self : router) (ev : event) :
  router_id (step self ev) = router_id self.
Proof.
  destruct ev as [sender advertised now|now]; simpl.
  - apply process_update_outputs.
  - apply check_timeouts_fields.
Qed.

Lemma step_own_route (self : router) (ev : event) :
  routes (step self ev) !! router_id self = routes self !! router_id self.
Proof.
  destruct ev as [sender advertised now|now]; simpl.
  - unfold process_update.
    destruct (find_neighbor (outputs self) sender) as [[[port base] n]|]; [|done].
    pose proof (process_routes_own (router_id self) sender base now advertised
                  (routes self, false)) as Hown.
    by destruct (foldl _ _ _).
  - rewrite check_timeouts_lookup. by rewrite decide_True.
Qed.

Lemma run_own_route (self : router) (evs : list event) :
  router_id (run self evs) = router_id self
  ∧ routes (run self evs) !! router_id self = routes self !! router_id self.
Proof.
  revert self. induction evs as [|ev evs IH]; intros self; [done|].
  unfold run in *. cbn [foldl]. destruct (IH (step self ev)) as [Hid Hown].
  rewrite step_router_id in Hid, Hown. split; [done|].
  by rewrite Hown, step_own_route.
Qed.

(** X7.  The router's own route is permanent: whatever updates and sweeps
    follow [__init__], the table holds [(router_id, 0, inf, False)] for the
    router itself. *)
Theorem own_route_is_permanent (id : Z) (outs : list (Z * Z * Z)) (rt gt t0 : Z)
    (evs : list event) :
  routes (run (init id outs rt gt t0) evs) !! id = Some (Route id 0 Inf false).
Proof.
  destruct (run_own_route (init id outs rt gt t0) evs) as [_ Hown].
  cbn [router_id init] in Hown. rewrite Hown.
  unfold init. cbn [routes]. apply lookup_insert_eq.
Qed.

(** A sweep keeps every next hop. *)
Lemma check_timeouts_next_hop (self : router) (now d : Z) (r : route) :
  routes (check_timeouts self now).2 !! d = Some r →
  ∃ r0, routes self !! d = Some r0 ∧ next_hop_id r = next_hop_id r0.
Proof.
  rewrite check_timeouts_lookup. case_decide; [by eexists|].
  destruct (routes self !! d) as [r0|]; [|done]. simpl.
  unfold expire. destruct (garbage r0); destruct (elapsed_gt _ _ _);
    intros [= <-]; by eexists.
Qed.

Lemma step_known_next_hop (id : Z) (self : router) (ev : event) :
  map_Forall (λ _, known_next_hop id (outputs self)) (routes self) →
  map_Forall (λ _, known_next_hop id (outputs self)) (routes (step self ev)).
Proof.
  intros Htbl. destruct ev as [sender advertised now|now]; simpl.
  - destruct (find_neighbor (outputs self) sender) as [out|] eqn:Hfind.
    2:{ unfold process_update. by rewrite Hfind. }
    apply find_neighbor_Some in Hfind as [Hin Hid].
    apply (process_update_Forall (known_next_hop id (outputs self))); [|done].
    intros out' cur r changed _ _. apply Forall_forall. intros adv _ Hupd.
    apply update_slot_candidate in Hupd as [Hnh _]. right. rewrite Hnh, <- Hid.
    by apply list_elem_of_fmap_2.
  - intros d r Hr. apply check_timeouts_next_hop in Hr as (r0 & Hr0 & Hnh).
    unfold known_next_hop. rewrite Hnh. by apply (Htbl d r0).
Qed.

(** X8.  Every route points to someone the router can send to: after any
    updates and sweeps from [__init__], the next hop of every stored route
    is the router itself or the id of a configured output. *)
Theorem next_hop_is_a_neighbor (id : Z) (outs : list (Z * Z * Z)) (rt gt t0 : Z)
    (evs : list event) (d : Z) (r : route) :
  routes (run (init id outs rt gt t0) evs) !! d = Some r →
  next_hop_id r = id ∨ next_hop_id r ∈ outs.*2.
Proof.
  assert (map_Forall (λ _, known_next_hop id outs) (routes (init id outs rt gt t0)))
    as Hinit.
  { apply (init_Forall (known_next_hop id outs)).
    - intros ts. by left.
    - apply Forall_forall. intros out Hout. right. simpl.
      by apply list_elem_of_fmap_2. }
  assert (outputs (init id outs rt gt t0) = outs) as Houts by done.
  revert Hinit Houts. generalize (init id outs rt gt t0). intros self.
  revert self. induction evs as [|ev evs IH]; intros self Hinit Houts Hr.
  { by apply (Hinit d r). }
  apply (IH (step self ev)); [|by rewrite step_outputs|done].
  rewrite <- Houts. apply step_known_next_hop. by rewrite Houts.
Qed.

Lemma next_hop_is_a_neighbor_witness :
  let r := Route 4 5 (At 5) false in
  next_hop_id r = 1 ∨ next_hop_id r ∈ [(5002, 1, 2); (5003, 3, 4)].*2.
Proof.
  apply (next_hop_is_a_neighbor 1 [(5002, 1, 2); (5003, 3, 4)] 180 120 0
           [Update 4 [(3, 2)] 5; Update 2 [(3, 4)] 7; Update 9 [(3, 0)] 8] 3).
  vm_compute. reflexivity.
Defined.

Lemma update_slot_live_is_finite (sender base now m : Z) (cur : option route) (r : route)
    (changed : bool) :
  (∀ c, cur = Some c → live_is_finite c) →
  update_slot sender base now cur m = Some (r, changed) → live_is_finite r.
Proof.
  unfold update_slot, live_is_finite, INFINITY. intros Hcur.
  destruct cur as [[nh cm ts g]|].
  - specialize (Hcur _ eq_refl). simpl in Hcur. destruct Hcur as [Hle Hlive].
    repeat case_bool_decide; simpl; intros [= <- <-]; simpl;
      (split; [lia | intros Hg; try specialize (Hlive Hg); done || lia]).
  - case_bool_decide; [|done]. intros [= <- <-]. simpl. lia.
Qed.

Lemma step_live_is_finite (self : router) (ev : event) :
  map_Forall (λ _, live_is_finite) (routes self) →
  map_Forall (λ _, live_is_finite) (routes (step self ev)).
Proof.
  intros Htbl. destruct ev as [sender advertised now|now]; simpl.
  - apply (process_update_Forall live_is_finite); [|done].
    intros out cur r changed _ Hcur. apply Forall_forall. intros adv _ Hupd.
    by eapply update_slot_live_is_finite.
  - apply (check_timeouts_Forall live_is_finite); [|done].
    intros nh. split; simpl; [unfold INFINITY; lia | done].
Qed.

(** X9.  No live route is unreachable: with the link costs [parse_config]
    accepts (1 to 15), after any updates and sweeps from [__init__], and
    whatever metrics were advertised, a stored route with metric INFINITY
    always has its garbage flag set, so it is on its way to deletion. *)
Theorem unreachable_routes_are_condemned (id : Z) (outs : list (Z * Z * Z)) (rt gt t0 : Z)
    (evs : list event) (d : Z) (r : route) :
  valid_outputs outs →
  routes (run (init id outs rt gt t0) evs) !! d = Some r →
  metric r = INFINITY → garbage r = true.
Proof.
  intros Hvalid.
  assert (map_Forall (λ _, live_is_finite) (routes (init id outs rt gt t0))) as Hinit.
  { apply (init_Forall live_is_finite).
    - intros ts. split; simpl; unfold INFINITY; lia.
    - eapply Forall_impl; [exact Hvalid|]. intros [[p m] n] [Hm _].
      split; simpl; unfold INFINITY; lia. }
  revert Hinit. generalize (init id outs rt gt t0). intros self.
  revert self. induction evs as [|ev evs IH]; intros self Hinit Hr Hm.
  - destruct (Hinit d r Hr) as [_ Hlive]. destruct (garbage r); [done|].
    specialize (Hlive eq_refl). lia.
  - apply (IH (step self ev)); [|done|done]. by apply step_live_is_finite.
Qed.

Lemma unreachable_routes_are_condemned_witness :
  let r := Route 2 16 (At 9) true in
  garbage r = true.
Proof.
  apply (unreachable_routes_are_condemned 1 [(5002, 1, 2)] 180 120 0
           [Update 2 [(3, 4)] 7; Update 2 [(3, 15)] 9] 3).
  - repeat constructor; simpl; lia.
  - vm_compute. reflexivity.
  - reflexivity.
Defined.

End AiRouterInvariants.

(** ** [get_routing_table] *)

Section RoutingTableListing.
Import AiRouter.

Lemma row_of_route_None (now d : Z) (r : route) :
  (let '(dest_id, Route next_hop m ts g) := (d, r) in
   a ← age now ts; Some (dest_id, next_hop, m, a, g)) = None
  ↔ timestamp r = Inf.
Proof. destruct r as [nh m [t|] g]; simpl; split; done. Qed.

Lemma get_routing_table_None (self : router) (now : Z) :
  get_routing_table self now = None
  ↔ ∃ d r, routes self !! d = Some r ∧ timestamp r = Inf.
Proof.
  unfold get_routing_table. split.
  - destruct (mapM _ _) as [table|] eqn:Hmap; [done|]. intros _.
    apply mapM_None_1, Exists_exists in Hmap as ([d r] & Hin & Hnone).
    exists d, r. split; [by apply elem_of_map_to_list|].
    by apply (row_of_route_None now d r).
  - intros (d & r & Hr & Hinf).
    rewrite (mapM_None_2 _ (map_to_list (routes self))); [done|].
    apply Exists_exists. exists (d, r). split; [by apply elem_of_map_to_list|].
    by apply (row_of_route_None now d r).
Qed.

(** X10.  [get_routing_table] raises exactly when some route carries the
    infinite timestamp ([int] of an infinite float); the router's own
    route always does, so on every table the router reaches from
    [__init__] by updates and sweeps, the call raises, and with it
    [print_routing_table]. *)
Theorem get_routing_table_raises :
  (∀ self now,
     get_routing_table self now = None
     ↔ ∃ d r, routes self !! d = Some r ∧ timestamp r = Inf)
  ∧ (∀ id outs rt gt t0 evs now,
       get_routing_table (run (init id outs rt gt t0) evs) now = None).
Proof.
  split; [apply get_routing_table_None|].
  intros id outs rt gt t0 evs now. apply get_routing_table_None.
  exists id, (Route id 0 Inf false). split; [|done].
  destruct (run_own_route (init id outs rt gt t0) evs) as [_ Hown].
  cbn [router_id init] in Hown. rewrite Hown.
  unfold init. cbn [routes]. apply lookup_insert_eq.
Qed.

End RoutingTableListing.

(** ** One exchange between two routers *)

Section Exchange.
Import AiRouter.

Lemma routes_to_send_dests (tbl : gmap Z route) (n : Z) :
  (routes_to_send tbl n).*1 = (map_to_list tbl).*1.
Proof.
  unfold routes_to_send. rewrite <- list_fmap_compose.
  apply Forall_fmap_ext_1, Forall_forall. intros [d [nh m ts g]] _. simpl.
  by case_bool_decide.
Qed.

Lemma routes_to_send_elem (tbl : gmap Z route) (n d m : Z) :
  (d, m) ∈ routes_to_send tbl n
  ↔ ∃ r, tbl !! d = Some r ∧ m = poisoned n (next_hop_id r) (metric r).
Proof.
  unfold routes_to_send, poisoned. rewrite list_elem_of_fmap. split.
  - intros ([d' [nh m' ts g]] & Heq & Hin%elem_of_map_to_list). simpl.
    case_bool_decide; injection Heq as -> ->; eexists; (split; [done|]); simpl;
      by case_bool_decide.
  - intros ([nh m' ts g] & Hr & ->). exists (d, Route nh m' ts g).
    split; [simpl; by case_bool_decide | by apply elem_of_map_to_list].
Qed.

Lemma routes_to_send_wire (tbl : gmap Z route) (n : Z) :
  wire_table tbl → Forall wire_route (routes_to_send tbl n).
Proof.
  intros Hwire. apply Forall_forall. intros [d m] (r & Hr & ->)%routes_to_send_elem.
  destruct (Hwire d r Hr) as [Hd Hm]. split; [done|]. unfold poisoned. simpl.
  case_bool_decide; [unfold INFINITY; lia | done].
Qed.

(** What the neighbour [n] gets out of the datagram built for it. *)
Lemma advertisement_received (self : router) (n : Z) :
  0 <= router_id self < 65536 → wire_table (routes self) → (size (routes self) ≤ 102)%nat →
  ∃ packet, create_response (router_id self) (routes_to_send (routes self) n) = Some packet
            ∧ parse (take RECV_BUFSIZE packet)
              = Some (Packet COMMAND_RESPONSE VERSION (router_id self)
                        (routes_to_send (routes self) n)).
Proof.
  intros Hid Hwire Hsize.
  pose proof (routes_to_send_wire _ n Hwire) as Hroutes.
  destruct (received_packet (router_id self) (routes_to_send (routes self) n) Hid
              (wire_route_packable _ Hroutes)) as (packet & Hpacket & Hparse).
  exists packet. split; [done|]. rewrite Hparse.
  rewrite take_ge, filter_wire_routes; [done|done|].
  unfold routes_to_send. by rewrite length_fmap, length_map_to_list.
Qed.

(** X12.  Sending and receiving compose: for a router whose id fits the
    header field, whose table can be encoded (destinations within 32 bits,
    metrics in [0, 16]) and has at most 102 routes, [send_updates] succeeds
    and what each neighbour decodes from its datagram, read through
    [recvfrom(2048)], is a RESPONSE from this router carrying exactly the
    list built for that neighbour, each destination of the table once. *)
Theorem neighbor_decodes_its_update (self : router) :
  0 <= router_id self < 65536 → wire_table (routes self) → (size (routes self) ≤ 102)%nat →
  ∃ sent,
    send_updates self = Some sent
    ∧ Forall2 (λ out dgram,
                 dgram.1 = out.1.1
                 ∧ parse (take RECV_BUFSIZE dgram.2)
                   = Some (Packet COMMAND_RESPONSE VERSION (router_id self)
                             (routes_to_send (routes self) out.2))
                 ∧ NoDup (routes_to_send (routes self) out.2).*1)
              (outputs self) sent.
Proof.
  intros Hid Hwire Hsize. unfold send_updates.
  assert (is_Some (mapM (λ '(out_port, _, neighbor_id),
                           packet ← create_response (router_id self)
                                      (routes_to_send (routes self) neighbor_id);
                           Some (out_port, packet)) (outputs self))) as [sent Hsent].
  { apply mapM_is_Some_2, Forall_forall. intros [[port c] n] _. simpl.
    destruct (advertisement_received self n Hid Hwire Hsize) as (packet & -> & _).
    by eexists. }
  exists sent. split; [done|]. apply mapM_Some_1 in Hsent.
  eapply Forall2_impl; [exact Hsent|]. intros [[port c] n] [port' packet]. simpl.
  destruct (advertisement_received self n Hid Hwire Hsize) as (p & Hp & Hparse).
  rewrite Hp. simpl. intros [= <- <-]. split; [done|]. split; [done|].
  rewrite routes_to_send_dests. apply NoDup_fst_map_to_list.
Qed.

Lemma neighbor_decodes_its_update_witness :
  let self := (process_update (init 1 [(5002, 5, 2); (5003, 1, 4)] 180 120 0)
                 2 [(3, 1)] 7).2 in
  ∃ sent,
    send_updates self = Some sent
    ∧ Forall2 (λ out dgram,
                 dgram.1 = out.1.1
                 ∧ parse (take RECV_BUFSIZE dgram.2)
                   = Some (Packet COMMAND_RESPONSE VERSION (router_id self)
                             (routes_to_send (routes self) out.2))
                 ∧ NoDup (routes_to_send (routes self) out.2).*1)
              (outputs self) sent.
Proof.
  apply (neighbor_decodes_its_update
           (process_update (init 1 [(5002, 5, 2); (5003, 1, 4)] 180 120 0) 2 [(3, 1)] 7).2).
  - vm_compute. split; congruence.
  - apply (bool_decide_unpack _). vm_compute. exact I.
  - vm_compute. lia.
Defined.

End Exchange.

Section ExchangeEffect.
Import AiRouter.

Lemma elem_of_keys_ai (tbl : gmap Z route) (d : Z) :
  d ∈ (map_to_list tbl).*1 → is_Some (tbl !! d).
Proof.
  intros ([k r] & -> & Hkr%elem_of_map_to_list)%list_elem_of_fmap. by eexists.
Qed.

(** The route one advertisement leaves at its destination depends on the
    route that was there and on nothing else of the table. *)
Lemma process_route_slot_lookup (self_id sender base now : Z) (tbl : gmap Z route)
    (tm : bool) (d m : Z) :
  (process_route self_id sender base now (tbl, tm) (d, m)).1 !! d
  = if bool_decide (d = self_id) then tbl !! d
    else match update_slot sender base now (tbl !! d) m with
         | Some (r, _) => Some r
         | None => tbl !! d
         end.
Proof.
  rewrite process_route_slot. case_bool_decide; [done|].
  destruct (update_slot _ _ _ _ _) as [[r changed]|]; [|done].
  cbn [fst]. apply lookup_insert_eq.
Qed.

(** With pairwise distinct destinations, the route of a listed destination
    is what its own advertisement makes of the route that was there. *)
Lemma process_routes_lookup (self_id sender base now : Z) (advertised : list (Z * Z))
    (tbl : gmap Z route) (tm : bool) (d m : Z) :
  NoDup advertised.*1 → (d, m) ∈ advertised →
  (foldl (process_route self_id sender base now) (tbl, tm) advertised).1 !! d
  = (process_route self_id sender base now (tbl, false) (d, m)).1 !! d.
Proof.
  revert tbl tm. induction advertised as [|[k mk] advertised IH]; intros tbl tm Hnd Hin.
  { by apply not_elem_of_nil in Hin. }
  rewrite fmap_cons in Hnd. apply NoDup_cons in Hnd as [Hk Hnd]. cbn [foldl].
  apply elem_of_cons in Hin as [[= <- <-]|Hin].
  - rewrite process_routes_other by done. by rewrite !process_route_slot_lookup.
  - assert (d ≠ k) as Hne.
    { intros ->. apply Hk. by apply (list_elem_of_fmap_2 fst _ (k, m)). }
    destruct (process_route self_id sender base now (tbl, tm) (k, mk)) as [tbl1 tm1] eqn:Hstep.
    rewrite (IH tbl1 tm1 Hnd Hin), !process_route_slot_lookup.
    replace (tbl1 !! d) with (tbl !! d); [done|].
    pose proof (process_route_other self_id sender base now (tbl, tm) (k, mk) d Hne) as Ho.
    by rewrite Hstep in Ho.
Qed.

(** What becomes of destination [d] in router [receiver] when it handles
    the update [sender] built for it. *)
Lemma exchange_lookup (sender receiver : router) (now d : Z) :
  routes (process_update receiver (router_id sender)
            (routes_to_send (routes sender) (router_id receiver)) now).2 !! d
  = routes (process_update receiver (router_id sender)
              match routes sender !! d with
              | Some r => [(d, poisoned (router_id receiver) (next_hop_id r) (metric r))]
              | None => []
              end now).2 !! d.
Proof.
  unfold process_update.
  destruct (find_neighbor (outputs receiver) (router_id sender)) as [[[port base] n]|];
    [|done].
  pose proof (process_routes_lookup (router_id receiver) (router_id sender) base now
                (routes_to_send (routes sender) (router_id receiver))
                (routes receiver) false d) as Hin.
  pose proof (process_routes_other (router_id receiver) (router_id sender) base now
                (routes_to_send (routes sender) (router_id receiver))
                (routes receiver, false) d) as Hout.
  destruct (foldl _ _ (routes_to_send _ _)) as [tbl tm].
  cbn [fst snd routes set_routes] in *.
  destruct (routes sender !! d) as [r|] eqn:Hr.
  - cbn [foldl].
    rewrite (Hin (poisoned (router_id receiver) (next_hop_id r) (metric r))).
    + by destruct (process_route _ _ _ _ _ _).
    + rewrite routes_to_send_dests. apply NoDup_fst_map_to_list.
    + apply routes_to_send_elem. by exists r.
  - cbn [foldl fst]. apply Hout.
    rewrite routes_to_send_dests. intros Hd%elem_of_keys_ai. by rewrite Hr in Hd.
Qed.

Lemma handle_advertisement (sender receiver : router) (now : Z) :
  0 <= router_id sender < 65536 → wire_table (routes sender) →
  (size (routes sender) ≤ 102)%nat →
  ∃ packet,
    create_response (router_id sender)
      (routes_to_send (routes sender) (router_id receiver)) = Some packet
    ∧ handle_datagram receiver (take RECV_BUFSIZE packet) now
      = process_update receiver (router_id sender)
          (routes_to_send (routes sender) (router_id receiver)) now.
Proof.
  intros Hid Hwire Hsize.
  destruct (advertisement_received sender (router_id receiver) Hid Hwire Hsize)
    as (packet & Hpacket & Hparse).
  exists packet. split; [done|]. unfold handle_datagram. rewrite Hparse.
  by rewrite bool_decide_eq_true_2.
Qed.

(** X13.  One exchange, destination by destination.  When a router whose
    table can be encoded (id within 16 bits, destinations within 32 bits,
    metrics in [0, 16], at most 102 routes) sends its update to a
    neighbour and the neighbour handles the datagram, the neighbour's
    route to any destination [d] ends up as if [process_update] had been
    called with the single advertisement for [d] (INFINITY if the
    sender's route to [d] goes through the receiver, the sender's metric
    otherwise), or with none if the sender has no route to [d]. *)
Theorem exchange_updates_each_destination (sender receiver : router) (now d : Z) :
  0 <= router_id sender < 65536 → wire_table (routes sender) →
  (size (routes sender) ≤ 102)%nat →
  ∃ packet,
    create_response (router_id sender)
      (routes_to_send (routes sender) (router_id receiver)) = Some packet
    ∧ routes (handle_datagram receiver (take RECV_BUFSIZE packet) now).2 !! d
      = routes (process_update receiver (router_id sender)
                  match routes sender !! d with
                  | Some r =>
                      [(d, poisoned (router_id receiver) (next_hop_id r) (metric r))]
                  | None => []
                  end now).2 !! d.
Proof.
  intros Hid Hwire Hsize.
  destruct (handle_advertisement sender receiver now Hid Hwire Hsize)
    as (packet & Hpacket & Hhandle).
  exists packet. split; [done|]. rewrite Hhandle. apply exchange_lookup.
Qed.

Lemma exchange_updates_each_destination_witness :
  let sender := (process_update (init 1 [(5002, 5, 2); (5003, 1, 4)] 180 120 0)
                   4 [(3, 1)] 7).2 in
  let receiver := init 2 [(5001, 5, 1)] 180 120 0 in
  ∃ packet,
    create_response (router_id sender)
      (routes_to_send (routes sender) (router_id receiver)) = Some packet
    ∧ routes (handle_datagram receiver (take RECV_BUFSIZE packet) 9).2 !! 3
      = routes (process_update receiver (router_id sender)
                  match routes sender !! 3 with
                  | Some r =>
                      [(3, poisoned (router_id receiver) (next_hop_id r) (metric r))]
                  | None => []
                  end 9).2 !! 3.
Proof.
  apply (exchange_updates_each_destination
           (process_update (init 1 [(5002, 5, 2); (5003, 1, 4)] 180 120 0) 4 [(3, 1)] 7).2
           (init 2 [(5001, 5, 1)] 180 120 0) 9 3).
  - vm_compute. split; congruence.
  - apply (bool_decide_unpack _). vm_compute. exact I.
  - vm_compute. lia.
Defined.

Lemma find_neighbor_cost (outs : list (Z * Z * Z)) (sender port base n : Z) :
  link_costs_ok outs → find_neighbor outs sender = Some (port, base, n) → 0 <= base.
Proof.
  intros Hcost [Hin _]%find_neighbor_Some.
  unfold link_costs_ok in Hcost. rewrite Forall_forall in Hcost.
  by destruct (Hcost _ Hin).
Qed.

(** X14.  Poisoned reverse does its job at the receiving end: if the
    sender's route to [d] goes through the receiver, then handling the
    sender's update never makes the receiver adopt a route to [d] through
    the sender: a receiver with no route to [d], or with a route to [d]
    through someone else, keeps exactly what it had.  (Link costs not
    negative, stored metric at most INFINITY.) *)
Theorem no_route_back_through_sender (sender receiver : router) (now d : Z) (r : route) :
  0 <= router_id sender < 65536 → wire_table (routes sender) →
  (size (routes sender) ≤ 102)%nat →
  link_costs_ok (outputs receiver) →
  routes sender !! d = Some r → next_hop_id r = router_id receiver →
  (∀ c, routes receiver !! d = Some c →
        next_hop_id c ≠ router_id sender ∧ metric c <= INFINITY) →
  ∃ packet,
    create_response (router_id sender)
      (routes_to_send (routes sender) (router_id receiver)) = Some packet
    ∧ routes (handle_datagram receiver (take RECV_BUFSIZE packet) now).2 !! d
      = routes receiver !! d.
Proof.
  intros Hid Hwire Hsize Hcost Hr Hvia Hcur.
  destruct (handle_advertisement sender receiver now Hid Hwire Hsize)
    as (packet & Hpacket & Hhandle).
  exists packet. split; [done|]. rewrite Hhandle, exchange_lookup, Hr.
  unfold poisoned. rewrite bool_decide_eq_true_2 by done.
  unfold process_update.
  destruct (find_neighbor (outputs receiver) (router_id sender)) as [[[port base] n]|]
    eqn:Hfind; [|done].
  pose proof (find_neighbor_cost _ _ _ _ _ Hcost Hfind) as Hbase.
  cbn [foldl].
  pose proof (process_route_slot_lookup (router_id receiver) (router_id sender) base now
                (routes receiver) false d INFINITY) as Hslot.
  destruct (process_route _ _ _ _ _ _) as [tbl tm]. cbn [fst snd routes set_routes] in *.
  rewrite Hslot. case_bool_decide; [done|].
  unfold update_slot. replace (Z.min (base + INFINITY) INFINITY) with INFINITY by lia.
  destruct (routes receiver !! d) as [[nh cm ts g]|] eqn:Hc.
  - destruct (Hcur _ eq_refl) as [Hnh Hcm]. simpl in Hnh, Hcm.
    rewrite bool_decide_eq_false_2 by done.
    by rewrite bool_decide_eq_false_2 by lia.
  - by rewrite bool_decide_eq_false_2 by lia.
Qed.

Lemma no_route_back_through_sender_witness :
  let sender := (process_update (init 1 [(5002, 5, 2)] 180 120 0) 2 [(3, 1)] 7).2 in
  let receiver := Router 2 [(5001, 5, 1); (5003, 1, 3)]
                    {[3 := Route 3 1 (At 0) false]} 180 120 in
  ∃ packet,
    create_response (router_id sender)
      (routes_to_send (routes sender) (router_id receiver)) = Some packet
    ∧ routes (handle_datagram receiver (take RECV_BUFSIZE packet) 9).2 !! 3
      = routes receiver !! 3.
Proof.
  apply (no_route_back_through_sender
           (process_update (init 1 [(5002, 5, 2)] 180 120 0) 2 [(3, 1)] 7).2
           (Router 2 [(5001, 5, 1); (5003, 1, 3)] {[3 := Route 3 1 (At 0) false]} 180 120)
           9 3 (Route 2 6 (At 7) false)).
  - vm_compute. split; congruence.
  - apply (bool_decide_unpack _). vm_compute. exact I.
  - vm_compute. lia.
  - repeat constructor; simpl; unfold INFINITY; lia.
  - vm_compute. reflexivity.
  - reflexivity.
  - intros c. vm_compute. intros [= <-]. split; [congruence | done].
Defined.

End ExchangeEffect.

(** ** Invariants of the tables [1Server.py] reaches *)

Section ServerInvariants.
Import Server.

Lemma resolve_slot_dst (self : router) (src_id now : Z) (cur : option Entry.t)
    (entry new : Entry.t) (t : bool) :
  (∀ c, cur = Some c → Entry.dst_id c = Entry.dst_id entry) →
  resolve_slot self src_id now cur entry = Some (new, t) →
  Entry.dst_id new = Entry.dst_id entry.
Proof.
  unfold resolve_slot. intros Hcur. destruct cur as [c|].
  - specialize (Hcur c eq_refl).
    destruct (Entry.garbage_flag c && _); [by intros [= <- <-]|].
    case_bool_decide.
    { repeat case_bool_decide; intros [= <- <-]; done. }
    destruct (_ || _); [|done].
    case_bool_decide; by intros [= <- <-].
  - case_bool_decide; [|done]. by intros [= <- <-].
Qed.

Lemma resolve_entry_wf (self : router) (src_id now : Z) (st : gmap Z Entry.t * bool)
    (e : Entry.t) :
  wf_table st.1 → wf_table (resolve_entry self src_id now st e).1.
Proof.
  destruct st as [tbl trig]. cbn [fst]. intros Hwf. rewrite resolve_entry_slot.
  case_bool_decide; [|done].
  destruct (resolve_slot _ _ _ _ _) as [[new t]|] eqn:Hslot; [|done].
  cbn [fst]. apply map_Forall_insert_2; [|done].
  apply resolve_slot_dst in Hslot; [done|].
  intros c Hc. by apply Hwf.
Qed.

Lemma resolve_entry_own (self : router) (src_id now : Z) (st : gmap Z Entry.t * bool)
    (e : Entry.t) :
  (resolve_entry self src_id now st e).1 !! id self = st.1 !! id self.
Proof.
  destruct st as [tbl trig]. rewrite resolve_entry_slot.
  case_bool_decide; [|done].
  destruct (resolve_slot _ _ _ _ _) as [[new t]|]; [|done].
  cbn [fst]. by rewrite lookup_insert_ne.
Qed.

Lemma resolve_update_wf_own (self : router) (src_id : Z) (es : list Entry.t) (now : Z) :
  (wf_table (routing_table self) →
   wf_table (routing_table (resolve_update self src_id es now)))
  ∧ routing_table (resolve_update self src_id es now) !! id self
    = routing_table self !! id self.
Proof.
  unfold resolve_update.
  assert (∀ st, (wf_table st.1 →
                 wf_table (foldl (resolve_entry self src_id now) st es).1)
                ∧ (foldl (resolve_entry self src_id now) st es).1 !! id self
                  = st.1 !! id self) as Hfold.
  { induction es as [|e es IH]; intros st; [done|].
    cbn [foldl]. destruct (IH (resolve_entry self src_id now st e)) as [Hwf Hown].
    split.
    - intros Hst. by apply Hwf, resolve_entry_wf.
    - by rewrite Hown, resolve_entry_own. }
  specialize (Hfold (routing_table self, triggered_update_call self)).
  by destruct (foldl _ _ _).
Qed.

Lemma check_garbage_wf_own (self : router) (now : Z) :
  (wf_table (routing_table self) → wf_table (routing_table (check_garbage self now)))
  ∧ (routing_table self !! id self = None →
     routing_table (check_garbage self now) !! id self = None).
Proof.
  unfold check_garbage. cbn [routing_table set_table]. split.
  - generalize (remove_list self now). intros ids. generalize (routing_table self).
    induction ids as [|k ids IH]; intros tbl Htbl; [done|].
    simpl. apply IH. by apply map_Forall_delete.
  - intros Hnone. rewrite foldl_delete_lookup. by case_decide.
Qed.

Lemma clear_flags_wf_own (self : router) (tbl : gmap Z Entry.t) :
  (wf_table tbl →
   wf_table ((λ e, if Entry.changed_flag e then Entry.set_changed_flag e false else e)
             <$> tbl))
  ∧ (tbl !! id self = None →
     ((λ e, if Entry.changed_flag e then Entry.set_changed_flag e false else e)
      <$> tbl) !! id self = None).
Proof.
  split.
  - intros Hwf k e. rewrite lookup_fmap.
    destruct (tbl !! k) as [c|] eqn:Hc; [|done]. simpl. intros [= <-].
    rewrite <- (Hwf k c Hc). by destruct (Entry.changed_flag c).
  - intros Hnone. by rewrite lookup_fmap, Hnone.
Qed.

Lemma server_step_id (self : router) (ev : event) : id (step self ev) = id self.
Proof.
  destruct ev; simpl; try done.
  - apply resolve_update_fields.
  - apply check_timeout_fields.
Qed.

Lemma server_step_wf_own (self : router) (ev : event) :
  wf_table (routing_table self) → routing_table self !! id self = None →
  wf_table (routing_table (step self ev))
  ∧ routing_table (step self ev) !! id self = None.
Proof.
  intros Hwf Hown. destruct ev as [src_id es now|now|now| |]; simpl.
  - destruct (resolve_update_wf_own self src_id es now) as [Hw Ho].
    split; [by apply Hw | by rewrite Ho].
  - split; [by apply check_timeout_wf|].
    by rewrite check_timeout_lookup, Hown.
  - destruct (check_garbage_wf_own self now) as [Hw Ho]. split; [by apply Hw | by apply Ho].
  - destruct (clear_flags_wf_own self (routing_table self)) as [Hw Ho].
    split; [by apply Hw | by apply Ho].
  - destruct (clear_flags_wf_own self (routing_table self)) as [Hw Ho].
    split; [by apply Hw | by apply Ho].
Qed.

Lemma server_run_wf_own (self : router) (evs : list event) :
  wf_table (routing_table self) → routing_table self !! id self = None →
  wf_table (routing_table (run self evs))
  ∧ routing_table (run self evs) !! id self = None.
Proof.
  revert self. induction evs as [|ev evs IH]; intros self Hwf Hown; [done|].
  unfold run in *. cbn [foldl].
  destruct (server_step_wf_own self ev Hwf Hown) as [Hwf' Hown'].
  rewrite <- (server_step_id self ev) in Hown' |- *. by apply IH.
Qed.

(** X15.  In [1Server.py] the table is well kept: after any sequence of
    [resolve_update], [check_timeout], [check_garbage], [periodic_update]
    and [triggered_update] calls from the empty table, every entry is
    stored under its own [dst_id] (so the lookups by [entry.dst_id] of the
    sweeps never miss) and the router's own id is never a destination. *)
Theorem server_table_is_well_kept (router_id tv : Z) (outs : list OutputInterface)
    (evs : list event) :
  wf_table (routing_table (run (init router_id outs tv) evs))
  ∧ routing_table (run (init router_id outs tv) evs) !! router_id = None.
Proof.
  apply (server_run_wf_own (init router_id outs tv) evs).
  - apply map_Forall_empty.
  - apply lookup_empty.
Qed.

Lemma filter_changed_none (es : list Entry.t) :
  Forall (λ e, Entry.changed_flag e = false) es →
  filter (λ e, Entry.changed_flag e = true) es = [].
Proof.
  induction 1 as [|e es He _ IH]; [done|].
  rewrite filter_cons, decide_False by congruence. done.
Qed.

(** A table whose entries all have their changed flag cleared. *)
Lemma changed_entries_cleared (self : router) (tbl : gmap Z Entry.t) (trig : bool) :
  changed_entries
    (set_table self
       ((λ e, if Entry.changed_flag e then Entry.set_changed_flag e false else e) <$> tbl)
       trig) = [].
Proof.
  unfold changed_entries. cbn [routing_table set_table].
  apply filter_changed_none, Forall_forall.
  intros e ([k e'] & -> & Hin%elem_of_map_to_list)%list_elem_of_fmap.
  rewrite lookup_fmap in Hin. destruct (tbl !! k) as [c|]; [|done].
  simpl in Hin. injection Hin as <-. simpl.
  destruct (Entry.changed_flag c) eqn:Hc; [done|]. by rewrite Hc.
Qed.

Lemma triggered_update_nothing (self : router) :
  changed_entries self = [] → (triggered_update self).1 = [].
Proof.
  unfold triggered_update. fold (changed_entries self). intros ->. done.
Qed.

(** X16.  Changes are advertised once.  After a [triggered_update] or a
    [periodic_update] no entry is marked changed, [triggered_update_call]
    is down and a [triggered_update] that follows sends nothing; and
    neither broadcast alters anything in the table but the changed
    flags. *)
Theorem changes_are_advertised_once (self : router) :
  changed_entries (triggered_update self).2 = []
  ∧ changed_entries (periodic_update self).2 = []
  ∧ triggered_update_call (triggered_update self).2 = false
  ∧ triggered_update_call (periodic_update self).2 = false
  ∧ (triggered_update (triggered_update self).2).1 = []
  ∧ (triggered_update (periodic_update self).2).1 = []
  ∧ (∀ d, routing_table (triggered_update self).2 !! d
          = (λ e, Entry.set_changed_flag e false) <$> routing_table self !! d)
  ∧ (∀ d, routing_table (periodic_update self).2 !! d
          = (λ e, Entry.set_changed_flag e false) <$> routing_table self !! d).
Proof.
  assert (∀ d, ((λ e, if Entry.changed_flag e then Entry.set_changed_flag e false else e)
                <$> routing_table self) !! d
               = (λ e, Entry.set_changed_flag e false) <$> routing_table self !! d) as Hflags.
  { intros d. rewrite lookup_fmap. destruct (routing_table self !! d) as [c|]; [|done].
    simpl. f_equal. destruct c as [dst nh m ch g to gt]. by destruct ch. }
  repeat split; try done.
  - apply changed_entries_cleared.
  - apply changed_entries_cleared.
  - apply triggered_update_nothing, changed_entries_cleared.
  - apply triggered_update_nothing, changed_entries_cleared.
Qed.

End ServerInvariants.

(** ** [1Server.py]: condemned entries, frames and removals *)

Section ServerLifecycle.
Import Server.

Lemma resolve_slot_condemned (self : router) (src_id now : Z) (cur : option Entry.t)
    (entry new : Entry.t) (t : bool) :
  Entry.garbage_flag entry = false →
  (∀ c, cur = Some c → condemned_is_unreachable c) →
  resolve_slot self src_id now cur entry = Some (new, t) →
  condemned_is_unreachable new.
Proof.
  unfold resolve_slot, condemned_is_unreachable. intros He Hcur.
  destruct cur as [c|].
  - specialize (Hcur c eq_refl).
    destruct (Entry.garbage_flag c && _); [intros [= <- <-]; simpl; congruence|].
    case_bool_decide.
    { repeat case_bool_decide; intros [= <- <-]; simpl; done || congruence. }
    destruct (_ || _); [|done].
    case_bool_decide; intros [= <- <-]; simpl; done || congruence.
  - case_bool_decide; [|done]. intros [= <- <-]. simpl. congruence.
Qed.

Lemma server_step_condemned (self : router) (ev : event) :
  unflagged_entries ev →
  map_Forall (λ _, condemned_is_unreachable) (routing_table self) →
  map_Forall (λ _, condemned_is_unreachable) (routing_table (step self ev)).
Proof.
  intros Hev Htbl. destruct ev as [src_id es now|now|now| |]; simpl.
  - apply (resolve_update_Forall condemned_is_unreachable); [|done].
    simpl in Hev. eapply Forall_impl; [exact Hev|].
    intros e He cur new t Hcur Hslot.
    by apply resolve_slot_condemned in Hslot.
  - apply (check_timeout_Forall condemned_is_unreachable); [|done].
    intros c Hc. unfold condemn. by destruct (_ && _).
  - by apply (check_garbage_Forall condemned_is_unreachable).
  - by apply (clear_flags_Forall condemned_is_unreachable).
  - by apply (clear_flags_Forall condemned_is_unreachable).
Qed.

(** X17.  In [1Server.py] a condemned entry is always unreachable: after
    any sequence of calls from the empty table, the decoded entries being
    fresh objects, every stored entry with its garbage flag set has metric
    INFINITY. *)
Theorem condemned_entries_are_unreachable (router_id tv : Z) (outs : list OutputInterface)
    (evs : list event) (d : Z) (e : Entry.t) :
  Forall unflagged_entries evs →
  routing_table (run (init router_id outs tv) evs) !! d = Some e →
  Entry.garbage_flag e = true → Entry.metric e = INFINITY.
Proof.
  intros Hevs.
  assert (map_Forall (λ _, condemned_is_unreachable)
            (routing_table (init router_id outs tv))) as Hinit
    by apply map_Forall_empty.
  revert Hinit. generalize (init router_id outs tv). intros self. revert self.
  induction Hevs as [|ev evs Hev _ IH]; intros self Hinit Hd.
  - by apply (Hinit d e).
  - apply (IH (step self ev)); [|done]. by apply server_step_condemned.
Qed.

Lemma condemned_entries_are_unreachable_witness :
  let e := Entry.Make 3 2 16 true true 0 200 in
  Entry.metric e = INFINITY.
Proof.
  apply (condemned_entries_are_unreachable 1 30 [Output 2 5 5002]
           [Resolve 2 [Entry.new 3 2 4] 0; CheckTimeout 200] 3).
  - repeat constructor.
  - vm_compute. reflexivity.
  - reflexivity.
Defined.

Lemma resolve_entry_keeps (self : router) (src_id now : Z) (st : gmap Z Entry.t * bool)
    (e : Entry.t) (d : Z) :
  is_Some (st.1 !! d) → is_Some ((resolve_entry self src_id now st e).1 !! d).
Proof.
  destruct st as [tbl trig]. cbn [fst]. intros Hd. rewrite resolve_entry_slot.
  case_bool_decide; [|done].
  destruct (resolve_slot _ _ _ _ _) as [[new t]|]; [|done].
  cbn [fst]. rewrite lookup_insert_is_Some.
  destruct (decide (Entry.dst_id e = d)); [by left | by right].
Qed.

Lemma resolve_entry_trigger (self : router) (src_id now : Z) (st : gmap Z Entry.t * bool)
    (e : Entry.t) :
  st.2 = true → (resolve_entry self src_id now st e).2 = true.
Proof.
  destruct st as [tbl trig]. cbn [snd]. intros ->. rewrite resolve_entry_slot.
  case_bool_decide; [|done].
  by destruct (resolve_slot _ _ _ _ _) as [[new t]|].
Qed.

Lemma resolve_entries_keep (self : router) (src_id now : Z) (es : list Entry.t)
    (st : gmap Z Entry.t * bool) :
  (∀ d, is_Some (st.1 !! d) →
        is_Some ((foldl (resolve_entry self src_id now) st es).1 !! d))
  ∧ (st.2 = true → (foldl (resolve_entry self src_id now) st es).2 = true).
Proof.
  revert st. induction es as [|e es IH]; intros st; [done|].
  cbn [foldl]. destruct (IH (resolve_entry self src_id now st e)) as [Hk Ht]. split.
  - intros d Hd. by apply Hk, resolve_entry_keeps.
  - intros Hst. by apply Ht, resolve_entry_trigger.
Qed.

Lemma resolve_update_keeps (self : router) (src_id : Z) (es : list Entry.t) (now d : Z) :
  is_Some (routing_table self !! d) →
  is_Some (routing_table (resolve_update self src_id es now) !! d).
Proof.
  intros Hd. unfold resolve_update.
  destruct (resolve_entries_keep self src_id now es
              (routing_table self, triggered_update_call self)) as [Hk _].
  specialize (Hk d Hd). by destruct (foldl _ _ _).
Qed.

(** X18.  [resolve_update] writes only where the packet points: the
    router's identity, outputs and timer value stay, the entries of the
    destinations the packet does not list and the slot of the router's own
    id are untouched, no destination is ever dropped from the table, and
    [triggered_update_call] is never lowered. *)
Theorem resolve_update_frame (self : router) (src_id : Z) (es : list Entry.t) (now : Z) :
  id (resolve_update self src_id es now) = id self
  ∧ outputs (resolve_update self src_id es now) = outputs self
  ∧ timer_value (resolve_update self src_id es now) = timer_value self
  ∧ (∀ d, d ∉ Entry.dst_id <$> es →
          routing_table (resolve_update self src_id es now) !! d = routing_table self !! d)
  ∧ routing_table (resolve_update self src_id es now) !! id self
    = routing_table self !! id self
  ∧ (∀ d, is_Some (routing_table self !! d) →
          is_Some (routing_table (resolve_update self src_id es now) !! d))
  ∧ (triggered_update_call self = true →
     triggered_update_call (resolve_update self src_id es now) = true).
Proof.
  destruct (resolve_update_fields self src_id es now) as (Ho & Hi & Ht).
  repeat split; try done.
  - intros d Hd. unfold resolve_update.
    pose proof (resolve_entries_other self src_id now es
                  (routing_table self, triggered_update_call self) d Hd) as Hother.
    by destruct (foldl _ _ _).
  - apply resolve_update_wf_own.
  - intros d. apply resolve_update_keeps.
  - intros Htrig. unfold resolve_update.
    destruct (resolve_entries_keep self src_id now es
                (routing_table self, triggered_update_call self)) as [_ Hk].
    specialize (Hk Htrig). by destruct (foldl _ _ _).
Qed.

(** X19.  A destination leaves the table of [1Server.py] in one way only:
    whatever the call, an entry that is stored before it and gone after
    it was condemned, and the call was a [check_garbage] made at least
    [garbage_time] after its garbage timer was started. *)
Theorem entries_leave_by_garbage_collection_only (self : router) (ev : event) (d : Z)
    (e : Entry.t) :
  wf_table (routing_table self) →
  routing_table self !! d = Some e →
  routing_table (step self ev) !! d = None →
  ∃ now, ev = CheckGarbage now
         ∧ Entry.garbage_flag e = true
         ∧ now >= Entry.garbage_time e + garbage_time self.
Proof.
  intros Hwf He Hgone. destruct ev as [src_id es now|now|now| |]; cbn [step] in Hgone.
  - destruct (resolve_update_keeps self src_id es now d) as [x Hx]; [by eexists|].
    by rewrite Hx in Hgone.
  - by rewrite check_timeout_lookup, He in Hgone.
  - exists now. rewrite (check_garbage_lookup self now d e) in Hgone by done.
    destruct (Entry.garbage_flag e); [|done]. simpl in Hgone.
    case_bool_decide; done.
  - simpl in Hgone. by rewrite lookup_fmap, He in Hgone.
  - simpl in Hgone. by rewrite lookup_fmap, He in Hgone.
Qed.

Lemma entries_leave_by_garbage_collection_only_witness :
  let e := Entry.Make 3 2 16 false true 0 80 in
  let self := Router 1 [Output 2 5 5002] 30 {[3 := e]} false in
  ∃ now, CheckGarbage 200 = CheckGarbage now
         ∧ Entry.garbage_flag e = true
         ∧ now >= Entry.garbage_time e + garbage_time self.
Proof.
  apply (entries_leave_by_garbage_collection_only
           (Router 1 [Output 2 5 5002] 30 {[3 := Entry.Make 3 2 16 false true 0 80]} false)
           (CheckGarbage 200) 3 (Entry.Make 3 2 16 false true 0 80)).
  - apply (bool_decide_unpack _). vm_compute. exact I.
  - vm_compute. reflexivity.
  - vm_compute. reflexivity.
Defined.

End ServerLifecycle.
